(** * mlod-p3d: the MLOD P3D decoder and encoder of [mlod-p3d.cpp]

    A shallow embedding of the reader, the writer and every struct codec of
    the source file, followed by the properties of the decode/encode pair.

    Conventions of the embedding.
    - A C++ function [parse(binary_reader& reader, T& out)] that returns
      [std::optional<mlod_error>] becomes a function from the reader and the
      object passed by reference to the triple (returned error, reader after
      the call, object after the call): what the caller can observe.
    - [binary_reader] keeps [begin], [end] and [current_offset]; [begin] and
      [end] delimit one live buffer, so the model keeps the buffer and the
      offset relative to [begin], and the test
      [begin + current_offset + sizeof(T) > end] is the test
      [current_offset + sizeof(T) > size]
      ([max_read_ptr_exceeds_offsets] relates the two).
    - [std::uint32_t] is an [N] decoded from four little-endian bytes;
      [float] is its IEEE-754 bit pattern (the program only copies floats);
      [bool], [char] and [std::uint8_t] are one byte of object
      representation, copied as it is by [read] and [write] (for a [bool]
      byte other than 0 and 1 the C++ standard leaves the read undefined;
      compilers copy the byte). *)

From Stdlib Require Import String Strings.Byte.
From Stdlib Require Import Bool Arith NArith Lia List.
Import ListNotations.
Open Scope string_scope.
Open Scope list_scope.
Open Scope nat_scope.

Set Implicit Arguments.

(** ** Plain data *)

#[warning="-notation-for-abbreviation"]
Notation char := byte (only parsing).
#[warning="-notation-for-abbreviation"]
Notation uint8_t := byte (only parsing).
#[warning="-notation-for-abbreviation"]
Notation cpp_bool := byte (only parsing).
#[warning="-notation-for-abbreviation"]
Notation uint32_t := N (only parsing).
#[warning="-notation-for-abbreviation"]
Notation float := N (only parsing).

(** [using mlod_signature = std::array<char, 4>] *)
Definition mlod_signature : Type := (char * char * char * char)%type.

(** Little-endian object representation of an unsigned integer. *)
Fixpoint le_decode (bs : list byte) : N :=
  match bs with
  | [] => 0%N
  | b :: rest => (Byte.to_N b + 256 * le_decode rest)%N
  end.

Definition byte_of_N (n : N) : byte :=
  match Byte.of_N (n mod 256) with
  | Some b => b
  | None => x00
  end.

Fixpoint le_encode (width : nat) (v : N) : list byte :=
  match width with
  | O => []
  | S width' => byte_of_N v :: le_encode width' (v / 256)
  end.

(** What [template<typename T>] asks of [T] in [binary_reader::read] and
    [binary_writer::write]: a size and an object representation. *)
Class pod (T : Type) : Type := {
  sizeof : nat;
  load : list byte -> T;
  store : T -> list byte
}.
Arguments sizeof T {_}.

#[export] Instance pod_byte : pod byte := {|
  sizeof := 1;
  load := fun bs => match bs with b :: _ => b | [] => x00 end;
  store := fun b => [b]
|}.

#[export] Instance pod_uint32 : pod N := {|
  sizeof := 4;
  load := le_decode;
  store := le_encode 4
|}.

#[export] Instance pod_signature : pod mlod_signature := {|
  sizeof := 4;
  load := fun bs =>
    match bs with
    | a :: b :: c :: d :: _ => (a, b, c, d)
    | _ => (x00, x00, x00, x00)
    end;
  store := fun s => let '(a, b, c, d) := s in [a; b; c; d]
|}.

(** [v.resize(n)] of [std::vector] and [std::string], [d] being the
    value-initialised element. *)
Definition resize {A : Type} (n : nat) (d : A) (v : list A) : list A :=
  firstn n v ++ repeat d (n - length v).

Fixpoint bytes_eqb (a b : list byte) : bool :=
  match a, b with
  | [], [] => true
  | x :: a', y :: b' => Byte.eqb x y && bytes_eqb a' b'
  | _, _ => false
  end.

(** A [const char*] literal as bytes. *)
Definition lit (s : string) : list byte := list_byte_of_string s.

(** ** [mlod_error] *)

Module mlod_error.
Record t : Type := mk { error : string }.
End mlod_error.

(** ** [binary_writer] *)

Module binary_writer.
Record t : Type := mk { data : list byte; write_offset : nat }.

Definition new : t := mk [] 0.

Definition write {T : Type} `{pod T} (w : t) (d : T) : t :=
  let data1 := resize (length (data w) + sizeof T) x00 (data w) in
  let data2 := firstn (write_offset w) data1 ++ store d
               ++ skipn (write_offset w + sizeof T) data1 in
  mk data2 (write_offset w + sizeof T).
End binary_writer.

(** ** [binary_reader] *)

Module binary_reader.
Record t : Type := mk { buf : list byte; current_offset : nat }.

(** [end - begin] *)
Definition size (r : t) : nat := length (buf r).

Definition new (data : list byte) : t := mk data 0.

Definition read {T : Type} `{pod T} (r : t) (out : T) : bool * t * T :=
  let max_read_ptr := current_offset r + sizeof T in
  if size r <? max_read_ptr then (false, r, out)
  else (true,
        mk (buf r) (current_offset r + sizeof T),
        load (firstn (sizeof T) (skipn (current_offset r) (buf r)))).

(** Bytes between the cursor and the end of the buffer. *)
Definition remaining (r : t) : nat := size r - current_offset r.

(** The test [max_read_ptr > end] of [read] on the addresses themselves, in
    64-bit arithmetic: [begin] is the address of the buffer and [end] is
    [begin + size]. *)
Definition max_read_ptr_exceeds (begin size current_offset sz : N) : bool :=
  let end_ := ((begin + size) mod 2 ^ 64)%N in
  let max_read_ptr := ((begin + current_offset + sz) mod 2 ^ 64)%N in
  (end_ <? max_read_ptr)%N.
End binary_reader.

(** ** The shape of every [parse] function *)

Definition parse_result (T : Type) : Type :=
  (option mlod_error.t * binary_reader.t * T)%type.

Definition parser (T : Type) : Type := binary_reader.t -> T -> parse_result T.

(** [if (!reader.read(out.f)) return mlod_error(msg);] *)
Definition read_field {T F : Type} `{pod F}
    (get : T -> F) (set : F -> T -> T) (msg : string) : parser T :=
  fun reader out =>
    let '(ok, reader, v) := binary_reader.read reader (get out) in
    if ok then (None, reader, set v out)
    else (Some (mlod_error.mk msg), reader, out).

(** [if (!reader.read(x)) return mlod_error(msg);] on the object itself. *)
Definition read_value {F : Type} `{pod F} (msg : string) : parser F :=
  read_field (fun x => x) (fun v _ => v) msg.

(** [auto err = F::parse(reader, out.f); if (err.has_value()) return err;] *)
Definition parse_field {T F : Type}
    (get : T -> F) (set : F -> T -> T) (p : parser F) : parser T :=
  fun reader out =>
    let '(err, reader, v) := p reader (get out) in
    (err, reader, set v out).

(** A statement that reads nothing and cannot fail. *)
Definition stmt {T : Type} (f : T -> T) : parser T :=
  fun reader out => (None, reader, f out).

(** Statement sequencing with the early [return err]. *)
Definition seq {T : Type} (p q : parser T) : parser T :=
  fun reader out =>
    let '(err, reader, out) := p reader out in
    match err with
    | Some _ => (err, reader, out)
    | None => q reader out
    end.

Declare Scope parser_scope.
Delimit Scope parser_scope with parser.
Notation "p ;; q" := (seq p q) (at level 61, right associativity) : parser_scope.
Open Scope parser_scope.

(** [for (auto& x : v) { auto err = p(reader, x); if (err.has_value()) return err; }] *)
Fixpoint for_each {A : Type} (p : parser A)
    (reader : binary_reader.t) (v : list A) : parse_result (list A) :=
  match v with
  | [] => (None, reader, [])
  | x :: rest =>
    let '(err, reader, x) := p reader x in
    match err with
    | Some _ => (err, reader, x :: rest)
    | None =>
      let '(err, reader, rest) := for_each p reader rest in
      (err, reader, x :: rest)
    end
  end.

(** [for (auto& x : v) { reader.read(x); }], the result of [read] dropped. *)
Fixpoint read_each {T : Type} `{pod T}
    (reader : binary_reader.t) (v : list T) : binary_reader.t * list T :=
  match v with
  | [] => (reader, [])
  | x :: rest =>
    let '(_, reader, x) := binary_reader.read reader x in
    let '(reader, rest) := read_each reader rest in
    (reader, x :: rest)
  end.

(** ** [vector3] *)

Module vector3.
Record t : Type := mk { x : float; y : float; z : float }.

Definition default : t := mk 0%N 0%N 0%N.

Definition with_x (v : float) (o : t) : t := mk v (y o) (z o).
Definition with_y (v : float) (o : t) : t := mk (x o) v (z o).
Definition with_z (v : float) (o : t) : t := mk (x o) (y o) v.

Definition parse : parser t :=
  read_field x with_x "failed to read vector3.x" ;;
  read_field y with_y "failed to read vector3.y" ;;
  read_field z with_z "failed to read vector3.z".

Definition write (writer : binary_writer.t) (i : t) : binary_writer.t :=
  let writer := binary_writer.write writer (x i) in
  let writer := binary_writer.write writer (y i) in
  binary_writer.write writer (z i).
End vector3.

(** ** [arma_string] *)

Module arma_string.
Record t : Type := mk { string : list char }.

Definition default : t := mk [].

(** The [do { ... } while (true)] of [parse]; [fuel] bounds the number of
    iterations, [None] is "more iterations needed". *)
Fixpoint parse_loop (fuel : nat) (reader : binary_reader.t) (out : t)
    : option (parse_result t) :=
  match fuel with
  | O => None
  | S fuel' =>
    let ch : char := x00 in
    let '(ok, reader, ch) := binary_reader.read reader ch in
    if negb ok then
      Some (Some (mlod_error.mk "failed to read arma_string[n]"), reader, out)
    else if negb (Byte.eqb ch x00) then
      parse_loop fuel' reader (mk (string out ++ [ch]))
    else Some (None, reader, out)
  end.

(** Every iteration that continues has consumed one byte, so one more
    iteration than there are bytes left always suffices
    ([arma_string_loop_fuel] below); the last branch is never taken. *)
Definition parse : parser t :=
  fun reader out =>
    let out := mk [] in
    match parse_loop (S (binary_reader.remaining reader)) reader out with
    | Some res => res
    | None => (Some (mlod_error.mk "failed to read arma_string[n]"), reader, out)
    end.

Definition write (writer : binary_writer.t) (i : t) : binary_writer.t :=
  let writer := fold_left (fun w (ch : char) => binary_writer.write w ch)
                          (string i) writer in
  binary_writer.write writer (x00 : char).
End arma_string.

(** ** [vert_descriptor] *)

Module vert_descriptor.
Record t : Type := mk {
  point_index : uint32_t;
  normal_index : uint32_t;
  u : float;
  v : float
}.

Definition default : t := mk 0%N 0%N 0%N 0%N.

Definition with_point_index (a : uint32_t) (o : t) : t :=
  mk a (normal_index o) (u o) (v o).
Definition with_normal_index (a : uint32_t) (o : t) : t :=
  mk (point_index o) a (u o) (v o).
Definition with_u (a : float) (o : t) : t :=
  mk (point_index o) (normal_index o) a (v o).
Definition with_v (a : float) (o : t) : t :=
  mk (point_index o) (normal_index o) (u o) a.

Definition parse : parser t :=
  read_field point_index with_point_index
    "failed to read vert_descriptor.point_index" ;;
  read_field normal_index with_normal_index
    "failed to read vert_descriptor.normal_index" ;;
  read_field u with_u "failed to read vert_descriptor.u" ;;
  read_field v with_v "failed to read vert_descriptor.v".

Definition write (writer : binary_writer.t) (i : t) : binary_writer.t :=
  let writer := binary_writer.write writer (point_index i) in
  let writer := binary_writer.write writer (normal_index i) in
  let writer := binary_writer.write writer (u i) in
  binary_writer.write writer (v i).
End vert_descriptor.

(** [mlod_face] reads and writes a [vert_descriptor] as one object of 16
    bytes ([#pragma pack(push, 1)], four 4-byte members in declaration
    order). *)
#[export] Instance pod_vert_descriptor : pod vert_descriptor.t := {|
  sizeof := 16;
  load := fun bs =>
    vert_descriptor.mk
      (le_decode (firstn 4 bs))
      (le_decode (firstn 4 (skipn 4 bs)))
      (le_decode (firstn 4 (skipn 8 bs)))
      (le_decode (firstn 4 (skipn 12 bs)));
  store := fun d =>
    le_encode 4 (vert_descriptor.point_index d)
    ++ le_encode 4 (vert_descriptor.normal_index d)
    ++ le_encode 4 (vert_descriptor.u d)
    ++ le_encode 4 (vert_descriptor.v d)
|}.

(** ** [mlod_face] *)

Module mlod_face.
Record t : Type := mk {
  face_type : uint32_t;
  vertices : list vert_descriptor.t;
  face_flags : uint32_t;
  texture_name : arma_string.t;
  material_name : arma_string.t
}.

Definition default : t :=
  mk 0%N [] 0%N arma_string.default arma_string.default.

Definition with_face_type (a : uint32_t) (o : t) : t :=
  mk a (vertices o) (face_flags o) (texture_name o) (material_name o).
Definition with_vertices (a : list vert_descriptor.t) (o : t) : t :=
  mk (face_type o) a (face_flags o) (texture_name o) (material_name o).
Definition with_face_flags (a : uint32_t) (o : t) : t :=
  mk (face_type o) (vertices o) a (texture_name o) (material_name o).
Definition with_texture_name (a : arma_string.t) (o : t) : t :=
  mk (face_type o) (vertices o) (face_flags o) a (material_name o).
Definition with_material_name (a : arma_string.t) (o : t) : t :=
  mk (face_type o) (vertices o) (face_flags o) (texture_name o) a.

Definition parse : parser t :=
  read_field face_type with_face_type "failed to read mlod_face.face_type" ;;
  (* always 4 nomatter the face_type *)
  stmt (fun out =>
          with_vertices (resize 4 vert_descriptor.default (vertices out)) out) ;;
  parse_field vertices with_vertices
    (for_each (read_value "failed to read mlod_face.vertices[n]")) ;;
  read_field face_flags with_face_flags "failed to read mlod_face.face_flags" ;;
  parse_field texture_name with_texture_name arma_string.parse ;;
  parse_field material_name with_material_name arma_string.parse.

Definition write (writer : binary_writer.t) (i : t) : binary_writer.t :=
  let writer := binary_writer.write writer (face_type i) in
  let writer := fold_left (fun w (desc : vert_descriptor.t) =>
                             binary_writer.write w desc)
                          (vertices i) writer in
  let writer := binary_writer.write writer (face_flags i) in
  let writer := arma_string.write writer (texture_name i) in
  arma_string.write writer (material_name i).
End mlod_face.

(** ** [mlod_point] *)

Module mlod_point.
Record t : Type := mk { pos : vector3.t; flags : uint32_t }.

Definition default : t := mk vector3.default 0%N.

Definition with_pos (a : vector3.t) (o : t) : t := mk a (flags o).
Definition with_flags (a : uint32_t) (o : t) : t := mk (pos o) a.

Definition parse : parser t :=
  parse_field pos with_pos vector3.parse ;;
  read_field flags with_flags "failed to read mlod_point.flags".

Definition write (writer : binary_writer.t) (i : t) : binary_writer.t :=
  let writer := vector3.write writer (pos i) in
  binary_writer.write writer (flags i).
End mlod_point.

(** ** [mlod_tag] *)

Module mlod_tag.
Record t : Type := mk {
  active : cpp_bool;
  tag_name : arma_string.t;
  data_length : uint32_t;
  data : list uint8_t
}.

Definition default : t := mk x00 arma_string.default 0%N [].

Definition with_active (a : cpp_bool) (o : t) : t :=
  mk a (tag_name o) (data_length o) (data o).
Definition with_tag_name (a : arma_string.t) (o : t) : t :=
  mk (active o) a (data_length o) (data o).
Definition with_data_length (a : uint32_t) (o : t) : t :=
  mk (active o) (tag_name o) a (data o).
Definition with_data (a : list uint8_t) (o : t) : t :=
  mk (active o) (tag_name o) (data_length o) a.

Definition parse : parser t :=
  read_field active with_active "failed to read mlod_tag.active" ;;
  parse_field tag_name with_tag_name arma_string.parse ;;
  read_field data_length with_data_length "failed to read mlod_tag.data_length" ;;
  stmt (fun out =>
          with_data (resize (N.to_nat (data_length out)) x00 (data out)) out) ;;
  parse_field data with_data
    (for_each (read_value "failed to read mlod_tag.data[m]")).

Definition write (writer : binary_writer.t) (i : t) : binary_writer.t :=
  let writer := binary_writer.write writer (active i) in
  let writer := arma_string.write writer (tag_name i) in
  let writer := binary_writer.write writer (data_length i) in
  fold_left (fun w (b : uint8_t) => binary_writer.write w b) (data i) writer.

(** [tag.tag_name.string == name] *)
Definition named (name : string) (tag : t) : bool :=
  bytes_eqb (arma_string.string (tag_name tag)) (lit name).
End mlod_tag.

(** ** [property_tag] *)

Module property_tag.
Record t : Type := mk { key : list char; value : list char }.

Definition default : t := mk [] [].

(** [explicit property_tag(const mlod_tag& parent_tag)] *)
Definition of_tag (parent_tag : mlod_tag.t) : t :=
  let reader := binary_reader.new (mlod_tag.data parent_tag) in
  let key := resize 64 (x00 : char) (key default) in
  let value := resize 64 (x00 : char) (value default) in
  let '(reader, key) := read_each reader key in
  let '(reader, value) := read_each reader value in
  mk key value.
End property_tag.

(** ** [mass_tag] *)

Module mass_tag.
Record t : Type := mk { mass : list float }.

Definition default : t := mk [].

(** [explicit mass_tag(const mlod_tag& parent_tag, const std::uint32_t num_points)] *)
Definition of_tag (parent_tag : mlod_tag.t) (num_points : uint32_t) : t :=
  let reader := binary_reader.new (mlod_tag.data parent_tag) in
  let mass := resize (N.to_nat num_points) (0%N : float) (mass default) in
  let '(reader, mass) := read_each reader mass in
  mk mass.
End mass_tag.

(** ** [mlod_lod] *)

Module mlod_lod.
Record t : Type := mk {
  signature : mlod_signature;
  minor_version : uint32_t;
  major_version : uint32_t;
  num_points : uint32_t;
  num_face_normals : uint32_t;
  num_faces : uint32_t;
  flags : uint32_t;
  points : list mlod_point.t;
  normals : list vector3.t;
  faces : list mlod_face.t;
  tag_sig : mlod_signature;
  tags : list mlod_tag.t;
  resolution : float;
  (* converted tags *)
  property_tags : list property_tag.t;
  mass : mass_tag.t
}.

Definition default : t :=
  mk (x00, x00, x00, x00) 0%N 0%N 0%N 0%N 0%N 0%N [] [] []
     (x00, x00, x00, x00) [] 0%N [] mass_tag.default.

Definition with_signature (a : mlod_signature) (o : t) : t :=
  mk a (minor_version o) (major_version o) (num_points o)
     (num_face_normals o) (num_faces o) (flags o) (points o) (normals o)
     (faces o) (tag_sig o) (tags o) (resolution o) (property_tags o) (mass o).
Definition with_minor_version (a : uint32_t) (o : t) : t :=
  mk (signature o) a (major_version o) (num_points o)
     (num_face_normals o) (num_faces o) (flags o) (points o) (normals o)
     (faces o) (tag_sig o) (tags o) (resolution o) (property_tags o) (mass o).
Definition with_major_version (a : uint32_t) (o : t) : t :=
  mk (signature o) (minor_version o) a (num_points o)
     (num_face_normals o) (num_faces o) (flags o) (points o) (normals o)
     (faces o) (tag_sig o) (tags o) (resolution o) (property_tags o) (mass o).
Definition with_num_points (a : uint32_t) (o : t) : t :=
  mk (signature o) (minor_version o) (major_version o) a
     (num_face_normals o) (num_faces o) (flags o) (points o) (normals o)
     (faces o) (tag_sig o) (tags o) (resolution o) (property_tags o) (mass o).
Definition with_num_face_normals (a : uint32_t) (o : t) : t :=
  mk (signature o) (minor_version o) (major_version o) (num_points o)
     a (num_faces o) (flags o) (points o) (normals o)
     (faces o) (tag_sig o) (tags o) (resolution o) (property_tags o) (mass o).
Definition with_num_faces (a : uint32_t) (o : t) : t :=
  mk (signature o) (minor_version o) (major_version o) (num_points o)
     (num_face_normals o) a (flags o) (points o) (normals o)
     (faces o) (tag_sig o) (tags o) (resolution o) (property_tags o) (mass o).
Definition with_flags (a : uint32_t) (o : t) : t :=
  mk (signature o) (minor_version o) (major_version o) (num_points o)
     (num_face_normals o) (num_faces o) a (points o) (normals o)
     (faces o) (tag_sig o) (tags o) (resolution o) (property_tags o) (mass o).
Definition with_points (a : list mlod_point.t) (o : t) : t :=
  mk (signature o) (minor_version o) (major_version o) (num_points o)
     (num_face_normals o) (num_faces o) (flags o) a (normals o)
     (faces o) (tag_sig o) (tags o) (resolution o) (property_tags o) (mass o).
Definition with_normals (a : list vector3.t) (o : t) : t :=
  mk (signature o) (minor_version o) (major_version o) (num_points o)
     (num_face_normals o) (num_faces o) (flags o) (points o) a
     (faces o) (tag_sig o) (tags o) (resolution o) (property_tags o) (mass o).
Definition with_faces (a : list mlod_face.t) (o : t) : t :=
  mk (signature o) (minor_version o) (major_version o) (num_points o)
     (num_face_normals o) (num_faces o) (flags o) (points o) (normals o)
     a (tag_sig o) (tags o) (resolution o) (property_tags o) (mass o).
Definition with_tag_sig (a : mlod_signature) (o : t) : t :=
  mk (signature o) (minor_version o) (major_version o) (num_points o)
     (num_face_normals o) (num_faces o) (flags o) (points o) (normals o)
     (faces o) a (tags o) (resolution o) (property_tags o) (mass o).
Definition with_tags (a : list mlod_tag.t) (o : t) : t :=
  mk (signature o) (minor_version o) (major_version o) (num_points o)
     (num_face_normals o) (num_faces o) (flags o) (points o) (normals o)
     (faces o) (tag_sig o) a (resolution o) (property_tags o) (mass o).
Definition with_resolution (a : float) (o : t) : t :=
  mk (signature o) (minor_version o) (major_version o) (num_points o)
     (num_face_normals o) (num_faces o) (flags o) (points o) (normals o)
     (faces o) (tag_sig o) (tags o) a (property_tags o) (mass o).
Definition with_property_tags (a : list property_tag.t) (o : t) : t :=
  mk (signature o) (minor_version o) (major_version o) (num_points o)
     (num_face_normals o) (num_faces o) (flags o) (points o) (normals o)
     (faces o) (tag_sig o) (tags o) (resolution o) a (mass o).
Definition with_mass (a : mass_tag.t) (o : t) : t :=
  mk (signature o) (minor_version o) (major_version o) (num_points o)
     (num_face_normals o) (num_faces o) (flags o) (points o) (normals o)
     (faces o) (tag_sig o) (tags o) (resolution o) (property_tags o) a.

(** The statements of the tag loop that follow a successful
    [mlod_tag::parse], up to the test of the terminator. *)
Definition keep_tag (tag : mlod_tag.t) (out : t) : t :=
  let out := with_tags (tags out ++ [tag]) out in
  if mlod_tag.named "#Property#" tag then
    with_property_tags (property_tags out ++ [property_tag.of_tag tag]) out
  else if mlod_tag.named "#Mass#" tag then
    with_mass (mass_tag.of_tag tag (num_points out)) out
  else out.

(** The [do { ... } while (true)] over the tags; [fuel] bounds the number
    of iterations, [None] is "more iterations needed". *)
Fixpoint tag_loop (fuel : nat) (reader : binary_reader.t) (out : t)
    : option (parse_result t) :=
  match fuel with
  | O => None
  | S fuel' =>
    let tag := mlod_tag.default in
    let '(err, reader, tag) := mlod_tag.parse reader tag in
    match err with
    | Some _ => Some (err, reader, out)
    | None =>
      let out := keep_tag tag out in
      if mlod_tag.named "#EndOfFile#" tag then Some (None, reader, out)
      else tag_loop fuel' reader out
    end
  end.

(** Every tag read consumes at least its [active] byte, so one more
    iteration than there are bytes left always suffices
    ([tag_loop_fuel] below); the last branch is never taken. *)
Definition parse_tags : parser t :=
  fun reader out =>
    match tag_loop (S (binary_reader.remaining reader)) reader out with
    | Some res => res
    | None => (Some (mlod_error.mk "failed to read mlod_tag.active"), reader, out)
    end.

Definition parse : parser t :=
  read_field signature with_signature "failed to read mlod_lod.signature" ;;
  read_field minor_version with_minor_version
    "failed to read mlod_lod.minor_version" ;;
  read_field major_version with_major_version
    "failed to read mlod_lod.major_version" ;;
  read_field num_points with_num_points "failed to read mlod_lod.num_points" ;;
  read_field num_face_normals with_num_face_normals
    "failed to read mlod_lod.num_face_normals" ;;
  read_field num_faces with_num_faces "failed to read mlod_lod.num_faces" ;;
  read_field flags with_flags "failed to read mlod_lod.flags" ;;
  stmt (fun out =>
          with_points (resize (N.to_nat (num_points out)) mlod_point.default
                              (points out)) out) ;;
  parse_field points with_points (for_each mlod_point.parse) ;;
  stmt (fun out =>
          with_normals (resize (N.to_nat (num_face_normals out)) vector3.default
                               (normals out)) out) ;;
  parse_field normals with_normals (for_each vector3.parse) ;;
  stmt (fun out =>
          with_faces (resize (N.to_nat (num_faces out)) mlod_face.default
                             (faces out)) out) ;;
  parse_field faces with_faces (for_each mlod_face.parse) ;;
  read_field tag_sig with_tag_sig "failed to read mlod_lod.tag_sig" ;;
  parse_tags ;;
  read_field resolution with_resolution "failed to read mlod_lod.resolution".

Definition write (writer : binary_writer.t) (i : t) : binary_writer.t :=
  let writer := binary_writer.write writer (signature i) in
  let writer := binary_writer.write writer (minor_version i) in
  let writer := binary_writer.write writer (major_version i) in
  let writer := binary_writer.write writer (num_points i) in
  let writer := binary_writer.write writer (num_face_normals i) in
  let writer := binary_writer.write writer (num_faces i) in
  let writer := binary_writer.write writer (flags i) in
  let writer := fold_left mlod_point.write (points i) writer in
  let writer := fold_left vector3.write (normals i) writer in
  let writer := fold_left mlod_face.write (faces i) writer in
  let writer := binary_writer.write writer (tag_sig i) in
  let writer := fold_left mlod_tag.write (tags i) writer in
  binary_writer.write writer (resolution i).
End mlod_lod.

(** ** [p3d_header] *)

Module p3d_header.
Record t : Type := mk {
  signature : mlod_signature;
  version : uint32_t;
  lod_count : uint32_t
}.

Definition default : t := mk (x00, x00, x00, x00) 0%N 0%N.

Definition with_signature (a : mlod_signature) (o : t) : t :=
  mk a (version o) (lod_count o).
Definition with_version (a : uint32_t) (o : t) : t :=
  mk (signature o) a (lod_count o).
Definition with_lod_count (a : uint32_t) (o : t) : t :=
  mk (signature o) (version o) a.

Definition parse : parser t :=
  read_field signature with_signature "failed to read p3d_header.signature" ;;
  read_field version with_version "failed to read p3d_header.version" ;;
  read_field lod_count with_lod_count "failed to read p3d_header.lod_count".

Definition write (writer : binary_writer.t) (i : t) : binary_writer.t :=
  let writer := binary_writer.write writer (signature i) in
  let writer := binary_writer.write writer (version i) in
  binary_writer.write writer (lod_count i).
End p3d_header.

(** ** [mlod_p3d] *)

Module mlod_p3d.
Record t : Type := mk { header : p3d_header.t; lods : list mlod_lod.t }.

(** [mlod_p3d out;] *)
Definition default : t := mk p3d_header.default [].

Definition with_header (a : p3d_header.t) (o : t) : t := mk a (lods o).
Definition with_lods (a : list mlod_lod.t) (o : t) : t := mk (header o) a.

Definition parse : parser t :=
  parse_field header with_header p3d_header.parse ;;
  stmt (fun out =>
          with_lods (resize (N.to_nat (p3d_header.lod_count (header out)))
                            mlod_lod.default (lods out)) out) ;;
  parse_field lods with_lods (for_each mlod_lod.parse).

Definition write (writer : binary_writer.t) (i : t) : binary_writer.t :=
  let writer := p3d_header.write writer (header i) in
  fold_left mlod_lod.write (lods i) writer.
End mlod_p3d.

(** ** [main], as a function of the bytes of [test.p3d]

    The result is the exit status, the line printed on [std::cout] (if any)
    and the bytes written to [test_out.p3d] (if any). *)
Definition main (bytes : list byte) : nat * option string * option (list byte) :=
  let reader := binary_reader.new bytes in
  let out := mlod_p3d.default in
  let '(parse_error, reader, out) := mlod_p3d.parse reader out in
  match parse_error with
  | Some e => (1, Some (mlod_error.error e), None)
  | None =>
    let writer := binary_writer.new in
    let writer := mlod_p3d.write writer out in
    (0, None, Some (binary_writer.data writer))
  end.

(** Decoding a buffer into a fresh document, and encoding a document into a
    fresh writer, as [main] does. *)
Definition decode (bytes : list byte) : parse_result mlod_p3d.t :=
  mlod_p3d.parse (binary_reader.new bytes) mlod_p3d.default.

Definition encode (doc : mlod_p3d.t) : list byte :=
  binary_writer.data (mlod_p3d.write binary_writer.new doc).

(** Scenario A of the specification: one LOD, one point, no normals, no
    faces, the terminator tag alone, resolution 1.0. *)
Definition scenario_a : list byte :=
  lit "MLOD" ++ [x01; x01; x00; x00] ++ [x01; x00; x00; x00]
  ++ lit "P3DM" ++ [x1c; x00; x00; x00] ++ [x00; x01; x00; x00]
  ++ [x01; x00; x00; x00] ++ [x00; x00; x00; x00] ++ [x00; x00; x00; x00]
  ++ [x00; x00; x00; x00]
  ++ repeat x00 12 ++ [x00; x00; x00; x00]
  ++ lit "SP3X"
  ++ [x01] ++ lit "#EndOfFile#" ++ [x00] ++ [x00; x00; x00; x00]
  ++ [x00; x00; x80; x3f].

(** ** Byte layout of every struct

    What [write] emits for a value, as a list of bytes; [write_*_appends]
    below ties each to the [write] function of the source. *)

Definition vector3_bytes (i : vector3.t) : list byte :=
  store (vector3.x i) ++ store (vector3.y i) ++ store (vector3.z i).

Definition arma_string_bytes (i : arma_string.t) : list byte :=
  arma_string.string i ++ [x00].

Definition mlod_face_bytes (i : mlod_face.t) : list byte :=
  store (mlod_face.face_type i)
  ++ flat_map store (mlod_face.vertices i)
  ++ store (mlod_face.face_flags i)
  ++ arma_string_bytes (mlod_face.texture_name i)
  ++ arma_string_bytes (mlod_face.material_name i).

Definition mlod_point_bytes (i : mlod_point.t) : list byte :=
  vector3_bytes (mlod_point.pos i) ++ store (mlod_point.flags i).

Definition mlod_tag_bytes (i : mlod_tag.t) : list byte :=
  store (mlod_tag.active i)
  ++ arma_string_bytes (mlod_tag.tag_name i)
  ++ store (mlod_tag.data_length i)
  ++ flat_map store (mlod_tag.data i).

Definition mlod_lod_bytes (i : mlod_lod.t) : list byte :=
  store (mlod_lod.signature i)
  ++ store (mlod_lod.minor_version i)
  ++ store (mlod_lod.major_version i)
  ++ store (mlod_lod.num_points i)
  ++ store (mlod_lod.num_face_normals i)
  ++ store (mlod_lod.num_faces i)
  ++ store (mlod_lod.flags i)
  ++ flat_map mlod_point_bytes (mlod_lod.points i)
  ++ flat_map vector3_bytes (mlod_lod.normals i)
  ++ flat_map mlod_face_bytes (mlod_lod.faces i)
  ++ store (mlod_lod.tag_sig i)
  ++ flat_map mlod_tag_bytes (mlod_lod.tags i)
  ++ store (mlod_lod.resolution i).

Definition p3d_header_bytes (i : p3d_header.t) : list byte :=
  store (p3d_header.signature i)
  ++ store (p3d_header.version i)
  ++ store (p3d_header.lod_count i).

Definition mlod_p3d_bytes (i : mlod_p3d.t) : list byte :=
  p3d_header_bytes (mlod_p3d.header i)
  ++ flat_map mlod_lod_bytes (mlod_p3d.lods i).

(** ** Relations between reader states *)

(** The reader went from [r] to [r'] over exactly the bytes [w]. *)
Definition consumed (r : binary_reader.t) (w : list byte) (r' : binary_reader.t)
    : Prop :=
  binary_reader.buf r' = binary_reader.buf r
  /\ binary_reader.current_offset r'
     = binary_reader.current_offset r + length w
  /\ skipn (binary_reader.current_offset r) (binary_reader.buf r)
     = w ++ skipn (binary_reader.current_offset r') (binary_reader.buf r).

(** The same cursor over the buffer followed by [extra]. *)
Definition extend (r : binary_reader.t) (extra : list byte) : binary_reader.t :=
  binary_reader.mk (binary_reader.buf r ++ extra) (binary_reader.current_offset r).

(** The writer after [bs] has been appended. *)
Definition appended (w : binary_writer.t) (bs : list byte) : binary_writer.t :=
  binary_writer.mk (binary_writer.data w ++ bs)
                   (binary_writer.write_offset w + length bs).

(** The state every writer reached from [binary_writer()] is in. *)
Definition writer_ok (w : binary_writer.t) : Prop :=
  binary_writer.write_offset w = length (binary_writer.data w).

(** The messages of the failed reads, each with the size of the read. *)
Definition read_failures : list (string * nat) :=
  [ ("failed to read vector3.x", 4);
    ("failed to read vector3.y", 4);
    ("failed to read vector3.z", 4);
    ("failed to read arma_string[n]", 1);
    ("failed to read mlod_face.face_type", 4);
    ("failed to read mlod_face.vertices[n]", 16);
    ("failed to read mlod_face.face_flags", 4);
    ("failed to read mlod_point.flags", 4);
    ("failed to read mlod_tag.active", 1);
    ("failed to read mlod_tag.data_length", 4);
    ("failed to read mlod_tag.data[m]", 1);
    ("failed to read mlod_lod.signature", 4);
    ("failed to read mlod_lod.minor_version", 4);
    ("failed to read mlod_lod.major_version", 4);
    ("failed to read mlod_lod.num_points", 4);
    ("failed to read mlod_lod.num_face_normals", 4);
    ("failed to read mlod_lod.num_faces", 4);
    ("failed to read mlod_lod.flags", 4);
    ("failed to read mlod_lod.tag_sig", 4);
    ("failed to read mlod_lod.resolution", 4);
    ("failed to read p3d_header.signature", 4);
    ("failed to read p3d_header.version", 4);
    ("failed to read p3d_header.lod_count", 4) ].

(** An error of a read that ran out of data: its message is the one of a
    read of [n] bytes, and a read of [n] bytes at the cursor would pass the
    end of the buffer. *)
Definition out_of_data (e : mlod_error.t) (r : binary_reader.t) : Prop :=
  exists n, In (mlod_error.error e, n) read_failures
            /\ binary_reader.size r < binary_reader.current_offset r + n.

(** ** Notions used by the statements *)

(** The object representation of [T] has [sizeof(T)] bytes and reads back
    what was stored. *)
Class pod_ok (T : Type) `{pod T} : Prop := {
  store_length : forall v : T, length (store v) = sizeof T;
  store_load : forall bs, length bs = sizeof T -> store (load bs) = bs
}.
Arguments pod_ok T {_}.

(** What a successful [p] consumed is the layout [b] of what it produced. *)
Definition codec_ok {T : Type} (p : parser T) (b : T -> list byte) : Prop :=
  forall r out r' out',
    p r out = (None, r', out') -> consumed r (b out') r'.

(** A successful [p] is not affected by bytes added after the buffer. *)
Definition stable {T : Type} (p : parser T) : Prop :=
  forall r out r' out' extra,
    p r out = (None, r', out') ->
    p (extend r extra) out = (None, extend r' extra, out').

(** [p] leaves the buffer of the reader alone, and every error it returns is
    the failure of a read that ran out of data. *)
Definition sound {T : Type} (p : parser T) : Prop :=
  forall r out e r' out',
    p r out = (e, r', out') ->
    binary_reader.buf r' = binary_reader.buf r
    /\ forall err, e = Some err -> out_of_data err r'.

(** A string without embedded NUL. *)
Definition no_nul (s : list byte) : Prop := Forall (fun c => c <> x00) s.


(** What the loop does to [out] over the tags it reads, in order. *)
Definition keep_tags (new : list mlod_tag.t) (out : mlod_lod.t) : mlod_lod.t :=
  fold_left (fun o tag => mlod_lod.keep_tag tag o) new out.

(** A run of tags closed by the first tag named [#EndOfFile#]. *)
Definition eof_terminated (new : list mlod_tag.t) : Prop :=
  exists pre t,
    new = pre ++ [t]
    /\ Forall (fun x => mlod_tag.named "#EndOfFile#" x = false) pre
    /\ mlod_tag.named "#EndOfFile#" t = true.

(** ** Concrete inputs *)

(** A triangle ([face_type] 3) with texture [a] and no material. *)
Definition triangle_face : list byte :=
  [x03; x00; x00; x00] ++ repeat x00 64 ++ [x00; x00; x00; x00]
  ++ lit "a" ++ [x00] ++ [x00].

(** A LOD without points, normals or faces, whose tags are a [#Property#]
    tag with the two payload bytes [ab] and the terminator. *)
Definition lod_short_property : list byte :=
  lit "P3DM" ++ [x1c; x00; x00; x00] ++ [x00; x01; x00; x00]
  ++ [x00; x00; x00; x00] ++ [x00; x00; x00; x00] ++ [x00; x00; x00; x00]
  ++ [x00; x00; x00; x00]
  ++ lit "TAGG"
  ++ [x01] ++ lit "#Property#" ++ [x00] ++ [x02; x00; x00; x00] ++ lit "ab"
  ++ [x01] ++ lit "#EndOfFile#" ++ [x00] ++ [x00; x00; x00; x00]
  ++ [x00; x00; x80; x3f].

(** Scenario B of the specification: a LOD with three points whose [#Mass#]
    tag has a payload of eight bytes, the floats 1.0 and 2.0. *)
Definition lod_short_mass : list byte :=
  lit "P3DM" ++ [x1c; x00; x00; x00] ++ [x00; x01; x00; x00]
  ++ [x03; x00; x00; x00] ++ [x00; x00; x00; x00] ++ [x00; x00; x00; x00]
  ++ [x00; x00; x00; x00]
  ++ repeat x00 48
  ++ lit "TAGG"
  ++ [x01] ++ lit "#Mass#" ++ [x00] ++ [x08; x00; x00; x00]
  ++ [x00; x00; x80; x3f] ++ [x00; x00; x00; x40]
  ++ [x01] ++ lit "#EndOfFile#" ++ [x00] ++ [x00; x00; x00; x00]
  ++ [x00; x00; x80; x3f].

(** The header of a document with one LOD, and the seven scalars of a LOD
    with the given numbers of points, normals and faces. *)
Definition one_lod_header : list byte :=
  lit "MLOD" ++ [x01; x01; x00; x00] ++ [x01; x00; x00; x00].

Definition lod_scalars (points normals faces : byte) : list byte :=
  lit "P3DM" ++ [x1c; x00; x00; x00] ++ [x00; x01; x00; x00]
  ++ [points; x00; x00; x00] ++ [normals; x00; x00; x00]
  ++ [faces; x00; x00; x00] ++ [x00; x00; x00; x00].

(** Buffers that end where [lods[0].points[0].pos.x], [lods[0].points[1].pos.x],
    [lods[0].normals[0].x] and [lods[0].faces[0].vertices[1]] are to be read. *)
Definition cut_at_point_0 : list byte :=
  one_lod_header ++ lod_scalars x01 x00 x00.
Definition cut_at_point_1 : list byte :=
  one_lod_header ++ lod_scalars x02 x00 x00 ++ repeat x01 16.
Definition cut_at_normal_0 : list byte :=
  one_lod_header ++ lod_scalars x00 x01 x00.
Definition cut_at_vertex_1 : list byte :=
  one_lod_header ++ lod_scalars x00 x00 x01
  ++ [x04; x00; x00; x00] ++ repeat x01 16 ++ repeat x01 3.

(** ** Well-formed values

    What [parse] establishes of every value it produces, and what [write]
    needs of a value for [parse] to read it back. *)

(** A value of [std::uint32_t], or the bit pattern of a [float]. *)
Definition is_u32 (v : N) : Prop := (v < 2 ^ 32)%N.

Definition wf_vector3 (i : vector3.t) : Prop :=
  is_u32 (vector3.x i) /\ is_u32 (vector3.y i) /\ is_u32 (vector3.z i).

Definition wf_vert_descriptor (i : vert_descriptor.t) : Prop :=
  is_u32 (vert_descriptor.point_index i)
  /\ is_u32 (vert_descriptor.normal_index i)
  /\ is_u32 (vert_descriptor.u i)
  /\ is_u32 (vert_descriptor.v i).

Definition wf_arma_string (i : arma_string.t) : Prop :=
  no_nul (arma_string.string i).

Definition wf_mlod_face (i : mlod_face.t) : Prop :=
  is_u32 (mlod_face.face_type i)
  /\ length (mlod_face.vertices i) = 4
  /\ Forall wf_vert_descriptor (mlod_face.vertices i)
  /\ is_u32 (mlod_face.face_flags i)
  /\ wf_arma_string (mlod_face.texture_name i)
  /\ wf_arma_string (mlod_face.material_name i).

Definition wf_mlod_point (i : mlod_point.t) : Prop :=
  wf_vector3 (mlod_point.pos i) /\ is_u32 (mlod_point.flags i).

Definition wf_mlod_tag (i : mlod_tag.t) : Prop :=
  wf_arma_string (mlod_tag.tag_name i)
  /\ is_u32 (mlod_tag.data_length i)
  /\ mlod_tag.data_length i = N.of_nat (length (mlod_tag.data i)).

Definition wf_mlod_lod (i : mlod_lod.t) : Prop :=
  is_u32 (mlod_lod.minor_version i)
  /\ is_u32 (mlod_lod.major_version i)
  /\ is_u32 (mlod_lod.num_points i)
  /\ is_u32 (mlod_lod.num_face_normals i)
  /\ is_u32 (mlod_lod.num_faces i)
  /\ is_u32 (mlod_lod.flags i)
  /\ mlod_lod.num_points i = N.of_nat (length (mlod_lod.points i))
  /\ mlod_lod.num_face_normals i = N.of_nat (length (mlod_lod.normals i))
  /\ mlod_lod.num_faces i = N.of_nat (length (mlod_lod.faces i))
  /\ Forall wf_mlod_point (mlod_lod.points i)
  /\ Forall wf_vector3 (mlod_lod.normals i)
  /\ Forall wf_mlod_face (mlod_lod.faces i)
  /\ eof_terminated (mlod_lod.tags i)
  /\ Forall wf_mlod_tag (mlod_lod.tags i)
  /\ is_u32 (mlod_lod.resolution i)
  /\ mlod_lod.property_tags i
     = map property_tag.of_tag
           (filter (mlod_tag.named "#Property#") (mlod_lod.tags i))
  /\ mlod_lod.mass i
     = match find (mlod_tag.named "#Mass#") (rev (mlod_lod.tags i)) with
       | Some t => mass_tag.of_tag t (mlod_lod.num_points i)
       | None => mass_tag.default
       end.

Definition wf_mlod_p3d (i : mlod_p3d.t) : Prop :=
  is_u32 (p3d_header.version (mlod_p3d.header i))
  /\ is_u32 (p3d_header.lod_count (mlod_p3d.header i))
  /\ p3d_header.lod_count (mlod_p3d.header i)
     = N.of_nat (length (mlod_p3d.lods i))
  /\ Forall wf_mlod_lod (mlod_p3d.lods i).

(** The bytes between the cursor and the end of the buffer. *)
Definition unread (r : binary_reader.t) : list byte :=
  skipn (binary_reader.current_offset r) (binary_reader.buf r).

(** [p], given [out] and a reader whose unread bytes start with the layout
    of [x], succeeds with [x] and leaves the reader after that layout. *)
Definition yields {T : Type} (p : parser T) (b : T -> list byte)
    (x out : T) : Prop :=
  forall r tail,
    unread r = b x ++ tail ->
    exists r', p r out = (None, r', x) /\ unread r' = tail.

(** [p] never touches the buffer, never moves the cursor backwards and
    never moves it from inside the buffer to beyond its end, whether it
    succeeds or fails. *)
Definition forward {T : Type} (p : parser T) : Prop :=
  forall r out e r' out',
    p r out = (e, r', out') ->
    binary_reader.buf r' = binary_reader.buf r
    /\ binary_reader.current_offset r <= binary_reader.current_offset r'
    /\ (binary_reader.current_offset r <= binary_reader.size r ->
        binary_reader.current_offset r' <= binary_reader.size r).

(** ** Where a decode fails

    For every struct, the runs of [parse] that return an error, with one
    constructor for every [return mlod_error(...)] and every [return err]
    of the source.  [fails r msg r'] holds when, between the reader [r]
    that [parse] was given and the reader [r'] that it leaves, lie the
    layouts of the members read before, all complete, and at [r'] the read
    of the member that [msg] names does not fit.  The error of a nested
    [parse] is passed on as it is. *)

(** A read of [n] bytes at the cursor passes the end of the buffer. *)
Definition lacks (r : binary_reader.t) (n : nat) : Prop :=
  binary_reader.size r < binary_reader.current_offset r + n.

Inductive vector3_fails (r : binary_reader.t)
    : string -> binary_reader.t -> Prop :=
| vector3_fails_x :
    lacks r 4 ->
    vector3_fails r "failed to read vector3.x" r
| vector3_fails_y (x : float) r' :
    consumed r (store x) r' -> lacks r' 4 ->
    vector3_fails r "failed to read vector3.y" r'
| vector3_fails_z (x y : float) r' :
    consumed r (store x ++ store y) r' -> lacks r' 4 ->
    vector3_fails r "failed to read vector3.z" r'.

(** The characters [s] read so far hold no NUL, and no byte is left. *)
Inductive arma_string_fails (r : binary_reader.t)
    : string -> binary_reader.t -> Prop :=
| arma_string_fails_char (s : list char) r' :
    no_nul s -> consumed r s r' -> lacks r' 1 ->
    arma_string_fails r "failed to read arma_string[n]" r'.

Inductive mlod_face_fails (r : binary_reader.t)
    : string -> binary_reader.t -> Prop :=
| mlod_face_fails_face_type :
    lacks r 4 ->
    mlod_face_fails r "failed to read mlod_face.face_type" r
| mlod_face_fails_vertices (face_type : uint32_t)
      (done : list vert_descriptor.t) r' :
    length done < 4 ->
    Forall wf_vert_descriptor done ->
    consumed r (store face_type ++ flat_map store done) r' ->
    lacks r' 16 ->
    mlod_face_fails r "failed to read mlod_face.vertices[n]" r'
| mlod_face_fails_face_flags (i : mlod_face.t) r' :
    length (mlod_face.vertices i) = 4 ->
    Forall wf_vert_descriptor (mlod_face.vertices i) ->
    consumed r (store (mlod_face.face_type i)
                ++ flat_map store (mlod_face.vertices i)) r' ->
    lacks r' 4 ->
    mlod_face_fails r "failed to read mlod_face.face_flags" r'
| mlod_face_fails_texture_name (i : mlod_face.t) r1 msg r' :
    length (mlod_face.vertices i) = 4 ->
    Forall wf_vert_descriptor (mlod_face.vertices i) ->
    consumed r (store (mlod_face.face_type i)
                ++ flat_map store (mlod_face.vertices i)
                ++ store (mlod_face.face_flags i)) r1 ->
    arma_string_fails r1 msg r' ->
    mlod_face_fails r msg r'
| mlod_face_fails_material_name (i : mlod_face.t) r1 msg r' :
    length (mlod_face.vertices i) = 4 ->
    Forall wf_vert_descriptor (mlod_face.vertices i) ->
    wf_arma_string (mlod_face.texture_name i) ->
    consumed r (store (mlod_face.face_type i)
                ++ flat_map store (mlod_face.vertices i)
                ++ store (mlod_face.face_flags i)
                ++ arma_string_bytes (mlod_face.texture_name i)) r1 ->
    arma_string_fails r1 msg r' ->
    mlod_face_fails r msg r'.

Inductive mlod_point_fails (r : binary_reader.t)
    : string -> binary_reader.t -> Prop :=
| mlod_point_fails_pos msg r' :
    vector3_fails r msg r' ->
    mlod_point_fails r msg r'
| mlod_point_fails_flags (pos : vector3.t) r' :
    wf_vector3 pos ->
    consumed r (vector3_bytes pos) r' -> lacks r' 4 ->
    mlod_point_fails r "failed to read mlod_point.flags" r'.

Inductive mlod_tag_fails (r : binary_reader.t)
    : string -> binary_reader.t -> Prop :=
| mlod_tag_fails_active :
    lacks r 1 ->
    mlod_tag_fails r "failed to read mlod_tag.active" r
| mlod_tag_fails_tag_name (active : cpp_bool) r1 msg r' :
    consumed r (store active) r1 ->
    arma_string_fails r1 msg r' ->
    mlod_tag_fails r msg r'
| mlod_tag_fails_data_length (i : mlod_tag.t) r' :
    wf_arma_string (mlod_tag.tag_name i) ->
    consumed r (store (mlod_tag.active i)
                ++ arma_string_bytes (mlod_tag.tag_name i)) r' ->
    lacks r' 4 ->
    mlod_tag_fails r "failed to read mlod_tag.data_length" r'
| mlod_tag_fails_data (i : mlod_tag.t) (done : list uint8_t) r' :
    wf_arma_string (mlod_tag.tag_name i) ->
    is_u32 (mlod_tag.data_length i) ->
    length done < N.to_nat (mlod_tag.data_length i) ->
    consumed r (store (mlod_tag.active i)
                ++ arma_string_bytes (mlod_tag.tag_name i)
                ++ store (mlod_tag.data_length i)
                ++ flat_map store done) r' ->
    lacks r' 1 ->
    mlod_tag_fails r "failed to read mlod_tag.data[m]" r'.

(** The seven members of a LOD that precede its vectors. *)
Definition mlod_lod_head_bytes (i : mlod_lod.t) : list byte :=
  store (mlod_lod.signature i)
  ++ store (mlod_lod.minor_version i)
  ++ store (mlod_lod.major_version i)
  ++ store (mlod_lod.num_points i)
  ++ store (mlod_lod.num_face_normals i)
  ++ store (mlod_lod.num_faces i)
  ++ store (mlod_lod.flags i).

(** The vectors of a LOD, each read in full. *)
Definition points_read (i : mlod_lod.t) : Prop :=
  is_u32 (mlod_lod.num_points i)
  /\ length (mlod_lod.points i) = N.to_nat (mlod_lod.num_points i)
  /\ Forall wf_mlod_point (mlod_lod.points i).

Definition normals_read (i : mlod_lod.t) : Prop :=
  is_u32 (mlod_lod.num_face_normals i)
  /\ length (mlod_lod.normals i) = N.to_nat (mlod_lod.num_face_normals i)
  /\ Forall wf_vector3 (mlod_lod.normals i).

Definition faces_read (i : mlod_lod.t) : Prop :=
  is_u32 (mlod_lod.num_faces i)
  /\ length (mlod_lod.faces i) = N.to_nat (mlod_lod.num_faces i)
  /\ Forall wf_mlod_face (mlod_lod.faces i).

Definition mlod_lod_vectors_bytes (i : mlod_lod.t) : list byte :=
  flat_map mlod_point_bytes (mlod_lod.points i)
  ++ flat_map vector3_bytes (mlod_lod.normals i)
  ++ flat_map mlod_face_bytes (mlod_lod.faces i).

Inductive mlod_lod_fails (r : binary_reader.t)
    : string -> binary_reader.t -> Prop :=
| mlod_lod_fails_signature :
    lacks r 4 ->
    mlod_lod_fails r "failed to read mlod_lod.signature" r
| mlod_lod_fails_minor_version (i : mlod_lod.t) r' :
    consumed r (store (mlod_lod.signature i)) r' -> lacks r' 4 ->
    mlod_lod_fails r "failed to read mlod_lod.minor_version" r'
| mlod_lod_fails_major_version (i : mlod_lod.t) r' :
    consumed r (store (mlod_lod.signature i)
                ++ store (mlod_lod.minor_version i)) r' ->
    lacks r' 4 ->
    mlod_lod_fails r "failed to read mlod_lod.major_version" r'
| mlod_lod_fails_num_points (i : mlod_lod.t) r' :
    consumed r (store (mlod_lod.signature i)
                ++ store (mlod_lod.minor_version i)
                ++ store (mlod_lod.major_version i)) r' ->
    lacks r' 4 ->
    mlod_lod_fails r "failed to read mlod_lod.num_points" r'
| mlod_lod_fails_num_face_normals (i : mlod_lod.t) r' :
    consumed r (store (mlod_lod.signature i)
                ++ store (mlod_lod.minor_version i)
                ++ store (mlod_lod.major_version i)
                ++ store (mlod_lod.num_points i)) r' ->
    lacks r' 4 ->
    mlod_lod_fails r "failed to read mlod_lod.num_face_normals" r'
| mlod_lod_fails_num_faces (i : mlod_lod.t) r' :
    consumed r (store (mlod_lod.signature i)
                ++ store (mlod_lod.minor_version i)
                ++ store (mlod_lod.major_version i)
                ++ store (mlod_lod.num_points i)
                ++ store (mlod_lod.num_face_normals i)) r' ->
    lacks r' 4 ->
    mlod_lod_fails r "failed to read mlod_lod.num_faces" r'
| mlod_lod_fails_flags (i : mlod_lod.t) r' :
    consumed r (store (mlod_lod.signature i)
                ++ store (mlod_lod.minor_version i)
                ++ store (mlod_lod.major_version i)
                ++ store (mlod_lod.num_points i)
                ++ store (mlod_lod.num_face_normals i)
                ++ store (mlod_lod.num_faces i)) r' ->
    lacks r' 4 ->
    mlod_lod_fails r "failed to read mlod_lod.flags" r'
| mlod_lod_fails_points (i : mlod_lod.t) (done : list mlod_point.t)
      r1 msg r' :
    is_u32 (mlod_lod.num_points i) ->
    length done < N.to_nat (mlod_lod.num_points i) ->
    Forall wf_mlod_point done ->
    consumed r (mlod_lod_head_bytes i
                ++ flat_map mlod_point_bytes done) r1 ->
    mlod_point_fails r1 msg r' ->
    mlod_lod_fails r msg r'
| mlod_lod_fails_normals (i : mlod_lod.t) (done : list vector3.t)
      r1 msg r' :
    points_read i ->
    is_u32 (mlod_lod.num_face_normals i) ->
    length done < N.to_nat (mlod_lod.num_face_normals i) ->
    Forall wf_vector3 done ->
    consumed r (mlod_lod_head_bytes i
                ++ flat_map mlod_point_bytes (mlod_lod.points i)
                ++ flat_map vector3_bytes done) r1 ->
    vector3_fails r1 msg r' ->
    mlod_lod_fails r msg r'
| mlod_lod_fails_faces (i : mlod_lod.t) (done : list mlod_face.t)
      r1 msg r' :
    points_read i -> normals_read i ->
    is_u32 (mlod_lod.num_faces i) ->
    length done < N.to_nat (mlod_lod.num_faces i) ->
    Forall wf_mlod_face done ->
    consumed r (mlod_lod_head_bytes i
                ++ flat_map mlod_point_bytes (mlod_lod.points i)
                ++ flat_map vector3_bytes (mlod_lod.normals i)
                ++ flat_map mlod_face_bytes done) r1 ->
    mlod_face_fails r1 msg r' ->
    mlod_lod_fails r msg r'
| mlod_lod_fails_tag_sig (i : mlod_lod.t) r' :
    points_read i -> normals_read i -> faces_read i ->
    consumed r (mlod_lod_head_bytes i ++ mlod_lod_vectors_bytes i) r' ->
    lacks r' 4 ->
    mlod_lod_fails r "failed to read mlod_lod.tag_sig" r'
| mlod_lod_fails_tags (i : mlod_lod.t) (done : list mlod_tag.t)
      r1 msg r' :
    points_read i -> normals_read i -> faces_read i ->
    Forall wf_mlod_tag done ->
    Forall (fun t => mlod_tag.named "#EndOfFile#" t = false) done ->
    consumed r (mlod_lod_head_bytes i ++ mlod_lod_vectors_bytes i
                ++ store (mlod_lod.tag_sig i)
                ++ flat_map mlod_tag_bytes done) r1 ->
    mlod_tag_fails r1 msg r' ->
    mlod_lod_fails r msg r'
| mlod_lod_fails_resolution (i : mlod_lod.t) r' :
    points_read i -> normals_read i -> faces_read i ->
    Forall wf_mlod_tag (mlod_lod.tags i) ->
    eof_terminated (mlod_lod.tags i) ->
    consumed r (mlod_lod_head_bytes i ++ mlod_lod_vectors_bytes i
                ++ store (mlod_lod.tag_sig i)
                ++ flat_map mlod_tag_bytes (mlod_lod.tags i)) r' ->
    lacks r' 4 ->
    mlod_lod_fails r "failed to read mlod_lod.resolution" r'.

Inductive p3d_header_fails (r : binary_reader.t)
    : string -> binary_reader.t -> Prop :=
| p3d_header_fails_signature :
    lacks r 4 ->
    p3d_header_fails r "failed to read p3d_header.signature" r
| p3d_header_fails_version (i : p3d_header.t) r' :
    consumed r (store (p3d_header.signature i)) r' -> lacks r' 4 ->
    p3d_header_fails r "failed to read p3d_header.version" r'
| p3d_header_fails_lod_count (i : p3d_header.t) r' :
    consumed r (store (p3d_header.signature i)
                ++ store (p3d_header.version i)) r' ->
    lacks r' 4 ->
    p3d_header_fails r "failed to read p3d_header.lod_count" r'.

Inductive mlod_p3d_fails (r : binary_reader.t)
    : string -> binary_reader.t -> Prop :=
| mlod_p3d_fails_header msg r' :
    p3d_header_fails r msg r' ->
    mlod_p3d_fails r msg r'
| mlod_p3d_fails_lods (header : p3d_header.t) (done : list mlod_lod.t)
      r1 msg r' :
    is_u32 (p3d_header.lod_count header) ->
    length done < N.to_nat (p3d_header.lod_count header) ->
    Forall wf_mlod_lod done ->
    consumed r (p3d_header_bytes header
                ++ flat_map mlod_lod_bytes done) r1 ->
    mlod_lod_fails r1 msg r' ->
    mlod_p3d_fails r msg r'.

(** ** Object representations *)

Lemma byte_of_N_to_N (b : byte) (n : N) :
  byte_of_N (Byte.to_N b + 256 * n) = b.
Proof.
  unfold byte_of_N.
  assert (Hb := Byte.to_N_bounded b).
  replace ((Byte.to_N b + 256 * n) mod 256)%N with (Byte.to_N b).
  - now rewrite Byte.of_to_N.
  - apply (N.mod_unique _ 256 n); lia.
Qed.

Lemma le_encode_decode (bs : list byte) :
  le_encode (length bs) (le_decode bs) = bs.
Proof.
  induction bs as [|b bs IH]; cbn [le_encode le_decode length]; [reflexivity|].
  rewrite byte_of_N_to_N. f_equal.
  assert (Hb := Byte.to_N_bounded b).
  replace ((Byte.to_N b + 256 * le_decode bs) / 256)%N with (le_decode bs);
    [exact IH|].
  apply (N.div_unique _ 256 _ (Byte.to_N b)); lia.
Qed.

(** A decoded [std::uint32_t] is below [2 ^ 32]. *)
Lemma le_decode_bound (bs : list byte) :
  (le_decode bs < 256 ^ N.of_nat (length bs))%N.
Proof.
  induction bs as [|b bs IH]; cbn [le_decode length]; [reflexivity|].
  assert (Hb := Byte.to_N_bounded b).
  rewrite Nat2N.inj_succ, N.pow_succ_r'. lia.
Qed.

Lemma le_encode_length (n : nat) (v : N) : length (le_encode n v) = n.
Proof. revert v; induction n; intros; simpl; auto. Qed.

#[export] Instance pod_ok_byte : pod_ok byte.
Proof.
  split; [reflexivity|].
  intros [|b [|? ?]]; simpl; intros; try discriminate; reflexivity.
Qed.

#[export] Instance pod_ok_uint32 : pod_ok N.
Proof.
  split.
  - intros v. apply le_encode_length.
  - intros bs H. cbn [store load sizeof pod_uint32] in *.
    rewrite <- H. apply le_encode_decode.
Qed.

#[export] Instance pod_ok_signature : pod_ok mlod_signature.
Proof.
  split.
  - intros [[[a b] c] d]; reflexivity.
  - intros [|a [|b [|c [|d [|? ?]]]]]; simpl; intros; try discriminate; reflexivity.
Qed.

#[export] Instance pod_ok_vert_descriptor : pod_ok vert_descriptor.t.
Proof.
  split.
  - intros v; cbn [store sizeof pod_vert_descriptor].
    rewrite !length_app, !le_encode_length. reflexivity.
  - intros bs H; cbn [store load sizeof pod_vert_descriptor] in *.
    do 16 (destruct bs as [|? bs]; [discriminate|]).
    destruct bs; [|discriminate].
    cbn [firstn skipn vert_descriptor.point_index vert_descriptor.normal_index
         vert_descriptor.u vert_descriptor.v].
    rewrite !(le_encode_decode [_; _; _; _]). reflexivity.
Qed.

(** ** The reader *)

Section Read.
Context {T : Type} `{HT : pod T}.

Lemma read_fails (r : binary_reader.t) (out : T) :
  binary_reader.size r < binary_reader.current_offset r + sizeof T ->
  binary_reader.read r out = (false, r, out).
Proof.
  intros H. unfold binary_reader.read.
  destruct (Nat.ltb_spec (binary_reader.size r)
              (binary_reader.current_offset r + sizeof T)); [reflexivity|lia].
Qed.

Lemma read_succeeds (r : binary_reader.t) (out : T) :
  binary_reader.current_offset r + sizeof T <= binary_reader.size r ->
  binary_reader.read r out
  = (true,
     binary_reader.mk (binary_reader.buf r)
                      (binary_reader.current_offset r + sizeof T),
     load (firstn (sizeof T)
                  (skipn (binary_reader.current_offset r) (binary_reader.buf r)))).
Proof.
  intros H. unfold binary_reader.read.
  destruct (Nat.ltb_spec (binary_reader.size r)
              (binary_reader.current_offset r + sizeof T)); [lia|reflexivity].
Qed.

(** For a buffer that does not end within [sizeof(T)] bytes of the top of
    the address space, the test of [read] on the addresses is the test on
    the offsets that the model makes. *)
Lemma max_read_ptr_exceeds_offsets (begin : N) (r : binary_reader.t) :
  (begin + N.of_nat (binary_reader.size r) + N.of_nat (sizeof T) < 2 ^ 64)%N ->
  binary_reader.current_offset r <= binary_reader.size r ->
  binary_reader.max_read_ptr_exceeds begin
    (N.of_nat (binary_reader.size r))
    (N.of_nat (binary_reader.current_offset r))
    (N.of_nat (sizeof T))
  = (binary_reader.size r <? binary_reader.current_offset r + sizeof T).
Proof.
  intros Htop Hoff. unfold binary_reader.max_read_ptr_exceeds.
  rewrite !N.mod_small by lia.
  destruct (N.ltb_spec (begin + N.of_nat (binary_reader.size r))
              (begin + N.of_nat (binary_reader.current_offset r)
               + N.of_nat (sizeof T)));
    destruct (Nat.ltb_spec (binary_reader.size r)
                (binary_reader.current_offset r + sizeof T));
    (reflexivity || lia).
Qed.

Lemma read_cases (r : binary_reader.t) (out : T) :
  (binary_reader.size r < binary_reader.current_offset r + sizeof T
   /\ binary_reader.read r out = (false, r, out))
  \/ (binary_reader.current_offset r + sizeof T <= binary_reader.size r
      /\ binary_reader.read r out
         = (true,
            binary_reader.mk (binary_reader.buf r)
                             (binary_reader.current_offset r + sizeof T),
            load (firstn (sizeof T)
                         (skipn (binary_reader.current_offset r)
                                (binary_reader.buf r))))).
Proof.
  destruct (Nat.lt_ge_cases (binary_reader.size r)
              (binary_reader.current_offset r + sizeof T)).
  - left; auto using read_fails.
  - right; auto using read_succeeds.
Qed.

Context {HT_ok : pod_ok T}.

Lemma read_consumed (r r' : binary_reader.t) (out v : T) :
  binary_reader.read r out = (true, r', v) -> consumed r (store v) r'.
Proof.
  destruct (read_cases r out) as [[_ E]|[Hle E]]; rewrite E; intros [= <- <-].
  assert (Hlen : length (firstn (sizeof T)
                   (skipn (binary_reader.current_offset r) (binary_reader.buf r)))
                 = sizeof T).
  { rewrite length_firstn, length_skipn. unfold binary_reader.size in Hle. lia. }
  rewrite (store_load _ Hlen).
  unfold consumed; cbn [binary_reader.buf binary_reader.current_offset].
  rewrite Hlen. repeat split.
  rewrite Nat.add_comm, <- skipn_skipn. symmetry; apply firstn_skipn.
Qed.

Lemma read_extend (r r' : binary_reader.t) (out v : T) (extra : list byte) :
  binary_reader.read r out = (true, r', v) ->
  binary_reader.read (extend r extra) out = (true, extend r' extra, v).
Proof.
  destruct (read_cases r out) as [[_ E]|[Hle E]]; rewrite E; intros [= <- <-].
  unfold binary_reader.size in Hle.
  rewrite read_succeeds.
  - unfold extend; cbn [binary_reader.buf binary_reader.current_offset].
    do 2 f_equal.
    rewrite skipn_app, firstn_app, length_skipn.
    replace (sizeof T - _) with 0 by lia.
    rewrite firstn_O, app_nil_r. reflexivity.
  - unfold extend, binary_reader.size;
      cbn [binary_reader.buf binary_reader.current_offset].
    rewrite length_app. lia.
Qed.
End Read.

(** ** Reader relations *)

Lemma consumed_refl (r : binary_reader.t) : consumed r [] r.
Proof. unfold consumed; simpl. auto. Qed.

Lemma consumed_app (r r1 r2 : binary_reader.t) (w1 w2 : list byte) :
  consumed r w1 r1 -> consumed r1 w2 r2 -> consumed r (w1 ++ w2) r2.
Proof.
  intros (Hb1 & Ho1 & Hs1) (Hb2 & Ho2 & Hs2).
  unfold consumed. rewrite Hb1 in *. repeat split.
  - congruence.
  - rewrite length_app. lia.
  - rewrite Hs1, Hs2, app_assoc. reflexivity.
Qed.

Lemma consumed_remaining (r r' : binary_reader.t) (w : list byte) :
  consumed r w r' ->
  binary_reader.remaining r = length w + binary_reader.remaining r'.
Proof.
  intros (Hb & Ho & Hs). unfold binary_reader.remaining, binary_reader.size.
  apply (f_equal (@length byte)) in Hs.
  rewrite length_app, !length_skipn in Hs. rewrite Hb. lia.
Qed.

Lemma consumed_new (data w : list byte) (r' : binary_reader.t) :
  consumed (binary_reader.new data) w r' ->
  firstn (binary_reader.current_offset r') data = w
  /\ binary_reader.current_offset r' = length w.
Proof.
  intros (Hb & Ho & Hs); simpl in *. split; [|exact Ho].
  rewrite Ho, Hs, firstn_app, Nat.sub_diag, firstn_O, app_nil_r.
  apply firstn_all.
Qed.

(** ** Properties of parsers, and how the combinators carry them *)

Section Combinators.
Context {T F : Type}.

Lemma seq_ok_inv (p q : parser T) r out r' out' :
  (p ;; q) r out = (None, r', out') ->
  exists r1 out1, p r out = (None, r1, out1) /\ q r1 out1 = (None, r', out').
Proof.
  unfold seq. destruct (p r out) as [[[e|] r1] out1]; [discriminate|].
  intros H. eauto.
Qed.

Lemma seq_err_inv (p q : parser T) r out e r' out' :
  (p ;; q) r out = (Some e, r', out') ->
  p r out = (Some e, r', out')
  \/ exists r1 out1, p r out = (None, r1, out1) /\ q r1 out1 = (Some e, r', out').
Proof.
  unfold seq. destruct (p r out) as [[[e1|] r1] out1]; intros H.
  - left; exact H.
  - right; eauto.
Qed.

Lemma seq_ok (p q : parser T) r out r1 out1 res :
  p r out = (None, r1, out1) -> q r1 out1 = res -> (p ;; q) r out = res.
Proof. unfold seq. intros -> ->. reflexivity. Qed.

Lemma stmt_inv (f : T -> T) r out e r' out' :
  stmt f r out = (e, r', out') -> e = None /\ r' = r /\ out' = f out.
Proof. unfold stmt. intros [= <- <- <-]. auto. Qed.

Lemma parse_field_inv (get : T -> F) (set : F -> T -> T) (p : parser F)
      r out e r' out' :
  parse_field get set p r out = (e, r', out') ->
  exists v, p r (get out) = (e, r', v) /\ out' = set v out.
Proof.
  unfold parse_field. destruct (p r (get out)) as [[e1 r1] v].
  intros [= <- <- <-]. eauto.
Qed.

Context `{HF : pod F} {HF_ok : pod_ok F}.

Lemma read_field_ok_inv (get : T -> F) (set : F -> T -> T) msg r out r' out' :
  read_field get set msg r out = (None, r', out') ->
  exists v, binary_reader.read r (get out) = (true, r', v)
            /\ out' = set v out /\ consumed r (store v) r'.
Proof.
  unfold read_field.
  destruct (binary_reader.read r (get out)) as [[[|] r1] v] eqn:E;
    [|discriminate].
  intros [= <- <-]. eauto using read_consumed.
Qed.

Lemma read_field_err_inv (get : T -> F) (set : F -> T -> T) msg r out e r' out' :
  read_field get set msg r out = (Some e, r', out') ->
  e = mlod_error.mk msg /\ r' = r /\ out' = out
  /\ binary_reader.size r < binary_reader.current_offset r + sizeof F.
Proof.
  unfold read_field.
  destruct (read_cases r (get out)) as [[Hlt E]|[_ E]]; rewrite E;
    [|discriminate].
  intros [= <- <- <-]. auto.
Qed.

Lemma stable_read_field (get : T -> F) (set : F -> T -> T) msg :
  stable (read_field get set msg).
Proof.
  intros r out r' out' extra H.
  apply read_field_ok_inv in H. destruct H as (v & E & -> & _).
  unfold read_field. now rewrite (read_extend _ _ _ E).
Qed.

Lemma sound_read_field (get : T -> F) (set : F -> T -> T) msg :
  In (msg, sizeof F) read_failures ->
  sound (read_field get set msg).
Proof.
  intros Hin r out [e|] r' out' H.
  - apply read_field_err_inv in H. destruct H as (-> & -> & -> & Hlt).
    split; [reflexivity|]. intros err [= <-]. exists (sizeof F). auto.
  - apply read_field_ok_inv in H. destruct H as (v & _ & _ & Hc).
    split; [apply Hc|discriminate].
Qed.

Lemma sound_stmt (f : T -> T) : sound (stmt f).
Proof.
  intros r out e r' out' H. apply stmt_inv in H. destruct H as (-> & -> & _).
  split; [reflexivity|discriminate].
Qed.

Lemma sound_parse_field (get : T -> F) (set : F -> T -> T) (p : parser F) :
  sound p -> sound (parse_field get set p).
Proof.
  intros Hp r out e r' out' H.
  apply parse_field_inv in H. destruct H as (v & H & _). eapply Hp; eauto.
Qed.

Lemma sound_seq (p q : parser T) : sound p -> sound q -> sound (p ;; q).
Proof.
  intros Hp Hq r out [e|] r' out' H.
  - apply seq_err_inv in H. destruct H as [H|(r1 & out1 & H1 & H2)].
    + eapply Hp; eauto.
    + destruct (Hp _ _ _ _ _ H1) as [E1 _]. destruct (Hq _ _ _ _ _ H2) as [E2 O].
      split; [congruence|exact O].
  - apply seq_ok_inv in H. destruct H as (r1 & out1 & H1 & H2).
    destruct (Hp _ _ _ _ _ H1) as [E1 _]. destruct (Hq _ _ _ _ _ H2) as [E2 _].
    split; [congruence|discriminate].
Qed.

Lemma stable_stmt (f : T -> T) : stable (stmt f).
Proof.
  intros r out r' out' extra H.
  apply stmt_inv in H. destruct H as (_ & -> & ->). reflexivity.
Qed.

Lemma stable_parse_field (get : T -> F) (set : F -> T -> T) (p : parser F) :
  stable p -> stable (parse_field get set p).
Proof.
  intros Hp r out r' out' extra H.
  apply parse_field_inv in H. destruct H as (v & H & ->).
  unfold parse_field. now rewrite (Hp _ _ _ _ extra H).
Qed.

Lemma stable_seq (p q : parser T) : stable p -> stable q -> stable (p ;; q).
Proof.
  intros Hp Hq r out r' out' extra H.
  apply seq_ok_inv in H. destruct H as (r1 & out1 & H1 & H2).
  eapply seq_ok; eauto.
Qed.
End Combinators.

Lemma sound_read_value {F : Type} `{HF : pod F} {HF_ok : pod_ok F} msg :
  In (msg, sizeof F) read_failures -> sound (read_value (F:=F) msg).
Proof. apply sound_read_field. Qed.

Lemma stable_read_value {F : Type} `{HF : pod F} {HF_ok : pod_ok F} msg :
  stable (read_value (F:=F) msg).
Proof. apply stable_read_field. Qed.

Lemma codec_ok_read_value {F : Type} `{HF : pod F} {HF_ok : pod_ok F} msg :
  codec_ok (read_value (F:=F) msg) store.
Proof.
  intros r out r' out' H. apply read_field_ok_inv in H.
  destruct H as (v & _ & -> & Hc). exact Hc.
Qed.

Section ForEach.
Context {A : Type} (p : parser A).

Lemma for_each_length r v e r' v' :
  for_each p r v = (e, r', v') -> length v' = length v.
Proof.
  revert r e r' v'; induction v as [|x rest IH]; intros r e r' v'; simpl.
  - intros [= <- <- <-]. reflexivity.
  - destruct (p r x) as [[[e1|] r1] x1].
    + intros [= <- <- <-]. reflexivity.
    + destruct (for_each p r1 rest) as [[e2 r2] rest2] eqn:E.
      intros [= <- <- <-]. simpl. f_equal. eauto.
Qed.

Lemma for_each_ok_inv r x rest r' v' :
  for_each p r (x :: rest) = (None, r', v') ->
  exists r1 x1 rest1,
    p r x = (None, r1, x1) /\ for_each p r1 rest = (None, r', rest1)
    /\ v' = x1 :: rest1.
Proof.
  simpl. destruct (p r x) as [[[e1|] r1] x1]; [discriminate|].
  destruct (for_each p r1 rest) as [[e2 r2] rest2] eqn:E.
  intros [= -> <- <-]. do 3 eexists. repeat split. exact E.
Qed.

Lemma codec_ok_for_each (b : A -> list byte) :
  codec_ok p b -> codec_ok (for_each p) (flat_map b).
Proof.
  intros Hp r v. revert r. induction v as [|x rest IH]; intros r r' v' H.
  - simpl in H. injection H as <- <-. apply consumed_refl.
  - apply for_each_ok_inv in H. destruct H as (r1 & x1 & rest1 & H1 & H2 & ->).
    simpl. eapply consumed_app; eauto.
Qed.

Lemma stable_for_each : stable p -> stable (for_each p).
Proof.
  intros Hp r v. revert r. induction v as [|x rest IH]; intros r r' v' extra H.
  - simpl in H. injection H as <- <-. reflexivity.
  - apply for_each_ok_inv in H. destruct H as (r1 & x1 & rest1 & H1 & H2 & ->).
    simpl. rewrite (Hp _ _ _ _ extra H1), (IH _ _ _ extra H2). reflexivity.
Qed.

Lemma sound_for_each : sound p -> sound (for_each p).
Proof.
  intros Hp r v. revert r. induction v as [|x rest IH]; intros r e r' v'; simpl.
  - intros [= <- <- <-]. split; [reflexivity|discriminate].
  - destruct (p r x) as [[[e1|] r1] x1] eqn:E1.
    + intros [= <- <- <-]. eapply Hp; eauto.
    + destruct (for_each p r1 rest) as [[e2 r2] rest2] eqn:E2.
      intros [= <- <- <-].
      destruct (Hp _ _ _ _ _ E1) as [B1 _]. destruct (IH _ _ _ _ E2) as [B2 O].
      split; [congruence|exact O].
Qed.
End ForEach.

(** ** The writer *)

Lemma writer_ok_new : writer_ok binary_writer.new.
Proof. reflexivity. Qed.

Lemma writer_ok_appended (w : binary_writer.t) (bs : list byte) :
  writer_ok w -> writer_ok (appended w bs).
Proof. unfold writer_ok, appended; simpl. rewrite length_app. lia. Qed.

Lemma appended_appended (w : binary_writer.t) (a b : list byte) :
  appended (appended w a) b = appended w (a ++ b).
Proof.
  unfold appended; simpl. rewrite length_app, app_assoc, Nat.add_assoc. reflexivity.
Qed.

Lemma appended_nil (w : binary_writer.t) : appended w [] = w.
Proof.
  destruct w; unfold appended; simpl. now rewrite app_nil_r, Nat.add_0_r.
Qed.

Lemma resize_grow {A : Type} (k : nat) (d : A) (v : list A) :
  resize (length v + k) d v = v ++ repeat d k.
Proof.
  unfold resize. rewrite firstn_all2 by lia. f_equal. f_equal. lia.
Qed.

Lemma write_appends {T : Type} `{HT : pod T} {HT_ok : pod_ok T}
      (w : binary_writer.t) (d : T) :
  writer_ok w -> binary_writer.write w d = appended w (store d).
Proof.
  unfold writer_ok, binary_writer.write, appended. intros ->.
  rewrite resize_grow, store_length. f_equal.
  rewrite firstn_app, Nat.sub_diag, firstn_all, firstn_O, app_nil_r.
  rewrite skipn_all2, app_nil_r; [reflexivity|].
  rewrite length_app, repeat_length. lia.
Qed.

Lemma fold_left_appends {A : Type} (f : binary_writer.t -> A -> binary_writer.t)
      (b : A -> list byte) :
  (forall w x, writer_ok w -> f w x = appended w (b x)) ->
  forall l w, writer_ok w -> fold_left f l w = appended w (flat_map b l).
Proof.
  intros Hf l. induction l as [|x l IH]; intros w Hw; simpl.
  - now rewrite appended_nil.
  - rewrite Hf by assumption. rewrite IH by now apply writer_ok_appended.
    apply appended_appended.
Qed.

Create HintDb writer.
#[export] Hint Resolve writer_ok_new writer_ok_appended : writer.

Ltac writes :=
  repeat first
    [ match goal with
      | |- context [@binary_writer.write _ _ ?w ?d] =>
        rewrite (@write_appends _ _ _ w d) by auto with writer
      end
    | rewrite appended_appended ].

Lemma vector3_write_appends (w : binary_writer.t) (i : vector3.t) :
  writer_ok w -> vector3.write w i = appended w (vector3_bytes i).
Proof.
  intros Hw. unfold vector3.write, vector3_bytes.
  writes. reflexivity.
Qed.

Lemma flat_map_store_byte (l : list byte) : flat_map (store (T:=byte)) l = l.
Proof. induction l as [|b l IH]; simpl; [reflexivity|f_equal; exact IH]. Qed.

Lemma arma_string_write_appends (w : binary_writer.t) (i : arma_string.t) :
  writer_ok w -> arma_string.write w i = appended w (arma_string_bytes i).
Proof.
  intros Hw. unfold arma_string.write, arma_string_bytes.
  rewrite (fold_left_appends _ (store (T:=char))) by
    (try assumption; intros; now apply write_appends).
  writes. rewrite flat_map_store_byte. reflexivity.
Qed.

Lemma mlod_face_write_appends (w : binary_writer.t) (i : mlod_face.t) :
  writer_ok w -> mlod_face.write w i = appended w (mlod_face_bytes i).
Proof.
  intros Hw. unfold mlod_face.write, mlod_face_bytes. writes.
  rewrite (fold_left_appends _ (store (T:=vert_descriptor.t))) by
    (auto with writer; intros; now apply write_appends).
  writes.
  rewrite (@arma_string_write_appends _ (mlod_face.texture_name i))
    by auto with writer.
  rewrite arma_string_write_appends by auto with writer.
  writes. now rewrite <- !app_assoc.
Qed.

Lemma mlod_point_write_appends (w : binary_writer.t) (i : mlod_point.t) :
  writer_ok w -> mlod_point.write w i = appended w (mlod_point_bytes i).
Proof.
  intros Hw. unfold mlod_point.write, mlod_point_bytes.
  rewrite vector3_write_appends by assumption. writes. reflexivity.
Qed.

Lemma mlod_tag_write_appends (w : binary_writer.t) (i : mlod_tag.t) :
  writer_ok w -> mlod_tag.write w i = appended w (mlod_tag_bytes i).
Proof.
  intros Hw. unfold mlod_tag.write, mlod_tag_bytes. writes.
  rewrite arma_string_write_appends by auto with writer. writes.
  rewrite (fold_left_appends _ (store (T:=uint8_t))) by
    (auto with writer; intros; now apply write_appends).
  writes. now rewrite <- !app_assoc.
Qed.

Lemma mlod_lod_write_appends (w : binary_writer.t) (i : mlod_lod.t) :
  writer_ok w -> mlod_lod.write w i = appended w (mlod_lod_bytes i).
Proof.
  intros Hw. unfold mlod_lod.write, mlod_lod_bytes. writes.
  rewrite (fold_left_appends _ _ mlod_point_write_appends) by auto with writer.
  rewrite (fold_left_appends _ _ vector3_write_appends) by auto with writer.
  rewrite (fold_left_appends _ _ mlod_face_write_appends) by auto with writer.
  writes.
  rewrite (fold_left_appends _ _ mlod_tag_write_appends) by auto with writer.
  writes. now rewrite <- !app_assoc.
Qed.

Lemma p3d_header_write_appends (w : binary_writer.t) (i : p3d_header.t) :
  writer_ok w -> p3d_header.write w i = appended w (p3d_header_bytes i).
Proof.
  intros Hw. unfold p3d_header.write, p3d_header_bytes. writes. reflexivity.
Qed.

Lemma mlod_p3d_write_appends (w : binary_writer.t) (i : mlod_p3d.t) :
  writer_ok w -> mlod_p3d.write w i = appended w (mlod_p3d_bytes i).
Proof.
  intros Hw. unfold mlod_p3d.write, mlod_p3d_bytes.
  rewrite p3d_header_write_appends by assumption.
  rewrite (fold_left_appends _ _ mlod_lod_write_appends) by auto with writer.
  writes. reflexivity.
Qed.

Lemma encode_bytes (doc : mlod_p3d.t) : encode doc = mlod_p3d_bytes doc.
Proof.
  unfold encode. rewrite mlod_p3d_write_appends by apply writer_ok_new.
  reflexivity.
Qed.

(** ** [arma_string::parse] *)

Unset Implicit Arguments.

Lemma nul_split (l : list byte) :
  no_nul l \/ exists s tail, l = s ++ x00 :: tail /\ no_nul s.
Proof.
  induction l as [|c l IH].
  - left; constructor.
  - destruct (Byte.byte_eq_dec c x00) as [->|Hc].
    + right. exists [], l. split; [reflexivity|constructor].
    + destruct IH as [IH|(s & tail & -> & Hs)].
      * left; constructor; assumption.
      * right. exists (c :: s), tail. split; [reflexivity|constructor; assumption].
Qed.

Lemma skipn_cons_next {A : Type} (n : nat) (l : list A) (a : A) (rest : list A) :
  skipn n l = a :: rest -> skipn (n + 1) l = rest.
Proof. intros H. now rewrite Nat.add_comm, <- skipn_skipn, H. Qed.

Lemma read_byte_cons (r : binary_reader.t) (ch b : byte) (rest : list byte) :
  skipn (binary_reader.current_offset r) (binary_reader.buf r) = b :: rest ->
  binary_reader.read r ch
  = (true,
     binary_reader.mk (binary_reader.buf r) (binary_reader.current_offset r + 1),
     b).
Proof.
  intros H. rewrite read_succeeds.
  - now rewrite H.
  - apply (f_equal (@length byte)) in H. rewrite length_skipn in H.
    unfold binary_reader.size. simpl in *. lia.
Qed.

Lemma read_byte_nil (r : binary_reader.t) (ch : byte) :
  skipn (binary_reader.current_offset r) (binary_reader.buf r) = [] ->
  binary_reader.read r ch = (false, r, ch).
Proof.
  intros H. apply read_fails.
  apply (f_equal (@length byte)) in H. rewrite length_skipn in H.
  unfold binary_reader.size. simpl in *. lia.
Qed.

Lemma arma_string_loop_nul (s tail : list byte) :
  no_nul s ->
  forall fuel r acc,
    skipn (binary_reader.current_offset r) (binary_reader.buf r)
    = s ++ x00 :: tail ->
    length s < fuel ->
    arma_string.parse_loop fuel r acc
    = Some (None,
            binary_reader.mk (binary_reader.buf r)
                             (binary_reader.current_offset r + length s + 1),
            arma_string.mk (arma_string.string acc ++ s)).
Proof.
  induction 1 as [|c s Hc Hs IH]; intros [|fuel] r [acc] Hrest Hfuel;
    try (simpl in Hfuel; lia); cbn [arma_string.parse_loop].
  - rewrite (read_byte_cons _ _ _ _ Hrest). simpl.
    now rewrite Nat.add_0_r, app_nil_r.
  - rewrite (read_byte_cons _ _ _ _ Hrest).
    destruct (Byte.eqb c x00) eqn:E; [apply Byte.byte_dec_bl in E; contradiction|].
    cbn [negb]. rewrite IH.
    + cbn [binary_reader.buf binary_reader.current_offset arma_string.string length].
      rewrite <- app_assoc. do 3 f_equal. f_equal. lia.
    + cbn [binary_reader.buf binary_reader.current_offset].
      exact (skipn_cons_next _ _ _ _ Hrest).
    + simpl in Hfuel. lia.
Qed.

Lemma arma_string_loop_no_nul (rest : list byte) :
  no_nul rest ->
  forall fuel r acc,
    skipn (binary_reader.current_offset r) (binary_reader.buf r) = rest ->
    length rest < fuel ->
    arma_string.parse_loop fuel r acc
    = Some (Some (mlod_error.mk "failed to read arma_string[n]"),
            binary_reader.mk (binary_reader.buf r)
                             (binary_reader.current_offset r + length rest),
            arma_string.mk (arma_string.string acc ++ rest)).
Proof.
  induction 1 as [|c s Hc Hs IH]; intros [|fuel] r [acc] Hrest Hfuel;
    try (simpl in Hfuel; lia); cbn [arma_string.parse_loop].
  - rewrite (read_byte_nil _ _ Hrest). destruct r. simpl.
    now rewrite Nat.add_0_r, app_nil_r.
  - rewrite (read_byte_cons _ _ _ _ Hrest).
    destruct (Byte.eqb c x00) eqn:E; [apply Byte.byte_dec_bl in E; contradiction|].
    cbn [negb]. rewrite IH.
    + cbn [binary_reader.buf binary_reader.current_offset arma_string.string length].
      rewrite <- app_assoc. do 3 f_equal. f_equal. lia.
    + cbn [binary_reader.buf binary_reader.current_offset].
      exact (skipn_cons_next _ _ _ _ Hrest).
    + simpl in Hfuel. lia.
Qed.

(** The fuel [arma_string::parse] is given is always enough. *)
Lemma arma_string_loop_fuel (r : binary_reader.t) (acc : arma_string.t) :
  arma_string.parse_loop (S (binary_reader.remaining r)) r acc <> None.
Proof.
  assert (Hlen : length (skipn (binary_reader.current_offset r) (binary_reader.buf r))
                 = binary_reader.remaining r).
  { rewrite length_skipn. reflexivity. }
  destruct (nul_split (skipn (binary_reader.current_offset r) (binary_reader.buf r)))
    as [Hn|(s & tail & E & Hs)].
  - rewrite (arma_string_loop_no_nul _ Hn _ _ _ eq_refl); [discriminate|lia].
  - rewrite (arma_string_loop_nul _ _ Hs _ _ _ E); [discriminate|].
    rewrite E, length_app in Hlen. simpl in Hlen. lia.
Qed.

(** [arma_string::parse] on a buffer with a NUL at or after the cursor. *)
Lemma arma_string_parse_nul (r : binary_reader.t) (out : arma_string.t)
      (s tail : list byte) :
  no_nul s ->
  skipn (binary_reader.current_offset r) (binary_reader.buf r) = s ++ x00 :: tail ->
  arma_string.parse r out
  = (None,
     binary_reader.mk (binary_reader.buf r)
                      (binary_reader.current_offset r + length s + 1),
     arma_string.mk s).
Proof.
  intros Hs E. unfold arma_string.parse.
  rewrite (arma_string_loop_nul _ _ Hs _ _ _ E); [reflexivity|].
  apply (f_equal (@length byte)) in E.
  rewrite length_skipn, length_app in E. simpl in E.
  unfold binary_reader.remaining, binary_reader.size. lia.
Qed.

(** [arma_string::parse] on a buffer with no NUL at or after the cursor. *)
Lemma arma_string_parse_no_nul (r : binary_reader.t) (out : arma_string.t) :
  no_nul (skipn (binary_reader.current_offset r) (binary_reader.buf r)) ->
  arma_string.parse r out
  = (Some (mlod_error.mk "failed to read arma_string[n]"),
     binary_reader.mk (binary_reader.buf r)
       (binary_reader.current_offset r
        + length (skipn (binary_reader.current_offset r) (binary_reader.buf r))),
     arma_string.mk (skipn (binary_reader.current_offset r) (binary_reader.buf r))).
Proof.
  intros Hn. unfold arma_string.parse.
  rewrite (arma_string_loop_no_nul _ Hn _ _ _ eq_refl); [reflexivity|].
  rewrite length_skipn. unfold binary_reader.remaining, binary_reader.size. lia.
Qed.

Lemma arma_string_parse_ok_inv r out r' out' :
  arma_string.parse r out = (None, r', out') ->
  exists tail,
    skipn (binary_reader.current_offset r) (binary_reader.buf r)
    = arma_string.string out' ++ x00 :: tail
    /\ no_nul (arma_string.string out')
    /\ r' = binary_reader.mk (binary_reader.buf r)
              (binary_reader.current_offset r
               + length (arma_string.string out') + 1).
Proof.
  destruct (nul_split (skipn (binary_reader.current_offset r) (binary_reader.buf r)))
    as [Hn|(s & tail & E & Hs)].
  - rewrite (arma_string_parse_no_nul _ out Hn). discriminate.
  - rewrite (arma_string_parse_nul _ out _ _ Hs E). intros [= <- <-].
    exists tail. auto.
Qed.

Lemma codec_ok_arma_string : codec_ok arma_string.parse arma_string_bytes.
Proof.
  intros r out r' out' H.
  apply arma_string_parse_ok_inv in H. destruct H as (tail & E & _ & ->).
  unfold consumed, arma_string_bytes;
    cbn [binary_reader.buf binary_reader.current_offset].
  rewrite length_app. cbn [length]. repeat split; [lia|].
  rewrite E, <- app_assoc. cbn [app]. do 2 f_equal.
  rewrite <- Nat.add_assoc, Nat.add_comm, <- skipn_skipn, E.
  rewrite skipn_app, skipn_all2 by lia.
  replace (length (arma_string.string out') + 1 - _) with 1 by lia. reflexivity.
Qed.

Lemma stable_arma_string : stable arma_string.parse.
Proof.
  intros r out r' out' extra H.
  apply arma_string_parse_ok_inv in H. destruct H as (tail & E & Hs & ->).
  rewrite (arma_string_parse_nul _ out (arma_string.string out') (tail ++ extra) Hs).
  - destruct out'; reflexivity.
  - unfold extend; cbn [binary_reader.buf binary_reader.current_offset].
    rewrite skipn_app, E, <- app_assoc. cbn [app]. do 2 f_equal.
    apply (f_equal (@length byte)) in E. rewrite length_skipn, length_app in E.
    simpl in E. replace (_ - _) with 0 by lia. reflexivity.
Qed.

Lemma sound_arma_string : sound arma_string.parse.
Proof.
  intros r out e r' out'.
  destruct (nul_split (skipn (binary_reader.current_offset r) (binary_reader.buf r)))
    as [Hn|(s & tail & E & Hs)].
  - rewrite (arma_string_parse_no_nul _ out Hn). intros [= <- <- <-].
    split; [reflexivity|]. intros err [= <-]. exists 1. split.
    + simpl. auto 10.
    + rewrite length_skipn. unfold binary_reader.size; simpl. lia.
  - rewrite (arma_string_parse_nul _ out _ _ Hs E). intros [= <- <- <-].
    split; [reflexivity|discriminate].
Qed.

(** ** The struct codecs *)

Create HintDb parsers.

Arguments store : simpl never.
Arguments flat_map : simpl never.

Ltac in_failures :=
  cbn [sizeof pod_byte pod_uint32 pod_signature pod_vert_descriptor];
  unfold read_failures;
  repeat first [ left; reflexivity | right ].

(** Soundness and stability follow the structure of the parser. *)
Ltac structural :=
  repeat first
    [ apply sound_seq | apply sound_stmt | apply sound_parse_field
    | apply sound_for_each
    | apply sound_read_value; in_failures
    | apply sound_read_field; in_failures
    | apply stable_seq | apply stable_stmt | apply stable_parse_field
    | apply stable_for_each
    | apply stable_read_value
    | apply stable_read_field
    | solve [auto with parsers] ].

(** Inversion of a successful run of a parser built from the combinators. *)
Ltac parse_inv H :=
  lazymatch type of H with
  | seq _ _ _ _ = (None, _, _) =>
    let r1 := fresh "r" in
    let o1 := fresh "o" in
    let H1 := fresh "H" in
    let H2 := fresh "H" in
    apply seq_ok_inv in H; destruct H as (r1 & o1 & H1 & H2);
    parse_inv H1; parse_inv H2
  | read_field _ _ _ _ _ = (None, _, _) =>
    let v := fresh "v" in
    let C := fresh "C" in
    apply read_field_ok_inv in H; destruct H as (v & _ & -> & C)
  | parse_field _ _ _ _ _ = (None, _, _) =>
    let v := fresh "v" in
    apply parse_field_inv in H; destruct H as (v & H & ->)
  | stmt _ _ _ = (None, _, _) =>
    apply stmt_inv in H; destruct H as (_ & -> & ->)
  | _ => idtac
  end.

(** Chaining the [consumed] facts an inversion leaves. *)
Ltac chain :=
  repeat first
    [ eassumption
    | eapply consumed_app; [eassumption|]
    | apply consumed_refl ].

Lemma for_each_consumed {A : Type} (p : parser A) (b : A -> list byte) :
  codec_ok p b ->
  forall r v r' v',
    for_each p r v = (None, r', v') -> consumed r (flat_map b v') r'.
Proof. intros Hp. exact (codec_ok_for_each Hp). Qed.

(** Turning the successful sub-parses an inversion leaves into [consumed]
    facts, with the lemmas of the database [codecs]. *)
Create HintDb codecs.

Ltac to_consumed :=
  repeat match goal with
  | H : for_each _ _ _ = (None, _, _) |- _ =>
    eapply for_each_consumed in H;
    [|solve [eauto with codecs typeclass_instances]]
  | H : _ _ _ = (None, _, _) |- _ =>
    first [ apply codec_ok_arma_string in H
          | eapply (fun p b (c : codec_ok p b) => c) in H;
            [|solve [eauto with codecs typeclass_instances]] ]
  end.

Lemma codec_ok_vector3 : codec_ok vector3.parse vector3_bytes.
Proof.
  intros r out r' out' H. unfold vector3.parse in H. parse_inv H.
  unfold vector3_bytes; cbn. chain.
Qed.

Lemma sound_vector3 : sound vector3.parse.
Proof. unfold vector3.parse. structural. Qed.

Lemma stable_vector3 : stable vector3.parse.
Proof. unfold vector3.parse. structural. Qed.

#[export] Hint Resolve sound_vector3 stable_vector3
  sound_arma_string stable_arma_string : parsers.
#[export] Hint Resolve codec_ok_vector3 codec_ok_arma_string
  codec_ok_read_value : codecs.

Lemma codec_ok_mlod_point : codec_ok mlod_point.parse mlod_point_bytes.
Proof.
  intros r out r' out' H. unfold mlod_point.parse in H. parse_inv H.
  to_consumed.
  unfold mlod_point_bytes; cbn. chain.
Qed.

Lemma sound_mlod_point : sound mlod_point.parse.
Proof. unfold mlod_point.parse. structural. Qed.

Lemma stable_mlod_point : stable mlod_point.parse.
Proof. unfold mlod_point.parse. structural. Qed.

Lemma codec_ok_mlod_face : codec_ok mlod_face.parse mlod_face_bytes.
Proof.
  intros r out r' out' H. unfold mlod_face.parse in H. parse_inv H.
  to_consumed.
  unfold mlod_face_bytes; cbn. chain.
Qed.

Lemma sound_mlod_face : sound mlod_face.parse.
Proof. unfold mlod_face.parse. structural. Qed.

Lemma stable_mlod_face : stable mlod_face.parse.
Proof. unfold mlod_face.parse. structural. Qed.

Lemma codec_ok_mlod_tag : codec_ok mlod_tag.parse mlod_tag_bytes.
Proof.
  intros r out r' out' H. unfold mlod_tag.parse in H. parse_inv H.
  to_consumed.
  unfold mlod_tag_bytes; cbn. chain.
Qed.

Lemma sound_mlod_tag : sound mlod_tag.parse.
Proof. unfold mlod_tag.parse. structural. Qed.

Lemma stable_mlod_tag : stable mlod_tag.parse.
Proof. unfold mlod_tag.parse. structural. Qed.

Lemma codec_ok_p3d_header : codec_ok p3d_header.parse p3d_header_bytes.
Proof.
  intros r out r' out' H. unfold p3d_header.parse in H. parse_inv H.
  unfold p3d_header_bytes; cbn. chain.
Qed.

Lemma sound_p3d_header : sound p3d_header.parse.
Proof. unfold p3d_header.parse. structural. Qed.

Lemma stable_p3d_header : stable p3d_header.parse.
Proof. unfold p3d_header.parse. structural. Qed.

#[export] Hint Resolve sound_mlod_point stable_mlod_point
  sound_mlod_face stable_mlod_face sound_mlod_tag stable_mlod_tag
  sound_p3d_header stable_p3d_header : parsers.
#[export] Hint Resolve codec_ok_mlod_point codec_ok_mlod_face
  codec_ok_mlod_tag codec_ok_p3d_header : codecs.

(** ** The tag loop of [mlod_lod::parse] *)

Lemma mlod_tag_bytes_length (tag : mlod_tag.t) : 1 <= length (mlod_tag_bytes tag).
Proof.
  unfold mlod_tag_bytes. rewrite length_app, (store_length (T:=byte)).
  cbn [sizeof pod_byte]. lia.
Qed.

Lemma tag_loop_ok_inv (fuel : nat) :
  forall r out r' out',
    mlod_lod.tag_loop fuel r out = Some (None, r', out') ->
    exists new,
      out' = keep_tags new out
      /\ consumed r (flat_map mlod_tag_bytes new) r'
      /\ eof_terminated new.
Proof.
  induction fuel as [|fuel IH]; intros r out r' out'; [discriminate|].
  cbn [mlod_lod.tag_loop].
  destruct (mlod_tag.parse r mlod_tag.default) as [[[e|] r1] tag] eqn:E;
    [discriminate|].
  apply codec_ok_mlod_tag in E.
  destruct (mlod_tag.named "#EndOfFile#" tag) eqn:N.
  - intros [= <- <-]. exists [tag]. split; [reflexivity|split].
    + change (flat_map mlod_tag_bytes [tag]) with (mlod_tag_bytes tag ++ []).
      now rewrite app_nil_r.
    + exists [], tag. auto.
  - intros H. apply IH in H. destruct H as (new & -> & C & pre & t & -> & Hpre & Ht).
    exists (tag :: pre ++ [t]). split; [reflexivity|split].
    + change (flat_map mlod_tag_bytes (tag :: pre ++ [t]))
        with (mlod_tag_bytes tag ++ flat_map mlod_tag_bytes (pre ++ [t])).
      eapply consumed_app; eassumption.
    + exists (tag :: pre), t. auto.
Qed.

Lemma tag_loop_sound (fuel : nat) :
  forall r out e r' out',
    mlod_lod.tag_loop fuel r out = Some (e, r', out') ->
    binary_reader.buf r' = binary_reader.buf r
    /\ forall err, e = Some err -> out_of_data err r'.
Proof.
  induction fuel as [|fuel IH]; intros r out e r' out'; [discriminate|].
  cbn [mlod_lod.tag_loop].
  destruct (mlod_tag.parse r mlod_tag.default) as [[[e1|] r1] tag] eqn:E.
  - intros [= <- <- <-]. eapply sound_mlod_tag; eauto.
  - apply sound_mlod_tag in E. destruct E as [B _].
    destruct (mlod_tag.named "#EndOfFile#" tag).
    + intros [= <- <- <-]. split; [exact B|discriminate].
    + intros H. apply IH in H. destruct H as [B' O]. split; [congruence|exact O].
Qed.

(** The fuel [mlod_lod::parse] gives the loop is always enough. *)
Lemma tag_loop_fuel (fuel : nat) :
  forall r out,
    binary_reader.remaining r < fuel -> mlod_lod.tag_loop fuel r out <> None.
Proof.
  induction fuel as [|fuel IH]; intros r out Hfuel; [lia|].
  cbn [mlod_lod.tag_loop].
  destruct (mlod_tag.parse r mlod_tag.default) as [[[e1|] r1] tag] eqn:E;
    [discriminate|].
  destruct (mlod_tag.named "#EndOfFile#" tag); [discriminate|].
  apply IH. apply codec_ok_mlod_tag, consumed_remaining in E.
  pose proof (mlod_tag_bytes_length tag). lia.
Qed.

Lemma tag_loop_stable (fuel : nat) :
  forall r out r' out' extra fuel',
    mlod_lod.tag_loop fuel r out = Some (None, r', out') ->
    fuel <= fuel' ->
    mlod_lod.tag_loop fuel' (extend r extra) out
    = Some (None, extend r' extra, out').
Proof.
  induction fuel as [|fuel IH]; intros r out r' out' extra fuel';
    [discriminate|].
  intros H Hle. destruct fuel' as [|fuel']; [lia|].
  cbn [mlod_lod.tag_loop] in *.
  destruct (mlod_tag.parse r mlod_tag.default) as [[[e1|] r1] tag] eqn:E;
    [discriminate|].
  rewrite (stable_mlod_tag _ _ _ _ extra E).
  destruct (mlod_tag.named "#EndOfFile#" tag).
  - injection H as <- <-. reflexivity.
  - apply IH; [exact H|lia].
Qed.

Lemma parse_tags_ok_inv r out r' out' :
  mlod_lod.parse_tags r out = (None, r', out') ->
  exists new,
    out' = keep_tags new out
    /\ consumed r (flat_map mlod_tag_bytes new) r'
    /\ eof_terminated new.
Proof.
  unfold mlod_lod.parse_tags.
  destruct (mlod_lod.tag_loop _ r out) as [res|] eqn:E.
  - intros ->. eapply tag_loop_ok_inv; eauto.
  - exfalso. revert E. apply tag_loop_fuel. lia.
Qed.

Lemma sound_parse_tags : sound mlod_lod.parse_tags.
Proof.
  intros r out e r' out'. unfold mlod_lod.parse_tags.
  destruct (mlod_lod.tag_loop _ r out) as [res|] eqn:E.
  - intros ->. eapply tag_loop_sound; eauto.
  - exfalso. revert E. apply tag_loop_fuel. lia.
Qed.

Lemma remaining_extend (r : binary_reader.t) (extra : list byte) :
  binary_reader.remaining r <= binary_reader.remaining (extend r extra).
Proof.
  unfold binary_reader.remaining, binary_reader.size, extend; simpl.
  rewrite length_app. lia.
Qed.

Lemma stable_parse_tags : stable mlod_lod.parse_tags.
Proof.
  intros r out r' out' extra. unfold mlod_lod.parse_tags.
  destruct (mlod_lod.tag_loop _ r out) as [res|] eqn:E.
  - intros ->.
    rewrite (tag_loop_stable _ _ _ _ _ extra
               (S (binary_reader.remaining (extend r extra))) E); [reflexivity|].
    pose proof (remaining_extend r extra). lia.
  - exfalso. revert E. apply tag_loop_fuel. lia.
Qed.

#[export] Hint Resolve sound_parse_tags stable_parse_tags : parsers.

(** [keep_tags] field by field. *)

Lemma keep_tag_frame (tag : mlod_tag.t) (o : mlod_lod.t) :
  let o' := mlod_lod.keep_tag tag o in
  mlod_lod.signature o' = mlod_lod.signature o
  /\ mlod_lod.minor_version o' = mlod_lod.minor_version o
  /\ mlod_lod.major_version o' = mlod_lod.major_version o
  /\ mlod_lod.num_points o' = mlod_lod.num_points o
  /\ mlod_lod.num_face_normals o' = mlod_lod.num_face_normals o
  /\ mlod_lod.num_faces o' = mlod_lod.num_faces o
  /\ mlod_lod.flags o' = mlod_lod.flags o
  /\ mlod_lod.points o' = mlod_lod.points o
  /\ mlod_lod.normals o' = mlod_lod.normals o
  /\ mlod_lod.faces o' = mlod_lod.faces o
  /\ mlod_lod.tag_sig o' = mlod_lod.tag_sig o
  /\ mlod_lod.resolution o' = mlod_lod.resolution o
  /\ mlod_lod.tags o' = mlod_lod.tags o ++ [tag].
Proof.
  unfold mlod_lod.keep_tag.
  destruct (mlod_tag.named "#Property#" tag);
    [|destruct (mlod_tag.named "#Mass#" tag)]; cbn; repeat split.
Qed.

Lemma keep_tags_frame (new : list mlod_tag.t) :
  forall o,
    let o' := keep_tags new o in
    mlod_lod.signature o' = mlod_lod.signature o
    /\ mlod_lod.minor_version o' = mlod_lod.minor_version o
    /\ mlod_lod.major_version o' = mlod_lod.major_version o
    /\ mlod_lod.num_points o' = mlod_lod.num_points o
    /\ mlod_lod.num_face_normals o' = mlod_lod.num_face_normals o
    /\ mlod_lod.num_faces o' = mlod_lod.num_faces o
    /\ mlod_lod.flags o' = mlod_lod.flags o
    /\ mlod_lod.points o' = mlod_lod.points o
    /\ mlod_lod.normals o' = mlod_lod.normals o
    /\ mlod_lod.faces o' = mlod_lod.faces o
    /\ mlod_lod.tag_sig o' = mlod_lod.tag_sig o
    /\ mlod_lod.resolution o' = mlod_lod.resolution o
    /\ mlod_lod.tags o' = mlod_lod.tags o ++ new.
Proof.
  induction new as [|tag new IH]; intros o; cbn.
  - rewrite app_nil_r. repeat split.
  - specialize (IH (mlod_lod.keep_tag tag o)). cbn in IH.
    pose proof (keep_tag_frame tag o) as F. cbn in F.
    unfold keep_tags in IH.
    destruct IH as (I1 & I2 & I3 & I4 & I5 & I6 & I7 & I8 & I9 & I10 & I11 & I12 & I13).
    destruct F as (F1 & F2 & F3 & F4 & F5 & F6 & F7 & F8 & F9 & F10 & F11 & F12 & F13).
    rewrite I1, I2, I3, I4, I5, I6, I7, I8, I9, I10, I11, I12, I13.
    rewrite F13, <- app_assoc. repeat split; assumption.
Qed.

(** ** [mlod_lod::parse] *)

Ltac tags_inv :=
  match goal with
  | H : mlod_lod.parse_tags _ _ = (None, _, _) |- _ =>
    let new := fresh "new" in
    let C := fresh "C" in
    let Heof := fresh "Heof" in
    apply parse_tags_ok_inv in H; destruct H as (new & -> & C & Heof)
  end.

(** A successful [mlod_lod::parse] into a LOD that holds no tags yet (a
    value-initialised one, as [resize] makes them) consumed the layout of
    the LOD it produced. *)
Lemma mlod_lod_parse_consumed r out r' out' :
  mlod_lod.tags out = [] ->
  mlod_lod.parse r out = (None, r', out') ->
  consumed r (mlod_lod_bytes out') r'.
Proof.
  intros Htags H. unfold mlod_lod.parse in H. parse_inv H. tags_inv. to_consumed.
  match goal with
  | |- context [keep_tags ?n ?o] =>
    destruct (keep_tags_frame n o)
      as (F1 & F2 & F3 & F4 & F5 & F6 & F7 & F8 & F9 & F10 & F11 & F12 & F13)
  end.
  unfold mlod_lod_bytes.
  cbn [mlod_lod.with_resolution mlod_lod.signature mlod_lod.minor_version
       mlod_lod.major_version mlod_lod.num_points mlod_lod.num_face_normals
       mlod_lod.num_faces mlod_lod.flags mlod_lod.points mlod_lod.normals
       mlod_lod.faces mlod_lod.tag_sig mlod_lod.tags mlod_lod.resolution].
  rewrite F1, F2, F3, F4, F5, F6, F7, F8, F9, F10, F11, F13.
  cbn. rewrite Htags. cbn [app]. chain.
Qed.

Lemma sound_mlod_lod : sound mlod_lod.parse.
Proof. unfold mlod_lod.parse. structural. Qed.

Lemma stable_mlod_lod : stable mlod_lod.parse.
Proof. unfold mlod_lod.parse. structural. Qed.

#[export] Hint Resolve sound_mlod_lod stable_mlod_lod : parsers.

(** ** [mlod_p3d::parse] *)

Lemma for_each_consumed_on {A : Type} (P : A -> Prop) (p : parser A)
      (b : A -> list byte) :
  (forall r x r' x', P x -> p r x = (None, r', x') -> consumed r (b x') r') ->
  forall v r r' v',
    Forall P v ->
    for_each p r v = (None, r', v') -> consumed r (flat_map b v') r'.
Proof.
  intros Hp v. induction v as [|x rest IH]; intros r r' v' HP H.
  - simpl in H. injection H as <- <-. apply consumed_refl.
  - apply for_each_ok_inv in H. destruct H as (r1 & x1 & rest1 & H1 & H2 & ->).
    inversion HP; subst.
    change (flat_map b (x1 :: rest1)) with (b x1 ++ flat_map b rest1).
    eapply consumed_app; eauto.
Qed.

Lemma resize_nil {A : Type} (n : nat) (d : A) : resize n d [] = repeat d n.
Proof. unfold resize. rewrite firstn_nil, Nat.sub_0_r. reflexivity. Qed.

Lemma resize_length {A : Type} (n : nat) (d : A) (v : list A) :
  length (resize n d v) = n.
Proof. unfold resize. rewrite length_app, length_firstn, repeat_length. lia. Qed.

(** A successful [mlod_p3d::parse] into a fresh document consumed the layout
    of the document it produced. *)
Lemma mlod_p3d_parse_consumed r r' out' :
  mlod_p3d.parse r mlod_p3d.default = (None, r', out') ->
  consumed r (mlod_p3d_bytes out') r'.
Proof.
  intros H. unfold mlod_p3d.parse in H. parse_inv H.
  match goal with
  | H : for_each mlod_lod.parse _ _ = _ |- _ =>
    apply (for_each_consumed_on (fun l => mlod_lod.tags l = [])
             mlod_lod.parse mlod_lod_bytes mlod_lod_parse_consumed) in H
  end.
  - to_consumed. unfold mlod_p3d_bytes; cbn. chain.
  - cbn. rewrite resize_nil. apply Forall_forall. intros x Hx.
    apply repeat_spec in Hx. subst x. reflexivity.
Qed.

Lemma sound_mlod_p3d : sound mlod_p3d.parse.
Proof. unfold mlod_p3d.parse. structural. Qed.

Lemma stable_mlod_p3d : stable mlod_p3d.parse.
Proof. unfold mlod_p3d.parse. structural. Qed.

(** ** The converted tags *)







(** ** Truncated buffers *)

(** A parser that succeeds on a buffer fails, out of data, on the buffer cut
    anywhere before the end of what it consumed. *)
Lemma truncated_parse_fails {T : Type} (p : parser T) (b : T -> list byte)
      (out : T) :
  stable p -> sound p ->
  (forall r r' out', p r out = (None, r', out') -> consumed r (b out') r') ->
  forall bytes r' out' m,
    p (binary_reader.new bytes) out = (None, r', out') ->
    m < binary_reader.current_offset r' ->
    exists e r'' out'',
      p (binary_reader.new (firstn m bytes)) out = (Some e, r'', out'')
      /\ out_of_data e r''.
Proof.
  intros Hst Hso Hc bytes r' out' m H Hm.
  destruct (p (binary_reader.new (firstn m bytes)) out)
    as [[[e|] r''] out''] eqn:E.
  - exists e, r'', out''. split; [reflexivity|].
    exact (proj2 (Hso _ _ _ _ _ E) e eq_refl).
  - exfalso.
    pose proof (Hst _ _ _ _ (skipn m bytes) E) as X.
    unfold extend in X at 1.
    cbn [binary_reader.new binary_reader.buf binary_reader.current_offset] in X.
    rewrite firstn_skipn in X. fold (binary_reader.new bytes) in X.
    rewrite H in X. injection X as -> _.
    pose proof (consumed_remaining (Hc _ _ _ E)) as R.
    pose proof (consumed_new (Hc _ _ _ E)) as [_ L].
    unfold binary_reader.remaining, binary_reader.size in R.
    cbn [binary_reader.new binary_reader.buf binary_reader.current_offset
         extend] in R, Hm.
    rewrite length_firstn in R. lia.
Qed.

(** ** Tag names *)

Lemma bytes_eqb_eq (a b : list byte) : bytes_eqb a b = true <-> a = b.
Proof.
  revert b; induction a as [|x a IH]; intros [|y b]; simpl;
    try (split; (discriminate || reflexivity)).
  rewrite andb_true_iff, IH. split.
  - intros [E ->]. apply Byte.byte_dec_bl in E. now subst.
  - intros [= -> ->]. split; [now apply Byte.byte_dec_lb|reflexivity].
Qed.

Lemma named_eq (name : string) (tag : mlod_tag.t) :
  mlod_tag.named name tag = true
  <-> arma_string.string (mlod_tag.tag_name tag) = lit name.
Proof. apply bytes_eqb_eq. Qed.

(** ** The properties of the specification *)

(** C9. A read of [sizeof(T)] bytes that would pass the end of the buffer
    returns [false] and leaves the reader (and the destination) as they
    were; otherwise it returns [true] and the offset has advanced by exactly
    [sizeof(T)], within the buffer. *)
Theorem read_advances_only_on_success {T : Type} `{pod T}
    (r : binary_reader.t) (out : T) :
  (fst (fst (binary_reader.read r out)) = false
   <-> binary_reader.size r < binary_reader.current_offset r + sizeof T)
  /\ match binary_reader.read r out with
     | (false, r', v) => r' = r /\ v = out
     | (true, r', v) =>
       binary_reader.buf r' = binary_reader.buf r
       /\ binary_reader.current_offset r'
          = binary_reader.current_offset r + sizeof T
       /\ binary_reader.current_offset r' <= binary_reader.size r
       /\ v = load (firstn (sizeof T)
                      (skipn (binary_reader.current_offset r)
                             (binary_reader.buf r)))
     end.
Proof.
  destruct (read_cases r out) as [[Hlt E]|[Hle E]]; rewrite E; cbn.
  - split; [tauto|auto].
  - split; [split; [discriminate|lia]|auto].
Qed.

(** C7. Decoding a string consumes the bytes up to and including the first
    NUL and yields the bytes before it; with no NUL before the end of the
    buffer it fails with the error of the one-byte read, the reader at the
    end of the buffer; encoding appends the bytes of the string and one
    NUL; so decoding the encoding of a string without NUL gives the string
    back, the whole encoding consumed. *)
Theorem arma_string_roundtrip (s : list char) (Hs : no_nul s) :
  (forall r out tail,
      skipn (binary_reader.current_offset r) (binary_reader.buf r)
      = s ++ x00 :: tail ->
      arma_string.parse r out
      = (None,
         binary_reader.mk (binary_reader.buf r)
                          (binary_reader.current_offset r + length s + 1),
         arma_string.mk s))
  /\ (forall r out,
         skipn (binary_reader.current_offset r) (binary_reader.buf r) = s ->
         binary_reader.current_offset r <= binary_reader.size r ->
         arma_string.parse r out
         = (Some (mlod_error.mk "failed to read arma_string[n]"),
            binary_reader.mk (binary_reader.buf r) (binary_reader.size r),
            arma_string.mk s))
  /\ (forall w i,
         writer_ok w ->
         arma_string.write w i = appended w (arma_string.string i ++ [x00]))
  /\ (forall out,
         arma_string.parse
           (binary_reader.new
              (binary_writer.data
                 (arma_string.write binary_writer.new (arma_string.mk s))))
           out
         = (None, binary_reader.mk (s ++ [x00]) (length s + 1), arma_string.mk s)).
Proof.
  repeat split.
  - intros r out tail E. exact (arma_string_parse_nul r out s tail Hs E).
  - intros r out E Hle.
    assert (Hn : no_nul (skipn (binary_reader.current_offset r)
                               (binary_reader.buf r))) by now rewrite E.
    rewrite (arma_string_parse_no_nul r out Hn), E.
    replace (binary_reader.current_offset r + @length byte s)
      with (binary_reader.size r); [reflexivity|].
    apply (f_equal (@length byte)) in E. rewrite length_skipn in E.
    unfold binary_reader.size in *. lia.
  - intros w i Hw. exact (@arma_string_write_appends w i Hw).
  - intros out.
    rewrite (@arma_string_write_appends _ _ writer_ok_new).
    cbn [appended binary_writer.data binary_writer.new app arma_string_bytes
         arma_string.string].
    rewrite (arma_string_parse_nul _ out s [] Hs); reflexivity.
Qed.

Lemma arma_string_roundtrip_witness :
  no_nul (lit "lod1")
  /\ arma_string.parse
       (binary_reader.new
          (binary_writer.data
             (arma_string.write binary_writer.new (arma_string.mk (lit "lod1")))))
       arma_string.default
     = (None, binary_reader.mk (lit "lod1" ++ [x00]) 5, arma_string.mk (lit "lod1")).
Proof.
  assert (Hs : no_nul (lit "lod1")) by (repeat constructor; discriminate).
  split; [exact Hs|].
  exact (proj2 (proj2 (proj2 (arma_string_roundtrip (lit "lod1") Hs)))
               arma_string.default).
Defined.

(** C5. A face decoded without error holds exactly four vertex
    descriptors, whatever [face_type] was read. *)
Theorem mlod_face_has_four_vertices r out r' out' :
  mlod_face.parse r out = (None, r', out') ->
  length (mlod_face.vertices out') = 4.
Proof.
  intros H. unfold mlod_face.parse in H. parse_inv H.
  cbn.
  match goal with
  | H : for_each _ _ _ = _ |- _ => apply for_each_length in H; rewrite H
  end.
  cbn [mlod_face.vertices mlod_face.with_vertices]. apply resize_length.
Qed.

Lemma mlod_face_has_four_vertices_witness :
  length (mlod_face.vertices
            (snd (mlod_face.parse (binary_reader.new triangle_face)
                                  mlod_face.default))) = 4.
Proof.
  apply (mlod_face_has_four_vertices
           (binary_reader.new triangle_face) mlod_face.default
           (binary_reader.mk triangle_face 75)).
  vm_compute. reflexivity.
Defined.

(** ** What the tag loop leaves in a LOD *)

Lemma keep_tags_snoc (new : list mlod_tag.t) (t : mlod_tag.t) (o : mlod_lod.t) :
  keep_tags (new ++ [t]) o = mlod_lod.keep_tag t (keep_tags new o).
Proof. unfold keep_tags. now rewrite fold_left_app. Qed.

Lemma keep_tags_num_points (new : list mlod_tag.t) (o : mlod_lod.t) :
  mlod_lod.num_points (keep_tags new o) = mlod_lod.num_points o.
Proof. apply (keep_tags_frame new o). Qed.

Lemma keep_tags_tags (new : list mlod_tag.t) (o : mlod_lod.t) :
  mlod_lod.tags (keep_tags new o) = mlod_lod.tags o ++ new.
Proof. apply (keep_tags_frame new o). Qed.

Lemma keep_tags_property_tags (new : list mlod_tag.t) :
  forall o,
    mlod_lod.property_tags (keep_tags new o)
    = mlod_lod.property_tags o
      ++ map property_tag.of_tag (filter (mlod_tag.named "#Property#") new).
Proof.
  induction new as [|t new IH]; intros o; cbn [keep_tags fold_left filter map].
  - now rewrite app_nil_r.
  - fold (keep_tags new (mlod_lod.keep_tag t o)). rewrite IH.
    unfold mlod_lod.keep_tag.
    destruct (mlod_tag.named "#Property#" t); cbn.
    + now rewrite <- app_assoc.
    + destruct (mlod_tag.named "#Mass#" t); reflexivity.
Qed.

Lemma property_not_mass (t : mlod_tag.t) :
  mlod_tag.named "#Property#" t = true -> mlod_tag.named "#Mass#" t = false.
Proof.
  intros H. apply named_eq in H.
  destruct (mlod_tag.named "#Mass#" t) eqn:E; [|reflexivity].
  apply named_eq in E. rewrite H in E. discriminate E.
Qed.

Lemma keep_tags_mass (new : list mlod_tag.t) (o : mlod_lod.t) :
  mlod_lod.mass (keep_tags new o)
  = match find (mlod_tag.named "#Mass#") (rev new) with
    | Some t => mass_tag.of_tag t (mlod_lod.num_points o)
    | None => mlod_lod.mass o
    end.
Proof.
  induction new as [|t new IH] using rev_ind; [reflexivity|].
  rewrite keep_tags_snoc, rev_unit. cbn [find].
  unfold mlod_lod.keep_tag.
  destruct (mlod_tag.named "#Property#" t) eqn:P.
  - rewrite (property_not_mass t P). cbn. exact IH.
  - destruct (mlod_tag.named "#Mass#" t); cbn.
    + now rewrite keep_tags_num_points.
    + exact IH.
Qed.

(** The tags, and the converted tags, of a LOD decoded without error. *)
Lemma mlod_lod_parse_tags r out r' out' :
  mlod_lod.parse r out = (None, r', out') ->
  exists new,
    eof_terminated new
    /\ mlod_lod.tags out' = mlod_lod.tags out ++ new
    /\ mlod_lod.property_tags out'
       = mlod_lod.property_tags out
         ++ map property_tag.of_tag (filter (mlod_tag.named "#Property#") new)
    /\ mlod_lod.mass out'
       = match find (mlod_tag.named "#Mass#") (rev new) with
         | Some t => mass_tag.of_tag t (mlod_lod.num_points out')
         | None => mlod_lod.mass out
         end.
Proof.
  intros H. unfold mlod_lod.parse in H. parse_inv H. tags_inv.
  exists new. split; [assumption|].
  cbn [mlod_lod.with_resolution mlod_lod.tags mlod_lod.property_tags
       mlod_lod.mass mlod_lod.num_points].
  rewrite keep_tags_tags, keep_tags_property_tags, keep_tags_mass,
    keep_tags_num_points.
  cbn. auto.
Qed.

(** C6. [mlod_lod::parse] either fails with the error of a read that ran
    out of data, or ends with, appended to the tags the LOD held, a run of
    tags whose last one, and no earlier one, is named [#EndOfFile#]: the
    tags are not empty and the last one is the terminator.  The loop always
    returns within the iterations the model gives it.  And a buffer from
    which a LOD decodes, cut anywhere before the end of that LOD (so before
    its terminator is complete, or before [resolution]), fails to decode
    with the error of a read that ran out of data. *)
Theorem lod_tags_end_with_terminator (r : binary_reader.t) (out : mlod_lod.t) :
  mlod_lod.tag_loop (S (binary_reader.remaining r)) r out <> None
  /\ match mlod_lod.parse r out with
     | (None, r', out') =>
       exists pre t,
         mlod_lod.tags out' = mlod_lod.tags out ++ pre ++ [t]
         /\ Forall (fun x => arma_string.string (mlod_tag.tag_name x)
                             <> lit "#EndOfFile#") pre
         /\ arma_string.string (mlod_tag.tag_name t) = lit "#EndOfFile#"
         /\ mlod_lod.tags out' <> []
         /\ last (mlod_lod.tags out') mlod_tag.default = t
     | (Some e, r', out') => out_of_data e r'
     end
  /\ (forall bytes r' out' m,
         mlod_lod.parse (binary_reader.new bytes) mlod_lod.default
         = (None, r', out') ->
         m < binary_reader.current_offset r' ->
         exists e r'' out'',
           mlod_lod.parse (binary_reader.new (firstn m bytes)) mlod_lod.default
           = (Some e, r'', out'')
           /\ out_of_data e r'').
Proof.
  split; [apply tag_loop_fuel; lia|]. split.
  2: { apply (truncated_parse_fails mlod_lod.parse mlod_lod_bytes);
       [apply stable_mlod_lod|apply sound_mlod_lod|].
       intros r0 r1 o1. now apply mlod_lod_parse_consumed. }
  destruct (mlod_lod.parse r out) as [[[e|] r'] out'] eqn:E.
  - now apply (sound_mlod_lod _ _ _ _ _ E).
  - apply mlod_lod_parse_tags in E.
    destruct E as (new & (pre & t & -> & Hpre & Ht) & Htags & _).
    exists pre, t. rewrite Htags. repeat split.
    + eapply Forall_impl; [|exact Hpre]. intros x Hx Hn.
      cbv beta in Hx. apply named_eq in Hn. congruence.
    + now apply named_eq.
    + rewrite app_assoc. intros Hnil. now apply app_eq_nil in Hnil as [_ [=]].
    + rewrite app_assoc. apply last_last.
Qed.

Lemma lod_tags_end_with_terminator_witness :
  exists e r'' out'',
    mlod_lod.parse (binary_reader.new (firstn 50 lod_short_property))
                   mlod_lod.default
    = (Some e, r'', out'')
    /\ out_of_data e r''.
Proof.
  destruct (lod_tags_end_with_terminator
              (binary_reader.new lod_short_property) mlod_lod.default)
    as [_ [_ T]].
  apply (T lod_short_property
           (binary_reader.mk lod_short_property 71)
           (snd (mlod_lod.parse (binary_reader.new lod_short_property)
                                mlod_lod.default))
           50).
  - vm_compute. reflexivity.
  - vm_compute. lia.
Defined.

(** Closing a conjunction of facts about concrete inputs by evaluation. *)
Ltac conj_split := match goal with |- _ /\ _ => split end.
Ltac evaluate :=
  vm_compute; first [ reflexivity | left; reflexivity | discriminate ].









(** ** Documents *)

Lemma decode_consumed (bytes : list byte) r' doc :
  decode bytes = (None, r', doc) ->
  encode doc = firstn (binary_reader.current_offset r') bytes
  /\ binary_reader.current_offset r' <= length bytes
  /\ binary_reader.buf r' = bytes.
Proof.
  intros H. unfold decode in H.
  pose proof (mlod_p3d_parse_consumed _ _ _ H) as C.
  pose proof (consumed_remaining C) as R.
  pose proof (consumed_new C) as [F L].
  rewrite encode_bytes, F. repeat split.
  - unfold binary_reader.remaining, binary_reader.size in R. simpl in R. lia.
  - apply C.
Qed.

Lemma decode_extend (bytes extra : list byte) r' doc :
  decode bytes = (None, r', doc) ->
  decode (bytes ++ extra) = (None, extend r' extra, doc).
Proof.
  intros H. unfold decode in *.
  exact (stable_mlod_p3d _ _ _ _ extra H).
Qed.

Lemma decode_sound (bytes : list byte) e r' doc :
  decode bytes = (Some e, r', doc) -> out_of_data e r'.
Proof.
  intros H. unfold decode in H.
  now apply (sound_mlod_p3d _ _ _ _ _ H).
Qed.

Lemma mlod_p3d_parse_lod_count r out r' out' :
  mlod_p3d.parse r out = (None, r', out') ->
  length (mlod_p3d.lods out')
  = N.to_nat (p3d_header.lod_count (mlod_p3d.header out')).
Proof.
  intros H. unfold mlod_p3d.parse in H. parse_inv H.
  match goal with
  | H : for_each _ _ _ = _ |- _ => apply for_each_length in H
  end.
  cbn in *. rewrite resize_length in *. assumption.
Qed.

(** C1, as the code has it.  Encoding the document decoded from a buffer
    gives back the bytes the decode consumed, the first [current_offset]
    bytes of the buffer; it gives back the buffer when the decode consumed
    all of it. *)
Theorem encode_decode_consumed_prefix (bytes : list byte) r' doc :
  decode bytes = (None, r', doc) ->
  encode doc = firstn (binary_reader.current_offset r') bytes
  /\ (binary_reader.current_offset r' = length bytes -> encode doc = bytes).
Proof.
  intros H. destruct (decode_consumed _ _ _ H) as (E & _ & _).
  split; [exact E|]. intros L. rewrite E, L. apply firstn_all.
Qed.

(** Scenario A decodes, all of its 81 bytes consumed, and encodes back to
    itself. *)
Lemma encode_decode_consumed_prefix_witness :
  decode scenario_a
  = (None, binary_reader.mk scenario_a 81, snd (decode scenario_a))
  /\ encode (snd (decode scenario_a)) = scenario_a.
Proof.
  assert (H : decode scenario_a
              = (None, binary_reader.mk scenario_a 81, snd (decode scenario_a)))
    by (vm_compute; reflexivity).
  split; [exact H|].
  destruct (encode_decode_consumed_prefix scenario_a
              (binary_reader.mk scenario_a 81) (snd (decode scenario_a)) H)
    as [_ E].
  apply E. vm_compute. reflexivity.
Defined.

(** C1 as stated fails: Scenario A followed by one more byte decodes
    without error, and encoding the document does not give the buffer
    back. *)
Lemma roundtrip_fails_with_trailing_byte :
  exists r' doc,
    decode (scenario_a ++ [x07]) = (None, r', doc)
    /\ encode doc <> scenario_a ++ [x07].
Proof.
  exists (binary_reader.mk (scenario_a ++ [x07]) 81).
  exists (snd (decode scenario_a)).
  repeat conj_split; evaluate.
Qed.

(** C10. A buffer that decodes still decodes, to the same document, with
    any bytes added after it; encoding that document gives the consumed
    prefix, without the added bytes, so not the longer buffer. *)
Theorem trailing_bytes_ignored (bytes extra : list byte) r' doc :
  decode bytes = (None, r', doc) ->
  decode (bytes ++ extra) = (None, extend r' extra, doc)
  /\ binary_reader.current_offset (extend r' extra) <= length bytes
  /\ encode doc
     = firstn (binary_reader.current_offset (extend r' extra)) (bytes ++ extra)
  /\ encode doc = firstn (binary_reader.current_offset r') bytes
  /\ (extra <> [] -> encode doc <> bytes ++ extra).
Proof.
  intros H. destruct (decode_consumed _ _ _ H) as (E & L & _).
  split; [now apply decode_extend|]. split; [exact L|]. split; [|split].
  - cbn [extend binary_reader.current_offset].
    rewrite firstn_app. replace (_ - _) with 0 by lia.
    now rewrite firstn_O, app_nil_r.
  - exact E.
  - intros Hx Heq. apply (f_equal (@length byte)) in Heq.
    rewrite E, length_firstn, length_app in Heq.
    destruct extra; [congruence|]. simpl in Heq. lia.
Qed.

Lemma trailing_bytes_ignored_witness :
  decode (scenario_a ++ [x07; x08])
  = (None, extend (binary_reader.mk scenario_a 81) [x07; x08],
     snd (decode scenario_a))
  /\ encode (snd (decode scenario_a)) <> scenario_a ++ [x07; x08].
Proof.
  destruct (trailing_bytes_ignored scenario_a [x07; x08]
              (binary_reader.mk scenario_a 81) (snd (decode scenario_a)))
    as (D & _ & _ & _ & N).
  - vm_compute. reflexivity.
  - split; [exact D|]. apply N. discriminate.
Defined.

Lemma main_decode (bytes : list byte) :
  main bytes
  = match decode bytes with
    | (Some e, _, _) => (1, Some (mlod_error.error e), None)
    | (None, _, doc) => (0, None, Some (encode doc))
    end.
Proof.
  unfold main, decode, encode.
  destruct (mlod_p3d.parse _ _) as [[[e|] r'] doc]; reflexivity.
Qed.

(** C2, as the code has it.  A document decoded without error has exactly
    [lod_count] LODs; and the buffer cut anywhere before the end of what
    that decode consumed fails to decode, with the error of a read that ran
    out of data, and [main] writes nothing.  (What the failed decode leaves
    in the document passed by reference is not part of this statement.) *)
Theorem lod_count_and_truncation (bytes : list byte) r' doc :
  decode bytes = (None, r', doc) ->
  length (mlod_p3d.lods doc)
  = N.to_nat (p3d_header.lod_count (mlod_p3d.header doc))
  /\ forall m,
      m < binary_reader.current_offset r' ->
      exists e r'' doc',
        decode (firstn m bytes) = (Some e, r'', doc')
        /\ out_of_data e r''
        /\ main (firstn m bytes) = (1, Some (mlod_error.error e), None).
Proof.
  intros H. split; [exact (mlod_p3d_parse_lod_count _ _ _ _ H)|].
  intros m Hm.
  destruct (decode (firstn m bytes)) as [[[e|] r''] doc'] eqn:E.
  - exists e, r'', doc'. split; [reflexivity|]. split.
    + exact (decode_sound _ _ _ _ E).
    + now rewrite main_decode, E.
  - exfalso.
    pose proof (decode_extend _ (skipn m bytes) _ _ E) as X.
    rewrite firstn_skipn, H in X. injection X as -> _.
    destruct (decode_consumed _ _ _ E) as (_ & L & _).
    rewrite length_firstn in L.
    cbn [extend binary_reader.current_offset] in Hm. lia.
Qed.

Lemma lod_count_and_truncation_witness :
  length (mlod_p3d.lods (snd (decode scenario_a)))
  = N.to_nat (p3d_header.lod_count (mlod_p3d.header (snd (decode scenario_a))))
  /\ exists e r'' doc',
      decode (firstn 60 scenario_a) = (Some e, r'', doc')
      /\ out_of_data e r''
      /\ main (firstn 60 scenario_a) = (1, Some (mlod_error.error e), None).
Proof.
  destruct (lod_count_and_truncation scenario_a
              (binary_reader.mk scenario_a 81) (snd (decode scenario_a)))
    as [L T].
  - vm_compute. reflexivity.
  - split; [exact L|]. apply T. vm_compute. lia.
Defined.

(** C2 as stated fails in its last clause: Scenario A cut after 60 bytes
    fails to decode, and the document passed to [mlod_p3d::parse] is left
    with the header, one LOD, and in it everything read before the failing
    tag. *)
Lemma truncated_decode_leaves_partial_document :
  exists e r' doc,
    decode (firstn 60 scenario_a) = (Some e, r', doc)
    /\ mlod_error.error e = "failed to read mlod_tag.active"
    /\ mlod_p3d.header doc
       = p3d_header.mk ("M"%byte, "L"%byte, "O"%byte, "D"%byte) 257 1
    /\ map mlod_lod.signature (mlod_p3d.lods doc)
       = [("P"%byte, "3"%byte, "D"%byte, "M"%byte)]
    /\ map mlod_lod.num_points (mlod_p3d.lods doc) = [1%N]
    /\ map (fun l => length (mlod_lod.points l)) (mlod_p3d.lods doc) = [1]
    /\ map mlod_lod.tags (mlod_p3d.lods doc) = [[]]
    /\ doc <> mlod_p3d.default.
Proof.
  exists (mlod_error.mk "failed to read mlod_tag.active").
  exists (binary_reader.mk (firstn 60 scenario_a) 60).
  exists (snd (decode (firstn 60 scenario_a))).
  repeat conj_split; evaluate.
Qed.

(** ** Further properties of the reader and the writer *)

(** X1. Starting from [binary_writer()], every [write] appends the
    [sizeof(T)] bytes of its argument after the bytes already written,
    which it leaves as they are, and [write_offset] stays the size of
    [data]. *)
Theorem write_appends_object {T : Type} `{HT : pod T} {HT_ok : pod_ok T}
    (w : binary_writer.t) (d : T) :
  writer_ok w ->
  binary_writer.data (binary_writer.write w d) = binary_writer.data w ++ store d
  /\ length (binary_writer.data (binary_writer.write w d))
     = length (binary_writer.data w) + sizeof T
  /\ writer_ok (binary_writer.write w d)
  /\ writer_ok binary_writer.new.
Proof.
  intros Hw. rewrite (@write_appends T HT HT_ok w d Hw).
  cbn [appended binary_writer.data]. repeat conj_split.
  - reflexivity.
  - now rewrite length_app, store_length.
  - now apply writer_ok_appended.
  - apply writer_ok_new.
Qed.

Lemma write_appends_object_witness :
  binary_writer.data
    (binary_writer.write (binary_writer.write binary_writer.new 257%N) x07)
  = [x01; x01; x00; x00; x07].
Proof.
  assert (H1 := @write_appends_object N _ _ binary_writer.new 257%N
                  writer_ok_new).
  destruct H1 as (D1 & _ & W1 & _).
  destruct (@write_appends_object byte _ _ _ x07 W1) as (D2 & _).
  rewrite D2, D1. reflexivity.
Defined.

(** X2. The test [max_read_ptr > end] of [read] is made on addresses, in
    64-bit arithmetic.  For a buffer that ends more than [sizeof(T)] bytes
    below the top of the address space it is the test
    [current_offset + sizeof(T) > size]; when
    [begin + current_offset + sizeof(T)] wraps around, the test does not
    report the overrun. *)
Theorem read_pointer_test (begin size current_offset sz : N) :
  (begin + size < 2 ^ 64)%N ->
  (current_offset <= size)%N ->
  (sz < 2 ^ 64)%N ->
  ((begin + size + sz < 2 ^ 64)%N ->
   binary_reader.max_read_ptr_exceeds begin size current_offset sz
   = (size <? current_offset + sz)%N)
  /\ ((2 ^ 64 <= begin + current_offset + sz)%N ->
      binary_reader.max_read_ptr_exceeds begin size current_offset sz = false).
Proof.
  intros Hend Hoff Hsz. unfold binary_reader.max_read_ptr_exceeds. split.
  - intros Htop. rewrite !N.mod_small by lia.
    destruct (N.ltb_spec (begin + size) (begin + current_offset + sz));
      destruct (N.ltb_spec size (current_offset + sz)); (reflexivity || lia).
  - intros Hwrap. rewrite (N.mod_small (begin + size)) by lia.
    assert (E : ((begin + current_offset + sz) mod 2 ^ 64
                 = begin + current_offset + sz - 2 ^ 64)%N).
    { symmetry. apply (N.mod_unique _ _ 1); lia. }
    rewrite E. apply N.ltb_ge. lia.
Qed.

Lemma read_pointer_test_witness :
  binary_reader.max_read_ptr_exceeds 4096 10 8 4 = true
  /\ binary_reader.max_read_ptr_exceeds (2 ^ 64 - 12) 10 8 4 = false.
Proof.
  split.
  - rewrite (proj1 (read_pointer_test 4096 10 8 4
                      ltac:(vm_compute; reflexivity)
                      ltac:(vm_compute; discriminate)
                      ltac:(vm_compute; reflexivity))
                   ltac:(vm_compute; reflexivity)).
    reflexivity.
  - apply (proj2 (read_pointer_test (2 ^ 64 - 12) 10 8 4
                    ltac:(vm_compute; reflexivity)
                    ltac:(vm_compute; discriminate)
                    ltac:(vm_compute; reflexivity))).
    vm_compute. discriminate.
Defined.

(** ** Reading back what was stored *)

Lemma le_decode_encode (n : nat) :
  forall v, (v < 256 ^ N.of_nat n)%N -> le_decode (le_encode n v) = v.
Proof.
  induction n as [|n IH]; intros v Hv.
  - cbn in *. lia.
  - cbn [le_encode le_decode].
    rewrite Nat2N.inj_succ, N.pow_succ_r' in Hv.
    rewrite IH by (apply N.Div0.div_lt_upper_bound; lia).
    unfold byte_of_N.
    assert (Hm : (v mod 256 < 256)%N) by (apply N.mod_lt; lia).
    destruct (Byte.of_N (v mod 256)) as [b|] eqn:E.
    + apply Byte.to_of_N in E. rewrite E.
      pose proof (N.div_mod v 256 ltac:(lia)). lia.
    + apply Byte.of_N_None_iff in E. lia.
Qed.

Lemma load_store_u32 (v : N) : is_u32 v -> load (store v) = v.
Proof. intros H. apply (le_decode_encode 4). exact H. Qed.

Lemma load_store_byte (b : byte) : load (store b) = b.
Proof. reflexivity. Qed.

Lemma load_store_signature (s : mlod_signature) : load (store s) = s.
Proof. destruct s as [[[a b] c] d]. reflexivity. Qed.

Lemma load_store_vert_descriptor (d : vert_descriptor.t) :
  wf_vert_descriptor d -> load (store d) = d.
Proof.
  intros (H1 & H2 & H3 & H4). destruct d as [a b c e].
  cbn [vert_descriptor.point_index vert_descriptor.normal_index
       vert_descriptor.u vert_descriptor.v] in *.
  unfold load, store, pod_vert_descriptor.
  cbn [vert_descriptor.point_index vert_descriptor.normal_index
       vert_descriptor.u vert_descriptor.v le_encode app firstn skipn].
  change (le_decode [byte_of_N a; byte_of_N (a / 256); byte_of_N (a / 256 / 256);
                     byte_of_N (a / 256 / 256 / 256)])
    with (le_decode (le_encode 4 a)).
  change (le_decode [byte_of_N b; byte_of_N (b / 256); byte_of_N (b / 256 / 256);
                     byte_of_N (b / 256 / 256 / 256)])
    with (le_decode (le_encode 4 b)).
  change (le_decode [byte_of_N c; byte_of_N (c / 256); byte_of_N (c / 256 / 256);
                     byte_of_N (c / 256 / 256 / 256)])
    with (le_decode (le_encode 4 c)).
  change (le_decode [byte_of_N e; byte_of_N (e / 256); byte_of_N (e / 256 / 256);
                     byte_of_N (e / 256 / 256 / 256)])
    with (le_decode (le_encode 4 e)).
  now rewrite !(le_decode_encode 4) by assumption.
Qed.

Lemma skipn_add {A : Type} (n k : nat) (l : list A) :
  skipn (n + k) l = skipn k (skipn n l).
Proof. now rewrite skipn_skipn, Nat.add_comm. Qed.

(** A read at a cursor whose unread bytes start with the stored [v]. *)
Lemma read_yields {T : Type} `{HT : pod T} {HT_ok : pod_ok T}
      (r : binary_reader.t) (out v : T) (tail : list byte) :
  0 < sizeof T ->
  unread r = store v ++ tail ->
  load (store v) = v ->
  exists r',
    binary_reader.read r out = (true, r', v)
    /\ unread r' = tail
    /\ binary_reader.buf r' = binary_reader.buf r.
Proof.
  unfold unread. intros Hpos U L.
  assert (Hlen := store_length v).
  rewrite read_succeeds.
  - exists (binary_reader.mk (binary_reader.buf r)
              (binary_reader.current_offset r + sizeof T)).
    split; [|split; [|reflexivity]].
    + rewrite U, firstn_app, Hlen, Nat.sub_diag, firstn_O, app_nil_r.
      rewrite <- Hlen, firstn_all, L. reflexivity.
    + cbn [binary_reader.buf binary_reader.current_offset].
      rewrite skipn_add, U, skipn_app, Hlen, Nat.sub_diag, <- Hlen, skipn_all.
      reflexivity.
  - apply (f_equal (@length byte)) in U.
    rewrite length_skipn, length_app, Hlen in U.
    unfold binary_reader.size. lia.
Qed.

Lemma read_u32_bound (r r' : binary_reader.t) (out v : N) :
  binary_reader.read r out = (true, r', v) -> is_u32 v.
Proof.
  destruct (read_cases r out) as [[_ E]|[Hle E]]; rewrite E;
    [discriminate|].
  intros H. apply (f_equal snd) in H. cbn [snd] in H. rewrite <- H.
  set (bs := firstn (sizeof N)
                    (skipn (binary_reader.current_offset r) (binary_reader.buf r))).
  assert (Hbs : length bs <= 4) by apply firstn_le_length.
  clearbody bs. unfold is_u32. cbn [load pod_uint32].
  eapply N.lt_le_trans; [apply le_decode_bound|].
  change (2 ^ 32)%N with (256 ^ 4)%N.
  apply N.pow_le_mono_r; lia.
Qed.

(** ** [vert_descriptor::parse] and [vert_descriptor::write] *)

Ltac reader_arith :=
  unfold binary_reader.size in *;
  cbn [binary_reader.buf binary_reader.current_offset sizeof
       pod_byte pod_uint32 pod_signature pod_vert_descriptor] in *;
  lia.

Lemma vert_descriptor_parse_of_read r out0 out r' d :
  binary_reader.read r out0 = (true, r', d) ->
  vert_descriptor.parse r out = (None, r', d).
Proof.
  destruct (read_cases r out0) as [[_ E]|[Hle E]]; rewrite E;
    [discriminate|].
  intros H. injection H as <- <-.
  assert (L : 16 <= length (skipn (binary_reader.current_offset r)
                                  (binary_reader.buf r))).
  { rewrite length_skipn. reader_arith. }
  unfold vert_descriptor.parse, seq, read_field.
  rewrite read_succeeds by reader_arith. cbv beta iota zeta.
  rewrite read_succeeds by reader_arith. cbv beta iota zeta.
  rewrite read_succeeds by reader_arith. cbv beta iota zeta.
  rewrite read_succeeds by reader_arith. cbv beta iota zeta.
  cbn [binary_reader.buf binary_reader.current_offset sizeof pod_uint32
       pod_vert_descriptor].
  rewrite !skipn_add.
  destruct (skipn (binary_reader.current_offset r) (binary_reader.buf r))
    as [|a0 [|a1 [|a2 [|a3 [|a4 [|a5 [|a6 [|a7 [|a8 [|a9 [|a10 [|a11
        [|a12 [|a13 [|a14 [|a15 rest]]]]]]]]]]]]]]]];
    cbn [length] in L; try lia.
  clear. f_equal. f_equal. f_equal. lia.
Qed.

(** X3. [vert_descriptor::parse], which reads the four members one by one,
    succeeds exactly when the read of the whole 16-byte object that
    [mlod_face::parse] makes succeeds, with the same descriptor and the same
    reader; and [vert_descriptor::write] appends what the write of the
    whole object appends. *)
Theorem vert_descriptor_parse_is_object_read r out r' d :
  (vert_descriptor.parse r out = (None, r', d)
   <-> binary_reader.read r out = (true, r', d))
  /\ (forall w, writer_ok w ->
                vert_descriptor.write w d = binary_writer.write w d).
Proof.
  split; [split|].
  - intros H.
    assert (Hle : binary_reader.current_offset r + 16 <= binary_reader.size r).
    { unfold vert_descriptor.parse in H. parse_inv H.
      assert (C3 : consumed r (store v ++ store v0 ++ store v1 ++ store v2) r')
        by chain.
      apply consumed_remaining in C3.
      rewrite !length_app, !(store_length (T:=N)) in C3.
      unfold binary_reader.remaining in C3. reader_arith. }
    pose proof (@read_succeeds _ pod_vert_descriptor r out Hle) as R.
    pose proof (vert_descriptor_parse_of_read r out out _ _ R) as P.
    rewrite H in P. injection P as -> ->. exact R.
  - apply vert_descriptor_parse_of_read.
  - intros w Hw. unfold vert_descriptor.write. writes. reflexivity.
Qed.

Lemma vert_descriptor_parse_is_object_read_witness :
  vert_descriptor.write binary_writer.new (vert_descriptor.mk 1 2 3 4)
  = binary_writer.write binary_writer.new (vert_descriptor.mk 1 2 3 4).
Proof.
  apply (proj2 (vert_descriptor_parse_is_object_read
                  (binary_reader.new []) vert_descriptor.default
                  (binary_reader.new []) (vert_descriptor.mk 1 2 3 4))).
  apply writer_ok_new.
Defined.

(** ** The cursor only moves forward *)

Section Forward.
Context {T F : Type}.

Lemma forward_stmt (f : T -> T) : forward (stmt f).
Proof.
  intros r out e r' out' H. apply stmt_inv in H. destruct H as (_ & -> & _).
  auto.
Qed.

Lemma forward_parse_field (get : T -> F) (set : F -> T -> T) (p : parser F) :
  forward p -> forward (parse_field get set p).
Proof.
  intros Hp r out e r' out' H.
  apply parse_field_inv in H. destruct H as (v & H & _). eapply Hp; eauto.
Qed.

Lemma forward_seq (p q : parser T) : forward p -> forward q -> forward (p ;; q).
Proof.
  intros Hp Hq r out e r' out'. unfold seq.
  destruct (p r out) as [[[e1|] r1] out1] eqn:E1.
  - intros [= <- <- <-]. eapply Hp; eauto.
  - intros E2. destruct (Hp _ _ _ _ _ E1) as (B1 & M1 & I1).
    destruct (Hq _ _ _ _ _ E2) as (B2 & M2 & I2).
    unfold binary_reader.size in *. rewrite B1 in *.
    repeat conj_split; [congruence|lia|auto].
Qed.

Lemma forward_for_each (p : parser T) : forward p -> forward (for_each p).
Proof.
  intros Hp r v. revert r. induction v as [|x rest IH]; intros r e r' v'; simpl.
  - intros [= <- <- <-]. auto.
  - destruct (p r x) as [[[e1|] r1] x1] eqn:E1.
    + intros [= <- <- <-]. eapply Hp; eauto.
    + destruct (for_each p r1 rest) as [[e2 r2] rest2] eqn:E2.
      intros [= <- <- <-].
      destruct (Hp _ _ _ _ _ E1) as (B1 & M1 & I1).
      destruct (IH _ _ _ _ E2) as (B2 & M2 & I2).
      unfold binary_reader.size in *. rewrite B1 in *.
      repeat conj_split; [congruence|lia|auto].
Qed.

Context `{HF : pod F}.

Lemma forward_read_field (get : T -> F) (set : F -> T -> T) msg :
  forward (read_field get set msg).
Proof.
  intros r out e r' out'. unfold read_field.
  destruct (read_cases r (get out)) as [[_ E]|[Hle E]]; rewrite E;
    intros [= <- <- <-]; cbn [binary_reader.buf binary_reader.current_offset];
    repeat conj_split; auto; lia.
Qed.
End Forward.

Lemma forward_read_value {F : Type} `{HF : pod F} msg :
  forward (read_value (F:=F) msg).
Proof. apply forward_read_field. Qed.

Lemma forward_arma_string : forward arma_string.parse.
Proof.
  intros r out e r' out'.
  assert (L : length (skipn (binary_reader.current_offset r) (binary_reader.buf r))
              = binary_reader.size r - binary_reader.current_offset r)
    by apply length_skipn.
  destruct (nul_split (skipn (binary_reader.current_offset r) (binary_reader.buf r)))
    as [Hn|(s & tail & E & Hs)].
  - rewrite (arma_string_parse_no_nul _ out Hn). intros [= <- <- <-].
    rewrite L. cbn [binary_reader.buf binary_reader.current_offset].
    repeat conj_split; [reflexivity|lia|lia].
  - rewrite (arma_string_parse_nul _ out _ _ Hs E). intros [= <- <- <-].
    rewrite E, length_app in L. cbn [length] in L.
    cbn [binary_reader.buf binary_reader.current_offset].
    repeat conj_split; [reflexivity|lia|lia].
Qed.

Create HintDb forwards.
#[export] Hint Resolve forward_arma_string : forwards.

Ltac forwards :=
  repeat first
    [ apply forward_seq | apply forward_stmt | apply forward_parse_field
    | apply forward_for_each | apply forward_read_value
    | apply forward_read_field
    | solve [auto with forwards] ].

Lemma forward_vector3 : forward vector3.parse.
Proof. unfold vector3.parse. forwards. Qed.

Lemma forward_vert_descriptor : forward vert_descriptor.parse.
Proof. unfold vert_descriptor.parse. forwards. Qed.

#[export] Hint Resolve forward_vector3 : forwards.

Lemma forward_mlod_point : forward mlod_point.parse.
Proof. unfold mlod_point.parse. forwards. Qed.

Lemma forward_mlod_face : forward mlod_face.parse.
Proof. unfold mlod_face.parse. forwards. Qed.

Lemma forward_mlod_tag : forward mlod_tag.parse.
Proof. unfold mlod_tag.parse. forwards. Qed.

Lemma forward_p3d_header : forward p3d_header.parse.
Proof. unfold p3d_header.parse. forwards. Qed.

#[export] Hint Resolve forward_mlod_point forward_mlod_face forward_mlod_tag
  forward_p3d_header : forwards.

Lemma forward_tag_loop (fuel : nat) :
  forall r out e r' out',
    mlod_lod.tag_loop fuel r out = Some (e, r', out') ->
    binary_reader.buf r' = binary_reader.buf r
    /\ binary_reader.current_offset r <= binary_reader.current_offset r'
    /\ (binary_reader.current_offset r <= binary_reader.size r ->
        binary_reader.current_offset r' <= binary_reader.size r).
Proof.
  induction fuel as [|fuel IH]; intros r out e r' out'; [discriminate|].
  cbn [mlod_lod.tag_loop].
  destruct (mlod_tag.parse r mlod_tag.default) as [[[e1|] r1] tag] eqn:E.
  - intros [= <- <- <-]. eapply forward_mlod_tag; eauto.
  - destruct (forward_mlod_tag _ _ _ _ _ E) as (B1 & M1 & I1).
    destruct (mlod_tag.named "#EndOfFile#" tag).
    + intros [= <- <- <-]. auto.
    + intros H. destruct (IH _ _ _ _ _ H) as (B2 & M2 & I2).
      unfold binary_reader.size in *. rewrite B1 in *.
      repeat conj_split; [congruence|lia|auto].
Qed.

Lemma forward_parse_tags : forward mlod_lod.parse_tags.
Proof.
  intros r out e r' out'. unfold mlod_lod.parse_tags.
  destruct (mlod_lod.tag_loop _ r out) as [res|] eqn:E.
  - intros ->. eapply forward_tag_loop; eauto.
  - exfalso. revert E. apply tag_loop_fuel. lia.
Qed.

#[export] Hint Resolve forward_parse_tags : forwards.

Lemma forward_mlod_lod : forward mlod_lod.parse.
Proof. unfold mlod_lod.parse. forwards. Qed.

#[export] Hint Resolve forward_mlod_lod : forwards.

(** X4. Whether it succeeds or fails, no [parse] function touches the
    buffer, moves the cursor backwards, or moves a cursor that is inside
    the buffer beyond its end. *)
Theorem cursor_moves_forward_within_buffer :
  forward mlod_p3d.parse /\ forward mlod_lod.parse /\ forward p3d_header.parse
  /\ forward mlod_tag.parse /\ forward mlod_face.parse
  /\ forward mlod_point.parse /\ forward vector3.parse
  /\ forward vert_descriptor.parse /\ forward arma_string.parse.
Proof.
  repeat conj_split; try solve [auto with forwards].
  - unfold mlod_p3d.parse. forwards.
  - apply forward_vert_descriptor.
Qed.

(** ** What a successful parse establishes *)

(** Inversion of a successful run that keeps the reads. *)
Ltac parse_inv_reads H :=
  lazymatch type of H with
  | seq _ _ _ _ = (None, _, _) =>
    let r1 := fresh "r" in
    let o1 := fresh "o" in
    let H1 := fresh "H" in
    let H2 := fresh "H" in
    apply seq_ok_inv in H; destruct H as (r1 & o1 & H1 & H2);
    parse_inv_reads H1; parse_inv_reads H2
  | read_field _ _ _ _ _ = (None, _, _) =>
    let v := fresh "v" in
    let R := fresh "R" in
    apply read_field_ok_inv in H; destruct H as (v & R & -> & _)
  | parse_field _ _ _ _ _ = (None, _, _) =>
    let v := fresh "v" in
    apply parse_field_inv in H; destruct H as (v & H & ->)
  | stmt _ _ _ = (None, _, _) =>
    apply stmt_inv in H; destruct H as (_ & -> & ->)
  | _ => idtac
  end.

Ltac u32_reads :=
  repeat match goal with
  | R : binary_reader.read _ _ = (true, _, ?v) |- _ =>
    lazymatch type of v with
    | N => apply read_u32_bound in R
    end
  end.

Lemma for_each_Forall {A : Type} (p : parser A) (Q : A -> Prop) :
  (forall r x r' x', p r x = (None, r', x') -> Q x') ->
  forall v r r' v', for_each p r v = (None, r', v') -> Forall Q v'.
Proof.
  intros Hp v. induction v as [|x rest IH]; intros r r' v' H.
  - simpl in H. injection H as <- <-. constructor.
  - apply for_each_ok_inv in H. destruct H as (r1 & x1 & rest1 & H1 & H2 & ->).
    constructor; eauto.
Qed.

Lemma vector3_parse_wf r out r' out' :
  vector3.parse r out = (None, r', out') -> wf_vector3 out'.
Proof.
  intros H. unfold vector3.parse in H. parse_inv_reads H. u32_reads.
  unfold wf_vector3. cbn. repeat conj_split; assumption.
Qed.

Lemma arma_string_parse_wf r out r' out' :
  arma_string.parse r out = (None, r', out') -> wf_arma_string out'.
Proof.
  intros H. apply arma_string_parse_ok_inv in H.
  destruct H as (tail & _ & Hs & _). exact Hs.
Qed.

Lemma le_decode_u32 (bs : list byte) : length bs <= 4 -> is_u32 (le_decode bs).
Proof.
  intros H. unfold is_u32.
  eapply N.lt_le_trans; [apply le_decode_bound|].
  change (2 ^ 32)%N with (256 ^ 4)%N.
  apply N.pow_le_mono_r; lia.
Qed.

Lemma read_vert_descriptor_wf r (out : vert_descriptor.t) r' d :
  binary_reader.read r out = (true, r', d) -> wf_vert_descriptor d.
Proof.
  destruct (read_cases r out) as [[_ E]|[Hle E]]; rewrite E;
    [discriminate|].
  intros H. apply (f_equal snd) in H. cbn [snd] in H. rewrite <- H.
  set (bs := firstn (sizeof vert_descriptor.t)
                    (skipn (binary_reader.current_offset r) (binary_reader.buf r))).
  clearbody bs. unfold wf_vert_descriptor, load, pod_vert_descriptor.
  cbn [vert_descriptor.point_index vert_descriptor.normal_index
       vert_descriptor.u vert_descriptor.v].
  repeat conj_split; apply le_decode_u32; apply firstn_le_length.
Qed.

Lemma read_value_vert_descriptor_wf msg r (out : vert_descriptor.t) r' d :
  read_value msg r out = (None, r', d) -> wf_vert_descriptor d.
Proof.
  intros H. apply read_field_ok_inv in H. destruct H as (v & R & -> & _).
  exact (read_vert_descriptor_wf _ _ _ _ R).
Qed.

Lemma mlod_point_parse_wf r out r' out' :
  mlod_point.parse r out = (None, r', out') -> wf_mlod_point out'.
Proof.
  intros H. unfold mlod_point.parse in H. parse_inv_reads H. u32_reads.
  match goal with
  | H : vector3.parse _ _ = _ |- _ => apply vector3_parse_wf in H
  end.
  unfold wf_mlod_point. cbn. split; assumption.
Qed.

Lemma mlod_face_parse_wf r out r' out' :
  mlod_face.parse r out = (None, r', out') -> wf_mlod_face out'.
Proof.
  intros H. unfold mlod_face.parse in H. parse_inv_reads H. u32_reads.
  repeat match goal with
  | H : arma_string.parse _ _ = _ |- _ => apply arma_string_parse_wf in H
  end.
  match goal with
  | H : for_each _ _ _ = _ |- _ =>
    pose proof (for_each_length _ _ _ H) as L;
    apply (for_each_Forall _ wf_vert_descriptor
             (read_value_vert_descriptor_wf _)) in H
  end.
  cbn [mlod_face.vertices mlod_face.with_vertices] in L.
  rewrite resize_length in L.
  unfold wf_mlod_face. cbn. repeat conj_split; assumption.
Qed.

Lemma mlod_tag_parse_wf r out r' out' :
  mlod_tag.parse r out = (None, r', out') -> wf_mlod_tag out'.
Proof.
  intros H. unfold mlod_tag.parse in H. parse_inv_reads H. u32_reads.
  match goal with
  | H : arma_string.parse _ _ = _ |- _ => apply arma_string_parse_wf in H
  end.
  match goal with
  | H : for_each _ _ _ = _ |- _ => pose proof (for_each_length _ _ _ H) as L
  end.
  cbn [mlod_tag.data mlod_tag.with_data mlod_tag.data_length
       mlod_tag.with_data_length] in L.
  rewrite resize_length in L.
  unfold wf_mlod_tag. cbn. repeat conj_split; try assumption.
  rewrite L. symmetry. apply N2Nat.id.
Qed.

Lemma tag_loop_wf (fuel : nat) :
  forall r out r' out',
    mlod_lod.tag_loop fuel r out = Some (None, r', out') ->
    exists new,
      out' = keep_tags new out
      /\ Forall wf_mlod_tag new
      /\ eof_terminated new.
Proof.
  induction fuel as [|fuel IH]; intros r out r' out'; [discriminate|].
  cbn [mlod_lod.tag_loop].
  destruct (mlod_tag.parse r mlod_tag.default) as [[[e|] r1] tag] eqn:E;
    [discriminate|].
  apply mlod_tag_parse_wf in E.
  destruct (mlod_tag.named "#EndOfFile#" tag) eqn:N.
  - intros [= <- <-]. exists [tag]. split; [reflexivity|split].
    + constructor; [exact E|constructor].
    + exists [], tag. auto.
  - intros H. apply IH in H.
    destruct H as (new & -> & W & pre & t & -> & Hpre & Ht).
    exists (tag :: pre ++ [t]). split; [reflexivity|split].
    + constructor; assumption.
    + exists (tag :: pre), t. auto.
Qed.

Lemma parse_tags_wf r out r' out' :
  mlod_lod.parse_tags r out = (None, r', out') ->
  exists new,
    out' = keep_tags new out /\ Forall wf_mlod_tag new /\ eof_terminated new.
Proof.
  unfold mlod_lod.parse_tags.
  destruct (mlod_lod.tag_loop _ r out) as [res|] eqn:E.
  - intros ->. eapply tag_loop_wf; eauto.
  - exfalso. revert E. apply tag_loop_fuel. lia.
Qed.

Ltac lod_fields_in H :=
  cbn [mlod_lod.signature mlod_lod.minor_version mlod_lod.major_version
       mlod_lod.num_points mlod_lod.num_face_normals mlod_lod.num_faces
       mlod_lod.flags mlod_lod.points mlod_lod.normals mlod_lod.faces
       mlod_lod.tag_sig mlod_lod.tags mlod_lod.resolution
       mlod_lod.property_tags mlod_lod.mass
       mlod_lod.with_signature mlod_lod.with_minor_version
       mlod_lod.with_major_version mlod_lod.with_num_points
       mlod_lod.with_num_face_normals mlod_lod.with_num_faces
       mlod_lod.with_flags mlod_lod.with_points mlod_lod.with_normals
       mlod_lod.with_faces mlod_lod.with_tag_sig mlod_lod.with_tags
       mlod_lod.with_resolution mlod_lod.with_property_tags
       mlod_lod.with_mass mlod_lod.default] in H.

Lemma mlod_lod_parse_wf r r' out' :
  mlod_lod.parse r mlod_lod.default = (None, r', out') -> wf_mlod_lod out'.
Proof.
  intros H. unfold mlod_lod.parse in H. parse_inv_reads H. u32_reads.
  match goal with
  | H : mlod_lod.parse_tags _ _ = _ |- _ =>
    apply parse_tags_wf in H; destruct H as (new & -> & Wtags & Heof)
  end.
  match goal with
  | H : for_each mlod_point.parse _ _ = _ |- _ =>
    pose proof (for_each_length _ _ _ H) as Lp;
    apply (for_each_Forall _ wf_mlod_point mlod_point_parse_wf) in H
  end.
  match goal with
  | H : for_each vector3.parse _ _ = _ |- _ =>
    pose proof (for_each_length _ _ _ H) as Ln;
    apply (for_each_Forall _ wf_vector3 vector3_parse_wf) in H
  end.
  match goal with
  | H : for_each mlod_face.parse _ _ = _ |- _ =>
    pose proof (for_each_length _ _ _ H) as Lf;
    apply (for_each_Forall _ wf_mlod_face mlod_face_parse_wf) in H
  end.
  lod_fields_in Lp. lod_fields_in Ln. lod_fields_in Lf.
  rewrite resize_length in Lp. rewrite resize_length in Ln.
  rewrite resize_length in Lf.
  match goal with
  | |- context [keep_tags ?n ?o] =>
    destruct (keep_tags_frame n o)
      as (F1 & F2 & F3 & F4 & F5 & F6 & F7 & F8 & F9 & F10 & F11 & F12 & F13);
    pose proof (keep_tags_property_tags n o) as Fp;
    pose proof (keep_tags_mass n o) as Fm
  end.
  unfold wf_mlod_lod.
  cbn [mlod_lod.with_resolution mlod_lod.signature mlod_lod.minor_version
       mlod_lod.major_version mlod_lod.num_points mlod_lod.num_face_normals
       mlod_lod.num_faces mlod_lod.flags mlod_lod.points mlod_lod.normals
       mlod_lod.faces mlod_lod.tag_sig mlod_lod.tags mlod_lod.resolution
       mlod_lod.property_tags mlod_lod.mass].
  rewrite F2, F3, F4, F5, F6, F7, F8, F9, F10, F13, Fp, Fm.
  cbn. rewrite Lp, Ln, Lf, !N2Nat.id.
  repeat conj_split; try assumption; reflexivity.
Qed.

Lemma for_each_Forall_on {A : Type} (P Q : A -> Prop) (p : parser A) :
  (forall r x r' x', P x -> p r x = (None, r', x') -> Q x') ->
  forall v r r' v',
    Forall P v -> for_each p r v = (None, r', v') -> Forall Q v'.
Proof.
  intros Hp v. induction v as [|x rest IH]; intros r r' v' HP H.
  - simpl in H. injection H as <- <-. constructor.
  - apply for_each_ok_inv in H. destruct H as (r1 & x1 & rest1 & H1 & H2 & ->).
    inversion HP; subst. constructor; eauto.
Qed.

Lemma Forall_repeat {A : Type} (P : A -> Prop) (d : A) (n : nat) :
  P d -> Forall P (repeat d n).
Proof. intros H. induction n; simpl; constructor; assumption. Qed.

Lemma decode_wf (bytes : list byte) r' doc :
  decode bytes = (None, r', doc) -> wf_mlod_p3d doc.
Proof.
  unfold decode. intros H. unfold mlod_p3d.parse in H. parse_inv_reads H.
  match goal with
  | H : p3d_header.parse _ _ = _ |- _ =>
    unfold p3d_header.parse in H; parse_inv_reads H
  end.
  u32_reads.
  match goal with
  | H : for_each mlod_lod.parse _ _ = _ |- _ =>
    pose proof (for_each_length _ _ _ H) as L;
    apply (for_each_Forall_on (fun l => l = mlod_lod.default) wf_mlod_lod
             mlod_lod.parse) in H
  end.
  - cbn in L. rewrite resize_length in L.
    unfold wf_mlod_p3d. cbn. rewrite L, N2Nat.id.
    repeat conj_split; try assumption; reflexivity.
  - intros ? x ? x1 -> Hx. exact (mlod_lod_parse_wf _ _ _ Hx).
  - cbn. rewrite resize_nil. now apply Forall_repeat.
Qed.

(** X5. A tag decoded without error holds exactly [data_length] payload
    bytes, its name has no NUL, and the decode consumed the [active] byte,
    the name and its NUL, the four bytes of the length and the payload:
    [6 + name.size() + data_length] bytes. *)
Theorem mlod_tag_parse_sizes r out r' out' :
  mlod_tag.parse r out = (None, r', out') ->
  length (mlod_tag.data out') = N.to_nat (mlod_tag.data_length out')
  /\ (mlod_tag.data_length out' < 2 ^ 32)%N
  /\ no_nul (arma_string.string (mlod_tag.tag_name out'))
  /\ binary_reader.current_offset r'
     = binary_reader.current_offset r + 6
       + length (arma_string.string (mlod_tag.tag_name out'))
       + N.to_nat (mlod_tag.data_length out').
Proof.
  intros H. pose proof (mlod_tag_parse_wf _ _ _ _ H) as (Hn & Hu & Hl).
  apply codec_ok_mlod_tag in H. destruct H as (_ & Ho & _).
  repeat conj_split.
  - rewrite Hl. now rewrite Nat2N.id.
  - exact Hu.
  - exact Hn.
  - rewrite Ho. unfold mlod_tag_bytes, arma_string_bytes.
    rewrite !length_app, (store_length (T:=byte)), (store_length (T:=N)),
      flat_map_store_byte.
    cbn [sizeof pod_byte pod_uint32 length]. rewrite Hl, Nat2N.id. lia.
Qed.

Lemma mlod_tag_parse_sizes_witness :
  let tag := snd (mlod_tag.parse
                    (binary_reader.mk lod_short_property 32) mlod_tag.default) in
  length (mlod_tag.data tag) = N.to_nat (mlod_tag.data_length tag).
Proof.
  apply (mlod_tag_parse_sizes (binary_reader.mk lod_short_property 32)
           mlod_tag.default (binary_reader.mk lod_short_property 50)).
  vm_compute. reflexivity.
Defined.

(** X6. In a LOD decoded without error the points, the normals and the
    faces are as many as [num_points], [num_face_normals] and [num_faces]
    say, whatever the LOD passed in held. *)
Theorem mlod_lod_parse_counts r out r' out' :
  mlod_lod.parse r out = (None, r', out') ->
  length (mlod_lod.points out') = N.to_nat (mlod_lod.num_points out')
  /\ length (mlod_lod.normals out') = N.to_nat (mlod_lod.num_face_normals out')
  /\ length (mlod_lod.faces out') = N.to_nat (mlod_lod.num_faces out').
Proof.
  intros H. unfold mlod_lod.parse in H. parse_inv_reads H.
  match goal with
  | H : mlod_lod.parse_tags _ _ = _ |- _ =>
    apply parse_tags_wf in H; destruct H as (new & -> & _ & _)
  end.
  match goal with
  | H : for_each mlod_point.parse _ _ = _ |- _ =>
    pose proof (for_each_length _ _ _ H) as Lp
  end.
  match goal with
  | H : for_each vector3.parse _ _ = _ |- _ =>
    pose proof (for_each_length _ _ _ H) as Ln
  end.
  match goal with
  | H : for_each mlod_face.parse _ _ = _ |- _ =>
    pose proof (for_each_length _ _ _ H) as Lf
  end.
  lod_fields_in Lp. lod_fields_in Ln. lod_fields_in Lf.
  rewrite resize_length in Lp. rewrite resize_length in Ln.
  rewrite resize_length in Lf.
  match goal with
  | |- context [keep_tags ?n ?o] =>
    destruct (keep_tags_frame n o)
      as (F1 & F2 & F3 & F4 & F5 & F6 & F7 & F8 & F9 & F10 & F11 & F12 & F13)
  end.
  cbn [mlod_lod.with_resolution mlod_lod.num_points mlod_lod.num_face_normals
       mlod_lod.num_faces mlod_lod.points mlod_lod.normals mlod_lod.faces].
  rewrite F4, F5, F6, F8, F9, F10. cbn.
  repeat conj_split; assumption.
Qed.

Lemma mlod_lod_parse_counts_witness :
  length (mlod_lod.points
            (snd (mlod_lod.parse (binary_reader.new lod_short_mass)
                                 mlod_lod.default))) = 3.
Proof.
  destruct (mlod_lod_parse_counts (binary_reader.new lod_short_mass)
              mlod_lod.default (binary_reader.mk lod_short_mass 121)
              (snd (mlod_lod.parse (binary_reader.new lod_short_mass)
                                   mlod_lod.default)))
    as (Lp & _).
  - vm_compute. reflexivity.
  - rewrite Lp. vm_compute. reflexivity.
Defined.

(** ** Edge cases of the document and of strings *)

Lemma p3d_header_failure_keeps_lod_count r out e r' out' :
  p3d_header.parse r out = (Some e, r', out') ->
  p3d_header.lod_count out' = p3d_header.lod_count out.
Proof.
  unfold p3d_header.parse. intros H.
  apply seq_err_inv in H. destruct H as [H|(r1 & o1 & H1 & H)].
  { apply read_field_err_inv in H. destruct H as (_ & _ & -> & _). reflexivity. }
  apply read_field_ok_inv in H1. destruct H1 as (v1 & _ & -> & _).
  apply seq_err_inv in H. destruct H as [H|(r2 & o2 & H2 & H)].
  { apply read_field_err_inv in H. destruct H as (_ & _ & -> & _). reflexivity. }
  apply read_field_ok_inv in H2. destruct H2 as (v2 & _ & -> & _).
  apply read_field_err_inv in H. destruct H as (_ & _ & -> & _). reflexivity.
Qed.

(** X7. Whenever [mlod_p3d::parse] returns, with an error or without, it
    has kept [lods.size() == header.lod_count]: a failed read of the header
    leaves both as they were, and once the header is read [lods] is resized
    to [lod_count] before any LOD is read.  (A [lods.resize] that cannot
    allocate throws, and [parse] does not return.) *)
Theorem lods_sized_by_lod_count r out e r' out' :
  length (mlod_p3d.lods out)
  = N.to_nat (p3d_header.lod_count (mlod_p3d.header out)) ->
  mlod_p3d.parse r out = (e, r', out') ->
  length (mlod_p3d.lods out')
  = N.to_nat (p3d_header.lod_count (mlod_p3d.header out')).
Proof.
  intros Hinv. unfold mlod_p3d.parse, seq.
  destruct (parse_field mlod_p3d.header mlod_p3d.with_header p3d_header.parse
              r out) as [[e1 r1] o1] eqn:E1.
  apply parse_field_inv in E1. destruct E1 as (h & E1 & ->).
  destruct e1 as [err|].
  - intros [= <- <- <-]. cbn.
    now rewrite (p3d_header_failure_keeps_lod_count _ _ _ _ _ E1).
  - unfold stmt.
    intros H. apply parse_field_inv in H. destruct H as (v & H & ->).
    apply for_each_length in H. cbn in *. rewrite H. apply resize_length.
Qed.

(** Scenario A cut after 60 bytes: the decode returns an error with the
    one LOD of the header in [lods]. *)
Lemma lods_sized_by_lod_count_witness :
  length (mlod_p3d.lods mlod_p3d.default)
  = N.to_nat (p3d_header.lod_count (mlod_p3d.header mlod_p3d.default))
  /\ mlod_p3d.parse (binary_reader.new (firstn 60 scenario_a))
                    mlod_p3d.default
     = (Some (mlod_error.mk "failed to read mlod_tag.active"),
        binary_reader.mk (firstn 60 scenario_a) 60,
        snd (decode (firstn 60 scenario_a)))
  /\ length (mlod_p3d.lods (snd (decode (firstn 60 scenario_a))))
     = N.to_nat
         (p3d_header.lod_count
            (mlod_p3d.header (snd (decode (firstn 60 scenario_a)))))
  /\ length (mlod_p3d.lods (snd (decode (firstn 60 scenario_a)))) = 1.
Proof.
  assert (H : mlod_p3d.parse (binary_reader.new (firstn 60 scenario_a))
                             mlod_p3d.default
              = (Some (mlod_error.mk "failed to read mlod_tag.active"),
                 binary_reader.mk (firstn 60 scenario_a) 60,
                 snd (decode (firstn 60 scenario_a))))
    by (vm_compute; reflexivity).
  split; [reflexivity|]. split; [exact H|]. split.
  - exact (lods_sized_by_lod_count _ mlod_p3d.default _ _ _ eq_refl H).
  - vm_compute. reflexivity.
Defined.

(** X8. On a buffer too short for the header, [main] exits with status 1,
    writes no file, and prints the error of the first header field that
    does not fit: [signature] below 4 bytes, [version] below 8, [lod_count]
    below 12. *)
Theorem main_on_short_header (bytes : list byte) :
  length bytes < 12 ->
  main bytes
  = (1,
     Some (if length bytes <? 4 then "failed to read p3d_header.signature"
           else if length bytes <? 8 then "failed to read p3d_header.version"
           else "failed to read p3d_header.lod_count"),
     None).
Proof.
  intros Hlen. rewrite main_decode.
  unfold decode, mlod_p3d.parse, seq, parse_field, p3d_header.parse, seq,
    read_field.
  cbn [mlod_p3d.header mlod_p3d.default].
  destruct (Nat.ltb_spec (length bytes) 4) as [H4|H4].
  { rewrite read_fails by (cbn; reader_arith). reflexivity. }
  rewrite read_succeeds by (cbn; reader_arith). cbv beta iota zeta.
  destruct (Nat.ltb_spec (length bytes) 8) as [H8|H8].
  { rewrite read_fails by (cbn; reader_arith). reflexivity. }
  rewrite read_succeeds by (cbn; reader_arith). cbv beta iota zeta.
  rewrite read_fails by (cbn; reader_arith). reflexivity.
Qed.

Lemma main_on_short_header_witness :
  main (lit "MLOD" ++ [x01; x01])
  = (1, Some "failed to read p3d_header.version", None).
Proof.
  apply (main_on_short_header (lit "MLOD" ++ [x01; x01])).
  vm_compute. lia.
Defined.

(** X9. A buffer of at least 12 bytes whose [lod_count] is 0 decodes to a
    document without LODs, 12 bytes consumed, whatever follows the header;
    [main] exits with status 0 and writes those 12 bytes. *)
Theorem decode_without_lods (bytes : list byte) :
  12 <= length bytes ->
  le_decode (firstn 4 (skipn 8 bytes)) = 0%N ->
  decode bytes
  = (None, binary_reader.mk bytes 12,
     mlod_p3d.mk
       (p3d_header.mk (load (firstn 4 bytes))
                      (le_decode (firstn 4 (skipn 4 bytes))) 0)
       [])
  /\ main bytes = (0, None, Some (firstn 12 bytes)).
Proof.
  intros Hlen Hzero.
  assert (D : decode bytes
              = (None, binary_reader.mk bytes 12,
                 mlod_p3d.mk
                   (p3d_header.mk (load (firstn 4 bytes))
                                  (le_decode (firstn 4 (skipn 4 bytes))) 0)
                   [])).
  { unfold decode, mlod_p3d.parse, seq, parse_field, p3d_header.parse, seq,
      read_field, stmt.
    cbn [mlod_p3d.header mlod_p3d.default].
    rewrite read_succeeds by (cbn; reader_arith). cbv beta iota zeta.
    rewrite read_succeeds by (cbn; reader_arith). cbv beta iota zeta.
    rewrite read_succeeds by (cbn; reader_arith). cbv beta iota zeta.
    cbn [binary_reader.new binary_reader.buf binary_reader.current_offset
         sizeof pod_uint32 pod_signature load Nat.add
         mlod_p3d.header mlod_p3d.lods mlod_p3d.with_header
         mlod_p3d.with_lods p3d_header.signature p3d_header.version
         p3d_header.lod_count p3d_header.with_signature
         p3d_header.with_version p3d_header.with_lod_count
         p3d_header.default].
    rewrite skipn_O, Hzero. reflexivity. }
  split; [exact D|].
  rewrite main_decode, D.
  destruct (decode_consumed _ _ _ D) as (E & _). rewrite E. reflexivity.
Qed.

Lemma decode_without_lods_witness :
  main (lit "MLOD" ++ [x01; x01; x00; x00] ++ [x00; x00; x00; x00] ++ lit "rest")
  = (0, None, Some (lit "MLOD" ++ [x01; x01; x00; x00] ++ [x00; x00; x00; x00])).
Proof.
  apply (decode_without_lods
           (lit "MLOD" ++ [x01; x01; x00; x00] ++ [x00; x00; x00; x00]
            ++ lit "rest")).
  - vm_compute. lia.
  - vm_compute. reflexivity.
Defined.

(** X10. A string with an embedded NUL does not survive [write] then
    [parse]: the parse returns the characters before the first NUL and
    stops after that NUL, the rest of what was written left unread. *)
Theorem arma_string_embedded_nul (a b : list char) (out : arma_string.t) :
  no_nul a ->
  arma_string.parse
    (binary_reader.new
       (binary_writer.data
          (arma_string.write binary_writer.new
                             (arma_string.mk (a ++ x00 :: b)))))
    out
  = (None,
     binary_reader.mk ((a ++ x00 :: b) ++ [x00]) (length a + 1),
     arma_string.mk a).
Proof.
  intros Ha.
  rewrite (@arma_string_write_appends _ _ writer_ok_new).
  cbn [appended binary_writer.data binary_writer.new app arma_string_bytes
       arma_string.string].
  rewrite (arma_string_parse_nul _ out a (b ++ [x00]) Ha); [reflexivity|].
  cbn [binary_reader.new binary_reader.buf binary_reader.current_offset skipn].
  now rewrite <- app_assoc.
Qed.

Lemma arma_string_embedded_nul_witness :
  arma_string.parse
    (binary_reader.new
       (binary_writer.data
          (arma_string.write binary_writer.new
                             (arma_string.mk (lit "ab" ++ x00 :: lit "cd")))))
    arma_string.default
  = (None,
     binary_reader.mk ((lit "ab" ++ x00 :: lit "cd") ++ [x00]) 3,
     arma_string.mk (lit "ab")).
Proof.
  apply (arma_string_embedded_nul (lit "ab") (lit "cd") arma_string.default).
  repeat constructor; discriminate.
Defined.

(** ** Parsing what was written *)

Lemma seq_step {T : Type} (p q : parser T) r out r1 out1 :
  p r out = (None, r1, out1) -> (p ;; q) r out = q r1 out1.
Proof. unfold seq. now intros ->. Qed.

Lemma parse_field_step {T F : Type} (get : T -> F) (set : F -> T -> T)
      (p : parser F) r out r1 v :
  p r (get out) = (None, r1, v) ->
  parse_field get set p r out = (None, r1, set v out).
Proof. unfold parse_field. now intros ->. Qed.

Lemma read_field_yields {T F : Type} `{HF : pod F} {HF_ok : pod_ok F}
      (get : T -> F) (set : F -> T -> T) msg r (out : T) (v : F) tail :
  0 < sizeof F ->
  unread r = store v ++ tail ->
  load (store v) = v ->
  exists r',
    read_field get set msg r out = (None, r', set v out) /\ unread r' = tail.
Proof.
  intros Hpos U L.
  destruct (read_yields r (get out) v tail Hpos U L) as (r' & E & U' & _).
  exists r'. unfold read_field. rewrite E. auto.
Qed.

Lemma for_each_yields {A : Type} (p : parser A) (b : A -> list byte)
      (xs : list A) :
  forall l r tail,
    Forall2 (fun o x => yields p b x o) l xs ->
    unread r = flat_map b xs ++ tail ->
    exists r', for_each p r l = (None, r', xs) /\ unread r' = tail.
Proof.
  induction xs as [|x xs IH]; intros l r tail HF U.
  - inversion HF; subst. exists r. split; [reflexivity|exact U].
  - inversion HF as [|o ? l' ? Hx Hrest]; subst.
    change (flat_map b (x :: xs)) with (b x ++ flat_map b xs) in U.
    rewrite <- app_assoc in U.
    destruct (Hx r _ U) as (r1 & E1 & U1).
    destruct (IH l' r1 tail Hrest U1) as (r2 & E2 & U2).
    exists r2. cbn [for_each]. rewrite E1, E2. auto.
Qed.

Lemma Forall2_yields {A : Type} (p : parser A) (b : A -> list byte)
      (Q : A -> Prop) :
  (forall x o, Q x -> yields p b x o) ->
  forall xs l,
    Forall Q xs -> length l = length xs ->
    Forall2 (fun o x => yields p b x o) l xs.
Proof.
  intros Hp xs. induction xs as [|x xs IH]; intros [|o l] HQ HL;
    try discriminate; constructor.
  - apply Hp. now inversion HQ.
  - apply IH; [now inversion HQ|]. simpl in HL. lia.
Qed.

(** One step of a parser on a reader whose unread bytes are known. *)
Ltac valid :=
  first [ apply load_store_u32; assumption
        | apply load_store_signature
        | apply load_store_byte
        | apply load_store_vert_descriptor; assumption ].

Ltac step_read :=
  lazymatch goal with
  | U : unread ?r = store ?v ++ ?t
    |- exists _, @seq _ (@read_field _ _ _ ?g ?s ?m) _ ?r ?o = _ /\ _ =>
    let r1 := fresh "r" in
    let E := fresh "E" in
    let U1 := fresh "U" in
    destruct (read_field_yields g s m r o v t) as (r1 & E & U1);
    [cbn; lia|exact U|valid|];
    clear U; rewrite (seq_step _ _ _ _ _ _ E); clear E
  | U : unread ?r = store ?v ++ ?t
    |- exists _, @read_field _ _ _ ?g ?s ?m ?r ?o = _ /\ _ =>
    let r1 := fresh "r" in
    let E := fresh "E" in
    let U1 := fresh "U" in
    destruct (read_field_yields g s m r o v t) as (r1 & E & U1);
    [cbn; lia|exact U|valid|];
    clear U; exists r1; split; [rewrite E; clear E|exact U1]
  end.

Lemma vector3_yields (x out : vector3.t) :
  wf_vector3 x -> yields vector3.parse vector3_bytes x out.
Proof.
  intros (Hx & Hy & Hz) r tail U.
  unfold vector3_bytes in U. rewrite <- !app_assoc in U.
  unfold vector3.parse. do 3 step_read.
  destruct x; reflexivity.
Qed.

Lemma arma_string_yields (x out : arma_string.t) :
  wf_arma_string x -> yields arma_string.parse arma_string_bytes x out.
Proof.
  intros Hx r tail U. unfold arma_string_bytes in U.
  rewrite <- app_assoc in U. cbn [app] in U.
  rewrite (arma_string_parse_nul r out _ _ Hx U).
  eexists. split; [destruct x; reflexivity|].
  unfold unread in *. cbn [binary_reader.buf binary_reader.current_offset].
  rewrite <- Nat.add_assoc, skipn_add, U, skipn_app, skipn_all2 by lia.
  replace (_ - _) with 1 by lia. reflexivity.
Qed.

Lemma mlod_point_yields (x out : mlod_point.t) :
  wf_mlod_point x -> yields mlod_point.parse mlod_point_bytes x out.
Proof.
  intros (Hp & Hf) r tail U.
  unfold mlod_point_bytes in U. rewrite <- !app_assoc in U.
  unfold mlod_point.parse.
  destruct (vector3_yields _ (mlod_point.pos out) Hp r _ U) as (r1 & E1 & U1).
  rewrite (seq_step _ _ _ _ _ _ (parse_field_step _ _ _ _ _ _ _ E1)).
  step_read. destruct x; reflexivity.
Qed.

Lemma stmt_step {T : Type} (f : T -> T) (q : parser T) r out :
  (stmt f ;; q) r out = q r (f out).
Proof. reflexivity. Qed.

Lemma read_value_yields {F : Type} `{HF : pod F} {HF_ok : pod_ok F} msg
      (v out : F) :
  0 < sizeof F -> load (store v) = v -> yields (read_value msg) store v out.
Proof.
  intros Hpos L r tail U.
  exact (read_field_yields (fun x => x) (fun v _ => v) msg r out v tail Hpos U L).
Qed.

Lemma for_each_yields_all {A : Type} (p : parser A) (b : A -> list byte)
      (Q : A -> Prop) :
  (forall x o, Q x -> yields p b x o) ->
  forall xs l,
    Forall Q xs -> length l = length xs ->
    yields (for_each p) (flat_map b) xs l.
Proof.
  intros Hp xs l HQ HL r tail U.
  apply (for_each_yields p b xs l r tail); [|exact U].
  exact (Forall2_yields p b Q Hp xs l HQ HL).
Qed.

(** A step through a sub-parser, [Y] being its [yields] fact for the field
    it is run on. *)
Ltac step_with Y :=
  lazymatch goal with
  | U : unread ?r = _
    |- exists _, @seq _ (@parse_field _ _ ?g ?s ?p) _ ?r ?o = _ /\ _ =>
    let r1 := fresh "r" in
    let E := fresh "E" in
    let U1 := fresh "U" in
    destruct (Y r _ U) as (r1 & E & U1);
    clear U;
    rewrite (seq_step _ _ _ _ _ _ (parse_field_step g s p r o r1 _ E)); clear E
  | U : unread ?r = _
    |- exists _, @parse_field _ _ ?g ?s ?p ?r ?o = _ /\ _ =>
    let r1 := fresh "r" in
    let E := fresh "E" in
    let U1 := fresh "U" in
    destruct (Y r _ U) as (r1 & E & U1);
    clear U; exists r1; split;
    [rewrite (parse_field_step g s p r o r1 _ E); clear E|exact U1]
  end.

(** The same with [Hy : forall out, yields p b x out]. *)
Ltac step_field Hy :=
  lazymatch goal with
  | |- exists _, @seq _ (@parse_field _ _ ?g _ _) _ _ ?o = _ /\ _ =>
    step_with (Hy (g o))
  | |- exists _, @parse_field _ _ ?g _ _ _ ?o = _ /\ _ =>
    step_with (Hy (g o))
  end.

(** The same through a [for_each], [L] needing the length of the vector. *)
Ltac step_list L tac :=
  let Y := fresh "Y" in
  let HL := fresh "HL" in
  lazymatch goal with
  | |- exists _, @seq _ (@parse_field _ _ ?g _ _) _ _ ?o = _ /\ _ =>
    pose proof (L (g o)) as Y
  | |- exists _, @parse_field _ _ ?g _ _ _ ?o = _ /\ _ =>
    pose proof (L (g o)) as Y
  end;
  lazymatch type of Y with
  | ?A -> _ => assert (HL : A) by tac; specialize (Y HL); clear HL
  end;
  step_with Y; clear Y.

Lemma vert_descriptors_yield msg (xs l : list vert_descriptor.t) :
  Forall wf_vert_descriptor xs -> length l = length xs ->
  yields (for_each (read_value msg)) (flat_map store) xs l.
Proof.
  apply (for_each_yields_all (read_value msg) store wf_vert_descriptor).
  intros x o Hx. apply read_value_yields; [cbn; lia|].
  now apply load_store_vert_descriptor.
Qed.

Lemma bytes_yield msg (xs l : list byte) :
  length l = length xs ->
  yields (for_each (read_value msg)) (flat_map store) xs l.
Proof.
  apply (for_each_yields_all (read_value msg) store (fun _ => True)).
  - intros x o _. apply read_value_yields; [cbn; lia|reflexivity].
  - apply Forall_forall. auto.
Qed.

Lemma mlod_face_yields (x out : mlod_face.t) :
  wf_mlod_face x -> yields mlod_face.parse mlod_face_bytes x out.
Proof.
  intros (Ht & Hl & Hv & Hf & Htex & Hmat) r tail U.
  unfold mlod_face_bytes in U. rewrite <- !app_assoc in U.
  unfold mlod_face.parse.
  step_read. rewrite stmt_step.
  step_list (fun o => vert_descriptors_yield
                        "failed to read mlod_face.vertices[n]"
                        (mlod_face.vertices x) o Hv)
            ltac:(cbn [mlod_face.vertices mlod_face.with_vertices];
                  rewrite resize_length; symmetry; exact Hl).
  step_read.
  step_field (fun o => arma_string_yields (mlod_face.texture_name x) o Htex).
  step_field (fun o => arma_string_yields (mlod_face.material_name x) o Hmat).
  destruct x; reflexivity.
Qed.

Lemma mlod_tag_yields (x out : mlod_tag.t) :
  wf_mlod_tag x -> yields mlod_tag.parse mlod_tag_bytes x out.
Proof.
  intros (Hn & Hu & Hl) r tail U.
  unfold mlod_tag_bytes in U. rewrite <- !app_assoc in U.
  unfold mlod_tag.parse.
  step_read.
  step_field (fun o => arma_string_yields (mlod_tag.tag_name x) o Hn).
  step_read. rewrite stmt_step.
  step_list (fun o => bytes_yield "failed to read mlod_tag.data[m]"
                        (mlod_tag.data x) o)
            ltac:(cbn [mlod_tag.data mlod_tag.with_data mlod_tag.data_length
                       mlod_tag.with_data_length];
                  rewrite resize_length, Hl; apply Nat2N.id).
  destruct x; reflexivity.
Qed.

Lemma p3d_header_yields (x out : p3d_header.t) :
  is_u32 (p3d_header.version x) -> is_u32 (p3d_header.lod_count x) ->
  yields p3d_header.parse p3d_header_bytes x out.
Proof.
  intros Hv Hc r tail U.
  unfold p3d_header_bytes in U. rewrite <- !app_assoc in U.
  unfold p3d_header.parse. do 3 step_read.
  destruct x; reflexivity.
Qed.

Lemma tag_loop_yields (pre : list mlod_tag.t) (t : mlod_tag.t) :
  Forall wf_mlod_tag (pre ++ [t]) ->
  Forall (fun x => mlod_tag.named "#EndOfFile#" x = false) pre ->
  mlod_tag.named "#EndOfFile#" t = true ->
  forall fuel r out tail,
    length pre < fuel ->
    unread r = flat_map mlod_tag_bytes (pre ++ [t]) ++ tail ->
    exists r',
      mlod_lod.tag_loop fuel r out
      = Some (None, r', keep_tags (pre ++ [t]) out)
      /\ unread r' = tail.
Proof.
  induction pre as [|a pre IH]; intros Hwf Hpre Ht [|fuel] r out tail Hfuel U;
    try (simpl in Hfuel; lia); cbn [mlod_lod.tag_loop].
  - cbn [app] in *.
    change (flat_map mlod_tag_bytes [t]) with (mlod_tag_bytes t ++ []) in U.
    rewrite app_nil_r in U.
    destruct (mlod_tag_yields t mlod_tag.default
                ltac:(now inversion Hwf) r tail U) as (r1 & E & U1).
    rewrite E, Ht. exists r1. auto.
  - cbn [app] in *.
    change (flat_map mlod_tag_bytes (a :: pre ++ [t]))
      with (mlod_tag_bytes a ++ flat_map mlod_tag_bytes (pre ++ [t])) in U.
    rewrite <- app_assoc in U.
    inversion Hwf as [|? ? Ha Hwf']; subst.
    inversion Hpre as [|? ? Na Hpre']; subst.
    destruct (mlod_tag_yields a mlod_tag.default Ha r _ U) as (r1 & E & U1).
    rewrite E, Na.
    apply (IH Hwf' Hpre' Ht fuel r1 (mlod_lod.keep_tag a out) tail);
      [simpl in Hfuel; lia|exact U1].
Qed.

Lemma flat_map_length_ge {A : Type} (b : A -> list byte) (l : list A) :
  (forall x, 1 <= length (b x)) -> length l <= length (flat_map b l).
Proof.
  intros Hb. induction l as [|x l IH]; [apply Nat.le_refl|].
  change (flat_map b (x :: l)) with (b x ++ flat_map b l).
  rewrite length_app. specialize (Hb x). simpl. lia.
Qed.

Lemma parse_tags_yields (tags : list mlod_tag.t) (out : mlod_lod.t) :
  eof_terminated tags -> Forall wf_mlod_tag tags ->
  forall r tail,
    unread r = flat_map mlod_tag_bytes tags ++ tail ->
    exists r',
      mlod_lod.parse_tags r out = (None, r', keep_tags tags out)
      /\ unread r' = tail.
Proof.
  intros (pre & t & -> & Hpre & Ht) Hwf r tail U.
  unfold mlod_lod.parse_tags.
  destruct (tag_loop_yields pre t Hwf Hpre Ht
              (S (binary_reader.remaining r)) r out tail) as (r1 & E & U1);
    [|exact U|].
  - apply (f_equal (@length byte)) in U. unfold unread in U.
    rewrite length_skipn, length_app in U.
    pose proof (flat_map_length_ge mlod_tag_bytes (pre ++ [t])
                  mlod_tag_bytes_length) as G.
    rewrite length_app in G. simpl in G.
    unfold binary_reader.remaining, binary_reader.size. lia.
  - rewrite E. exists r1. auto.
Qed.

Lemma Forall2_repeat {A B : Type} (R : A -> B -> Prop) (Q : B -> Prop)
      (d : A) :
  (forall x, Q x -> R d x) ->
  forall xs, Forall Q xs -> Forall2 R (repeat d (length xs)) xs.
Proof.
  intros HR xs HQ. induction HQ; simpl; constructor; auto.
Qed.

Lemma mlod_lod_ext (a b : mlod_lod.t) :
  mlod_lod.signature a = mlod_lod.signature b ->
  mlod_lod.minor_version a = mlod_lod.minor_version b ->
  mlod_lod.major_version a = mlod_lod.major_version b ->
  mlod_lod.num_points a = mlod_lod.num_points b ->
  mlod_lod.num_face_normals a = mlod_lod.num_face_normals b ->
  mlod_lod.num_faces a = mlod_lod.num_faces b ->
  mlod_lod.flags a = mlod_lod.flags b ->
  mlod_lod.points a = mlod_lod.points b ->
  mlod_lod.normals a = mlod_lod.normals b ->
  mlod_lod.faces a = mlod_lod.faces b ->
  mlod_lod.tag_sig a = mlod_lod.tag_sig b ->
  mlod_lod.tags a = mlod_lod.tags b ->
  mlod_lod.resolution a = mlod_lod.resolution b ->
  mlod_lod.property_tags a = mlod_lod.property_tags b ->
  mlod_lod.mass a = mlod_lod.mass b ->
  a = b.
Proof. destruct a, b; cbn; intros; subst; reflexivity. Qed.

Lemma mlod_lod_yields (x : mlod_lod.t) :
  wf_mlod_lod x -> yields mlod_lod.parse mlod_lod_bytes x mlod_lod.default.
Proof.
  intros (H1 & H2 & H3 & H4 & H5 & H6 & Lp & Ln & Lf & Wp & Wn & Wf & He & Wt
          & H7 & Hprop & Hmass) r tail U.
  unfold mlod_lod_bytes in U. rewrite <- !app_assoc in U.
  unfold mlod_lod.parse.
  do 7 step_read. rewrite stmt_step.
  step_list (fun o => for_each_yields_all mlod_point.parse mlod_point_bytes
                        wf_mlod_point
                        (fun x o H => mlod_point_yields x o H)
                        (mlod_lod.points x) o Wp)
            ltac:(cbn -[resize N.to_nat N.of_nat];
                  rewrite resize_length, Lp; apply Nat2N.id).
  rewrite stmt_step.
  step_list (fun o => for_each_yields_all vector3.parse vector3_bytes
                        wf_vector3
                        (fun x o H => vector3_yields x o H)
                        (mlod_lod.normals x) o Wn)
            ltac:(cbn -[resize N.to_nat N.of_nat];
                  rewrite resize_length, Ln; apply Nat2N.id).
  rewrite stmt_step.
  step_list (fun o => for_each_yields_all mlod_face.parse mlod_face_bytes
                        wf_mlod_face
                        (fun x o H => mlod_face_yields x o H)
                        (mlod_lod.faces x) o Wf)
            ltac:(cbn -[resize N.to_nat N.of_nat];
                  rewrite resize_length, Lf; apply Nat2N.id).
  step_read.
  match goal with
  | U : unread ?r = _ |- exists _, (mlod_lod.parse_tags ;; _) ?r ?o = _ /\ _ =>
    destruct (parse_tags_yields (mlod_lod.tags x) o He Wt r _ U)
      as (rt & Et & Ut);
    clear U; rewrite (seq_step _ _ _ _ _ _ Et); clear Et
  end.
  step_read. f_equal.
  match goal with
  | |- mlod_lod.with_resolution _ (keep_tags _ ?o) = _ => set (O := o)
  end.
  pose proof (keep_tags_frame (mlod_lod.tags x) O) as F. cbv zeta in F.
  destruct F as (F1 & F2 & F3 & F4 & F5 & F6 & F7 & F8 & F9 & F10 & F11
                 & F12 & F13).
  pose proof (keep_tags_property_tags (mlod_lod.tags x) O) as Fp.
  pose proof (keep_tags_mass (mlod_lod.tags x) O) as Fm.
  apply mlod_lod_ext;
    cbn [mlod_lod.with_resolution mlod_lod.signature mlod_lod.minor_version
         mlod_lod.major_version mlod_lod.num_points mlod_lod.num_face_normals
         mlod_lod.num_faces mlod_lod.flags mlod_lod.points mlod_lod.normals
         mlod_lod.faces mlod_lod.tag_sig mlod_lod.tags mlod_lod.resolution
         mlod_lod.property_tags mlod_lod.mass];
    first [ reflexivity
          | rewrite Fp, Hprop; reflexivity
          | rewrite Fm, Hmass; reflexivity
          | rewrite F13; reflexivity
          | rewrite F1 | rewrite F2 | rewrite F3 | rewrite F4 | rewrite F5
          | rewrite F6 | rewrite F7 | rewrite F8 | rewrite F9 | rewrite F10
          | rewrite F11 ];
    reflexivity.
Qed.

Lemma mlod_p3d_yields (x : mlod_p3d.t) :
  wf_mlod_p3d x -> yields mlod_p3d.parse mlod_p3d_bytes x mlod_p3d.default.
Proof.
  intros (Hv & Hc & Hl & Hw) r tail U.
  unfold mlod_p3d_bytes in U. rewrite <- !app_assoc in U.
  unfold mlod_p3d.parse.
  step_field (fun o => p3d_header_yields (mlod_p3d.header x) o Hv Hc).
  rewrite stmt_step.
  match goal with
  | |- exists _, parse_field ?g ?s ?p ?r ?o = _ /\ _ =>
    assert (Y : yields (for_each mlod_lod.parse) (flat_map mlod_lod_bytes)
                       (mlod_p3d.lods x) (g o))
  end.
  { intros r1 tail1 U1.
    apply (for_each_yields mlod_lod.parse mlod_lod_bytes); [|exact U1].
    cbn [mlod_p3d.lods mlod_p3d.with_lods mlod_p3d.header
         mlod_p3d.with_header mlod_p3d.default].
    rewrite resize_nil, Hl, Nat2N.id.
    apply (Forall2_repeat _ wf_mlod_lod); [|exact Hw].
    intros l Wl. now apply mlod_lod_yields. }
  step_with Y.
  destruct x; reflexivity.
Qed.

Lemma decode_encode (doc : mlod_p3d.t) :
  wf_mlod_p3d doc ->
  decode (encode doc)
  = (None, binary_reader.mk (encode doc) (length (encode doc)), doc).
Proof.
  intros Hw.
  destruct (mlod_p3d_yields doc Hw (binary_reader.new (encode doc)) [])
    as (r' & E & U).
  { rewrite app_nil_r. apply encode_bytes. }
  fold (decode (encode doc)) in E.
  destruct (decode_consumed (encode doc) r' doc E) as (_ & Hle & Hb).
  apply (f_equal (@length byte)) in U. unfold unread in U.
  rewrite length_skipn, Hb in U. simpl in U.
  rewrite E. destruct r' as [b o]. cbn in Hle, Hb, U. subst b.
  replace o with (length (encode doc)) by lia. reflexivity.
Qed.

(** ** Decoding what was encoded *)

(** X11. A document whose integers fit 32 bits, whose counts are the
    lengths of its vectors, whose strings hold no NUL, whose faces have four
    vertices, whose tags stop at the first [#EndOfFile#] tag and whose
    converted tags are those of its tags, is decoded back from its encoding:
    the decode succeeds, consumes the whole encoding and returns the
    document, and [main] run on the encoding writes it out unchanged. *)
Theorem decode_after_encode (doc : mlod_p3d.t) :
  wf_mlod_p3d doc ->
  decode (encode doc)
  = (None, binary_reader.mk (encode doc) (length (encode doc)), doc)
  /\ main (encode doc) = (0, None, Some (encode doc)).
Proof.
  intros Hw. pose proof (decode_encode doc Hw) as E.
  split; [exact E|]. rewrite main_decode, E. reflexivity.
Qed.

Lemma decode_after_encode_witness :
  wf_mlod_p3d (snd (decode scenario_a))
  /\ decode (encode (snd (decode scenario_a)))
     = (None,
        binary_reader.mk (encode (snd (decode scenario_a)))
                         (length (encode (snd (decode scenario_a)))),
        snd (decode scenario_a))
  /\ main (encode (snd (decode scenario_a)))
     = (0, None, Some (encode (snd (decode scenario_a)))).
Proof.
  assert (W : wf_mlod_p3d (snd (decode scenario_a))).
  { apply (decode_wf scenario_a (binary_reader.mk scenario_a 81)).
    vm_compute. reflexivity. }
  split; [exact W|].
  exact (decode_after_encode (snd (decode scenario_a)) W).
Defined.

(** X12. The file that [main] writes is a fixed point of [main]: run on
    its own output, [main] succeeds and writes the same bytes again, and the
    output decodes to the document the input decoded to. *)
Theorem main_output_is_fixed_point (bytes out : list byte) :
  main bytes = (0, None, Some out) ->
  main out = (0, None, Some out)
  /\ fst (fst (decode out)) = None
  /\ snd (decode out) = snd (decode bytes)
  /\ binary_reader.current_offset (snd (fst (decode out))) = length out.
Proof.
  rewrite main_decode.
  destruct (decode bytes) as [[[e|] r'] doc] eqn:E; [discriminate|].
  intros [= <-].
  pose proof (decode_encode doc (decode_wf bytes r' doc E)) as D.
  rewrite main_decode, D. cbn [fst snd binary_reader.current_offset].
  auto.
Qed.

Lemma main_output_is_fixed_point_witness :
  main (scenario_a ++ [x07]) = (0, None, Some scenario_a)
  /\ main scenario_a = (0, None, Some scenario_a)
  /\ fst (fst (decode scenario_a)) = None
  /\ snd (decode scenario_a) = snd (decode (scenario_a ++ [x07]))
  /\ binary_reader.current_offset (snd (fst (decode scenario_a)))
     = length scenario_a.
Proof.
  assert (H : main (scenario_a ++ [x07]) = (0, None, Some scenario_a))
    by (vm_compute; reflexivity).
  split; [exact H|].
  exact (main_output_is_fixed_point (scenario_a ++ [x07]) scenario_a H).
Defined.

(** X13. The documents a successful decode can return are exactly the
    well-formed ones: every decoded document has its integers within 32
    bits, its vectors of the length of their counts, four vertices a face,
    NUL-free strings, tags ending at the first [#EndOfFile#] and converted
    tags computed from the tags; and every such document is returned by the
    decode of some buffer. *)
Theorem decoded_documents_are_the_well_formed_ones (doc : mlod_p3d.t) :
  (exists bytes r', decode bytes = (None, r', doc)) <-> wf_mlod_p3d doc.
Proof.
  split.
  - intros (bytes & r' & E). exact (decode_wf bytes r' doc E).
  - intros Hw. exists (encode doc). eexists. exact (decode_encode doc Hw).
Qed.

(** ** Which read a failed decode ran out of data at *)

Lemma vector3_parse_fails r out e r' out' :
  vector3.parse r out = (Some e, r', out') ->
  vector3_fails r (mlod_error.error e) r'.
Proof.
  unfold vector3.parse. intros H.
  apply seq_err_inv in H. destruct H as [H|(r1 & o1 & H1 & H)].
  { apply read_field_err_inv in H. destruct H as (-> & -> & _ & L).
    now apply vector3_fails_x. }
  apply read_field_ok_inv in H1. destruct H1 as (x & _ & -> & C1).
  apply seq_err_inv in H. destruct H as [H|(r2 & o2 & H2 & H)].
  { apply read_field_err_inv in H. destruct H as (-> & -> & _ & L).
    now apply (@vector3_fails_y r x r1). }
  apply read_field_ok_inv in H2. destruct H2 as (y & _ & -> & C2).
  apply read_field_err_inv in H. destruct H as (-> & -> & _ & L).
  apply (@vector3_fails_z r x y r2); [|exact L].
  exact (consumed_app C1 C2).
Qed.

Lemma arma_string_parse_fails r out e r' out' :
  arma_string.parse r out = (Some e, r', out') ->
  arma_string_fails r (mlod_error.error e) r'.
Proof.
  intros H.
  destruct (nul_split (unread r)) as [Hn|(s & tail & E & Hs)].
  - unfold unread in Hn. rewrite (arma_string_parse_no_nul r out Hn) in H.
    injection H as <- <- _.
    apply (@arma_string_fails_char r (unread r)); [exact Hn| |].
    + unfold consumed, unread.
      cbn [binary_reader.buf binary_reader.current_offset].
      repeat split.
      rewrite (skipn_all2 (n := _ + _)), app_nil_r; [reflexivity|].
      rewrite length_skipn. lia.
    + unfold lacks, binary_reader.size.
      cbn [binary_reader.buf binary_reader.current_offset].
      rewrite length_skipn. lia.
  - unfold unread in E. rewrite (arma_string_parse_nul r out s tail Hs E) in H.
    discriminate.
Qed.

(** The element at which a [for] loop over a vector returns an error, the
    elements before it read in full. *)
Lemma for_each_err_inv {A : Type} (P Q : A -> Prop) (p : parser A)
      (b : A -> list byte) :
  (forall r x r' x',
      P x -> p r x = (None, r', x') -> Q x' /\ consumed r (b x') r') ->
  forall l r e r' l',
    Forall P l ->
    for_each p r l = (Some e, r', l') ->
    exists done r1 x x',
      length done < length l
      /\ Forall Q done
      /\ consumed r (flat_map b done) r1
      /\ P x
      /\ p r1 x = (Some e, r', x').
Proof.
  intros Hp. induction l as [|x rest IH]; intros r e r' l' HP H.
  - discriminate.
  - inversion HP as [|? ? Px Prest]; subst. cbn [for_each] in H.
    destruct (p r x) as [[[e1|] r1] x1] eqn:E.
    + injection H as <- <- _.
      exists [], r, x, x1. cbn [length flat_map].
      refine (conj _ (conj _ (conj (consumed_refl r) (conj Px E)))); [lia|].
      constructor.
    + destruct (for_each p r1 rest) as [[e2 r2] rest2] eqn:E2.
      injection H as -> -> _.
      destruct (IH r1 e r' rest2 Prest E2)
        as (done & r3 & y & y' & Hl & HQ & C & Py & Hy).
      destruct (Hp r x r1 x1 Px E) as (Qx & Cx).
      exists (x1 :: done), r3, y, y'.
      refine (conj _ (conj _ (conj _ (conj Py Hy)))).
      * cbn [length]. lia.
      * now constructor.
      * change (flat_map b (x1 :: done)) with (b x1 ++ flat_map b done).
        exact (consumed_app Cx C).
Qed.

Ltac fails_split H :=
  let r1 := fresh "r" in
  let o1 := fresh "o" in
  let H1 := fresh "S" in
  apply seq_err_inv in H; destruct H as [H|(r1 & o1 & H1 & H)].

Ltac fails_read H :=
  let L := fresh "L" in
  apply read_field_err_inv in H; destruct H as (-> & -> & _ & L);
  cbn [mlod_error.error].

Ltac reads_ok H :=
  let v := fresh "v" in
  let R := fresh "R" in
  let C := fresh "C" in
  apply read_field_ok_inv in H; destruct H as (v & R & -> & C).

Lemma p3d_header_parse_fails r out e r' out' :
  p3d_header.parse r out = (Some e, r', out') ->
  p3d_header_fails r (mlod_error.error e) r'.
Proof.
  unfold p3d_header.parse. intros H.
  fails_split H.
  { fails_read H. now apply p3d_header_fails_signature. }
  reads_ok S. fails_split H.
  { fails_read H.
    match goal with
    | |- p3d_header_fails _ _ ?r1 =>
      apply (@p3d_header_fails_version r (p3d_header.with_signature v out) r1)
    end; assumption. }
  reads_ok S. fails_read H.
  match goal with
  | |- p3d_header_fails _ _ ?r1 =>
    apply (@p3d_header_fails_lod_count r
             (p3d_header.with_version v0 (p3d_header.with_signature v out)) r1)
  end; [|assumption].
  cbn [p3d_header.signature p3d_header.version p3d_header.with_signature
       p3d_header.with_version].
  chain.
Qed.

Lemma mlod_point_parse_fails r out e r' out' :
  mlod_point.parse r out = (Some e, r', out') ->
  mlod_point_fails r (mlod_error.error e) r'.
Proof.
  unfold mlod_point.parse. intros H.
  fails_split H.
  { apply parse_field_inv in H. destruct H as (v & H & _).
    apply mlod_point_fails_pos. exact (vector3_parse_fails _ _ _ _ _ H). }
  apply parse_field_inv in S. destruct S as (pos & S & ->).
  fails_read H.
  apply (@mlod_point_fails_flags r pos); [|exact (codec_ok_vector3 _ _ _ _ S)|exact L].
  exact (vector3_parse_wf _ _ _ _ S).
Qed.

(** The failing read is the one the parser is at: the constructor [c] of
    the member, for the object [o] as it is filled so far. *)
Ltac fails_at H c :=
  lazymatch type of H with
  | _ _ ?o = _ => fails_read H; apply (c _ o)
  end.

Ltac face_fields :=
  cbn [mlod_face.face_type mlod_face.vertices mlod_face.face_flags
       mlod_face.texture_name mlod_face.material_name
       mlod_face.with_face_type mlod_face.with_vertices
       mlod_face.with_face_flags mlod_face.with_texture_name
       mlod_face.with_material_name] in *.

Lemma vertices_read msg r (l : list vert_descriptor.t) r' l' :
  for_each (read_value msg) r l = (None, r', l') ->
  length l' = length l
  /\ Forall wf_vert_descriptor l'
  /\ consumed r (flat_map store l') r'.
Proof.
  intros H. split; [eapply for_each_length; exact H|]. split.
  - apply (for_each_Forall (read_value msg) wf_vert_descriptor) in H;
      [exact H|].
    intros r0 x r1 x'. apply read_value_vert_descriptor_wf.
  - eapply for_each_consumed in H; [exact H|apply codec_ok_read_value].
Qed.

Lemma mlod_face_parse_fails r out e r' out' :
  mlod_face.parse r out = (Some e, r', out') ->
  mlod_face_fails r (mlod_error.error e) r'.
Proof.
  unfold mlod_face.parse. intros H.
  fails_split H.
  { fails_read H. now apply mlod_face_fails_face_type. }
  reads_ok S. rewrite stmt_step in H.
  fails_split H.
  { apply parse_field_inv in H. destruct H as (vs & H & _).
    apply (for_each_err_inv (fun _ => True) wf_vert_descriptor _ store) in H.
    - destruct H as (done & r1 & x & x' & Hl & HQ & Cd & _ & H).
      unfold read_value in H. fails_read H. face_fields.
      rewrite resize_length in Hl.
      apply (@mlod_face_fails_vertices r v done r1); auto.
      exact (consumed_app C Cd).
    - intros r1 x r2 x' _ Hx. split.
      + exact (read_value_vert_descriptor_wf _ _ _ _ _ Hx).
      + eapply codec_ok_read_value; exact Hx.
    - apply Forall_forall. trivial. }
  apply parse_field_inv in S. destruct S as (vs & S & ->).
  apply vertices_read in S. destruct S as (Hl & Hv & Cv).
  face_fields. rewrite resize_length in Hl.
  fails_split H.
  { fails_at H (@mlod_face_fails_face_flags); face_fields; auto.
    chain. }
  reads_ok S.
  fails_split H.
  { apply parse_field_inv in H. destruct H as (s & H & _).
    apply arma_string_parse_fails in H.
    match goal with
    | H : arma_string_fails _ _ _ |- mlod_face_fails _ _ _ =>
      match type of H with
      | arma_string_fails ?r1 _ _ =>
        match goal with
        | S : consumed _ (store ?fl) r1 |- _ =>
          apply (@mlod_face_fails_texture_name r
                   (mlod_face.mk v vs fl arma_string.default
                                 arma_string.default) r1);
          face_fields; auto; chain
        end
      end
    end. }
  apply parse_field_inv in S. destruct S as (tex & S & ->).
  apply parse_field_inv in H. destruct H as (s & H & _).
  apply arma_string_parse_fails in H.
  match type of H with
  | arma_string_fails ?r1 _ _ =>
    match goal with
    | C1 : consumed _ (store ?fl) _ |- _ =>
      apply (@mlod_face_fails_material_name r
               (mlod_face.mk v vs fl tex arma_string.default) r1);
      face_fields; auto
    end
  end.
  - exact (arma_string_parse_wf _ _ _ _ S).
  - apply codec_ok_arma_string in S. chain.
Qed.

Ltac tag_fields :=
  cbn [mlod_tag.active mlod_tag.tag_name mlod_tag.data_length mlod_tag.data
       mlod_tag.with_active mlod_tag.with_tag_name mlod_tag.with_data_length
       mlod_tag.with_data] in *.

Lemma mlod_tag_parse_fails r out e r' out' :
  mlod_tag.parse r out = (Some e, r', out') ->
  mlod_tag_fails r (mlod_error.error e) r'.
Proof.
  unfold mlod_tag.parse. intros H.
  fails_split H.
  { fails_read H. now apply mlod_tag_fails_active. }
  reads_ok S.
  fails_split H.
  { apply parse_field_inv in H. destruct H as (s & H & _).
    apply arma_string_parse_fails in H.
    exact (@mlod_tag_fails_tag_name r v r0 _ r' C H). }
  apply parse_field_inv in S. destruct S as (name & S & ->).
  pose proof (arma_string_parse_wf _ _ _ _ S) as Wn.
  apply codec_ok_arma_string in S.
  fails_split H.
  { fails_at H (@mlod_tag_fails_data_length); tag_fields; auto. chain. }
  apply read_field_ok_inv in S0. destruct S0 as (len & Rl & -> & Cl).
  apply read_u32_bound in Rl.
  rewrite stmt_step in H.
  apply parse_field_inv in H. destruct H as (d & H & _).
  apply (for_each_err_inv (fun _ => True) (fun _ => True) _ store) in H.
  - destruct H as (done & r3 & x & x' & Hl & _ & Cd & _ & H).
    unfold read_value in H. fails_read H. tag_fields.
    rewrite resize_length in Hl.
    apply (@mlod_tag_fails_data r
             (mlod_tag.mk v name len []) done r3); tag_fields; auto.
    chain.
  - intros r3 x r4 x' _ Hx. split; [exact I|].
    eapply codec_ok_read_value; exact Hx.
  - apply Forall_forall. trivial.
Qed.

(** The tag at which the loop over the tags returns an error, the tags
    before it read in full, none of them the terminator. *)
Lemma tag_loop_err_inv (fuel : nat) :
  forall r out e r' out',
    mlod_lod.tag_loop fuel r out = Some (Some e, r', out') ->
    exists done r1,
      Forall wf_mlod_tag done
      /\ Forall (fun t => mlod_tag.named "#EndOfFile#" t = false) done
      /\ consumed r (flat_map mlod_tag_bytes done) r1
      /\ mlod_tag_fails r1 (mlod_error.error e) r'.
Proof.
  induction fuel as [|fuel IH]; intros r out e r' out'; [discriminate|].
  cbn [mlod_lod.tag_loop].
  destruct (mlod_tag.parse r mlod_tag.default) as [[[e1|] r1] tag] eqn:E.
  - intros [= <- <- _]. exists [], r.
    refine (conj _ (conj _ (conj (consumed_refl r) _))); try constructor.
    exact (mlod_tag_parse_fails _ _ _ _ _ E).
  - destruct (mlod_tag.named "#EndOfFile#" tag) eqn:N; [discriminate|].
    intros H. apply IH in H. destruct H as (done & r2 & W & NE & C & F).
    exists (tag :: done), r2.
    refine (conj _ (conj _ (conj _ F))).
    + constructor; [exact (mlod_tag_parse_wf _ _ _ _ E)|exact W].
    + constructor; assumption.
    + change (flat_map mlod_tag_bytes (tag :: done))
        with (mlod_tag_bytes tag ++ flat_map mlod_tag_bytes done).
      exact (consumed_app (codec_ok_mlod_tag _ _ _ _ E) C).
Qed.

Lemma parse_tags_err_inv r out e r' out' :
  mlod_lod.parse_tags r out = (Some e, r', out') ->
  exists done r1,
    Forall wf_mlod_tag done
    /\ Forall (fun t => mlod_tag.named "#EndOfFile#" t = false) done
    /\ consumed r (flat_map mlod_tag_bytes done) r1
    /\ mlod_tag_fails r1 (mlod_error.error e) r'.
Proof.
  unfold mlod_lod.parse_tags.
  destruct (mlod_lod.tag_loop (S (binary_reader.remaining r)) r out)
    as [res|] eqn:E.
  - intros ->. exact (tag_loop_err_inv _ _ _ _ _ _ E).
  - exfalso. revert E. apply tag_loop_fuel. lia.
Qed.

(** What a loop over a vector that returns no error has read. *)
Lemma for_each_ok_on {A : Type} (P Q : A -> Prop) (p : parser A)
      (b : A -> list byte) :
  (forall r x r' x',
      P x -> p r x = (None, r', x') -> Q x' /\ consumed r (b x') r') ->
  forall l r r' l',
    Forall P l ->
    for_each p r l = (None, r', l') ->
    length l' = length l
    /\ Forall Q l'
    /\ consumed r (flat_map b l') r'.
Proof.
  intros Hp l r r' l' HP H. split; [eapply for_each_length; exact H|]. split.
  - apply (for_each_Forall_on P Q p) with (v := l) (r := r) (r' := r');
      [|exact HP|exact H].
    intros r0 x r1 x' Px Hx. exact (proj1 (Hp r0 x r1 x' Px Hx)).
  - apply (for_each_consumed_on P p b) with (v := l); [|exact HP|exact H].
    intros r0 x r1 x' Px Hx. exact (proj2 (Hp r0 x r1 x' Px Hx)).
Qed.

Lemma Forall_True {A : Type} (l : list A) : Forall (fun _ => True) l.
Proof. apply Forall_forall. trivial. Qed.

Lemma mlod_point_parse_ok r x r' x' :
  True -> mlod_point.parse r x = (None, r', x') ->
  wf_mlod_point x' /\ consumed r (mlod_point_bytes x') r'.
Proof.
  intros _ H. split; [exact (mlod_point_parse_wf _ _ _ _ H)|].
  exact (codec_ok_mlod_point _ _ _ _ H).
Qed.

Lemma vector3_parse_ok r x r' x' :
  True -> vector3.parse r x = (None, r', x') ->
  wf_vector3 x' /\ consumed r (vector3_bytes x') r'.
Proof.
  intros _ H. split; [exact (vector3_parse_wf _ _ _ _ H)|].
  exact (codec_ok_vector3 _ _ _ _ H).
Qed.

Lemma mlod_face_parse_ok r x r' x' :
  True -> mlod_face.parse r x = (None, r', x') ->
  wf_mlod_face x' /\ consumed r (mlod_face_bytes x') r'.
Proof.
  intros _ H. split; [exact (mlod_face_parse_wf _ _ _ _ H)|].
  exact (codec_ok_mlod_face _ _ _ _ H).
Qed.

Lemma mlod_lod_parse_ok r x r' x' :
  x = mlod_lod.default -> mlod_lod.parse r x = (None, r', x') ->
  wf_mlod_lod x' /\ consumed r (mlod_lod_bytes x') r'.
Proof.
  intros -> H. split; [exact (mlod_lod_parse_wf _ _ _ H)|].
  exact (mlod_lod_parse_consumed r mlod_lod.default r' x' eq_refl H).
Qed.

Lemma tag_loop_ok_read (fuel : nat) :
  forall r out r' out',
    mlod_lod.tag_loop fuel r out = Some (None, r', out') ->
    exists new,
      out' = keep_tags new out
      /\ Forall wf_mlod_tag new
      /\ eof_terminated new
      /\ consumed r (flat_map mlod_tag_bytes new) r'.
Proof.
  induction fuel as [|fuel IH]; intros r out r' out'; [discriminate|].
  cbn [mlod_lod.tag_loop].
  destruct (mlod_tag.parse r mlod_tag.default) as [[[e|] r1] tag] eqn:E;
    [discriminate|].
  pose proof (mlod_tag_parse_wf _ _ _ _ E) as W.
  apply codec_ok_mlod_tag in E.
  destruct (mlod_tag.named "#EndOfFile#" tag) eqn:N.
  - intros [= <- <-]. exists [tag].
    refine (conj eq_refl (conj _ (conj _ _))).
    + constructor; [exact W|constructor].
    + exists [], tag. auto.
    + change (flat_map mlod_tag_bytes [tag]) with (mlod_tag_bytes tag ++ []).
      rewrite app_nil_r. exact E.
  - intros H. apply IH in H.
    destruct H as (new & -> & Wn & (pre & t & -> & Hpre & Ht) & C).
    exists (tag :: pre ++ [t]).
    refine (conj eq_refl (conj _ (conj _ _))).
    + constructor; assumption.
    + exists (tag :: pre), t. auto.
    + change (flat_map mlod_tag_bytes (tag :: pre ++ [t]))
        with (mlod_tag_bytes tag ++ flat_map mlod_tag_bytes (pre ++ [t])).
      exact (consumed_app E C).
Qed.

Lemma parse_tags_ok_read r out r' out' :
  mlod_lod.parse_tags r out = (None, r', out') ->
  exists new,
    out' = keep_tags new out
    /\ Forall wf_mlod_tag new
    /\ eof_terminated new
    /\ consumed r (flat_map mlod_tag_bytes new) r'.
Proof.
  unfold mlod_lod.parse_tags.
  destruct (mlod_lod.tag_loop (S (binary_reader.remaining r)) r out)
    as [res|] eqn:E.
  - intros ->. exact (tag_loop_ok_read _ _ _ _ _ E).
  - discriminate.
Qed.

Ltac lod_fields :=
  cbn [mlod_lod.signature mlod_lod.minor_version mlod_lod.major_version
       mlod_lod.num_points mlod_lod.num_face_normals mlod_lod.num_faces
       mlod_lod.flags mlod_lod.points mlod_lod.normals mlod_lod.faces
       mlod_lod.tag_sig mlod_lod.tags mlod_lod.resolution
       mlod_lod.property_tags mlod_lod.mass
       mlod_lod.with_signature mlod_lod.with_minor_version
       mlod_lod.with_major_version mlod_lod.with_num_points
       mlod_lod.with_num_face_normals mlod_lod.with_num_faces
       mlod_lod.with_flags mlod_lod.with_points mlod_lod.with_normals
       mlod_lod.with_faces mlod_lod.with_tag_sig mlod_lod.with_tags
       mlod_lod.with_resolution mlod_lod.with_property_tags
       mlod_lod.with_mass] in *.

Ltac lod_layout :=
  unfold points_read, normals_read, faces_read, mlod_lod_head_bytes,
    mlod_lod_vectors_bytes;
  lod_fields; rewrite <- ?app_assoc.

(** The object a parser in [H] is run on. *)
Ltac object_of H :=
  lazymatch type of H with
  | _ _ ?o = _ => o
  end.

Lemma mlod_lod_parse_fails r out e r' out' :
  mlod_lod.parse r out = (Some e, r', out') ->
  mlod_lod_fails r (mlod_error.error e) r'.
Proof.
  unfold mlod_lod.parse. intros H.
  fails_split H.
  { fails_read H. now apply mlod_lod_fails_signature. }
  reads_ok S. fails_split H.
  { fails_at H (@mlod_lod_fails_minor_version); lod_layout;
      [chain|assumption]. }
  reads_ok S. fails_split H.
  { fails_at H (@mlod_lod_fails_major_version); lod_layout;
      [chain|assumption]. }
  reads_ok S. fails_split H.
  { fails_at H (@mlod_lod_fails_num_points); lod_layout;
      [chain|assumption]. }
  reads_ok S. fails_split H.
  { fails_at H (@mlod_lod_fails_num_face_normals); lod_layout;
      [chain|assumption]. }
  reads_ok S. fails_split H.
  { fails_at H (@mlod_lod_fails_num_faces); lod_layout;
      [chain|assumption]. }
  reads_ok S. fails_split H.
  { fails_at H (@mlod_lod_fails_flags); lod_layout;
      [chain|assumption]. }
  reads_ok S. u32_reads.
  rewrite stmt_step in H. fails_split H.
  { let o := object_of H in pose (i := o).
    apply parse_field_inv in H. destruct H as (pts & H & _).
    apply (for_each_err_inv _ _ _ _ mlod_point_parse_ok _ _ _ _ _
             (Forall_True _)) in H.
    destruct H as (done & r8 & x & x' & Hl & HQ & Cd & _ & H).
    apply mlod_point_parse_fails in H.
    lod_fields. rewrite resize_length in Hl.
    apply (@mlod_lod_fails_points r i done r8 _ r'); subst i; lod_layout;
      auto.
    chain. }
  apply parse_field_inv in S. destruct S as (pts & S & ->).
  apply (for_each_ok_on _ _ _ _ mlod_point_parse_ok _ _ _ _ (Forall_True _))
    in S.
  destruct S as (Lp & Wp & Cp). lod_fields. rewrite resize_length in Lp.
  rewrite stmt_step in H. fails_split H.
  { let o := object_of H in pose (i := o).
    apply parse_field_inv in H. destruct H as (nrm & H & _).
    apply (for_each_err_inv _ _ _ _ vector3_parse_ok _ _ _ _ _
             (Forall_True _)) in H.
    destruct H as (done & r9 & x & x' & Hl & HQ & Cd & _ & H).
    apply vector3_parse_fails in H.
    lod_fields. rewrite resize_length in Hl.
    apply (@mlod_lod_fails_normals r i done r9 _ r'); subst i; lod_layout;
      auto.
    chain. }
  apply parse_field_inv in S. destruct S as (nrm & S & ->).
  apply (for_each_ok_on _ _ _ _ vector3_parse_ok _ _ _ _ (Forall_True _))
    in S.
  destruct S as (Ln & Wn & Cn). lod_fields. rewrite resize_length in Ln.
  rewrite stmt_step in H. fails_split H.
  { let o := object_of H in pose (i := o).
    apply parse_field_inv in H. destruct H as (fcs & H & _).
    apply (for_each_err_inv _ _ _ _ mlod_face_parse_ok _ _ _ _ _
             (Forall_True _)) in H.
    destruct H as (done & r10 & x & x' & Hl & HQ & Cd & _ & H).
    apply mlod_face_parse_fails in H.
    lod_fields. rewrite resize_length in Hl.
    apply (@mlod_lod_fails_faces r i done r10 _ r'); subst i; lod_layout;
      auto.
    chain. }
  apply parse_field_inv in S. destruct S as (fcs & S & ->).
  apply (for_each_ok_on _ _ _ _ mlod_face_parse_ok _ _ _ _ (Forall_True _))
    in S.
  destruct S as (Lf & Wf & Cf). lod_fields. rewrite resize_length in Lf.
  fails_split H.
  { fails_at H (@mlod_lod_fails_tag_sig); lod_layout; auto. chain. }
  reads_ok S. fails_split H.
  { let o := object_of H in pose (i := o).
    apply parse_tags_err_inv in H.
    destruct H as (done & r12 & W & NE & Cd & H).
    apply (@mlod_lod_fails_tags r i done r12 _ r'); subst i; lod_layout;
      auto.
    chain. }
  let o := object_of S in pose (i := o).
  apply parse_tags_ok_read in S. destruct S as (new & -> & Wt & Et & Ct).
  fails_read H.
  apply (@mlod_lod_fails_resolution r (mlod_lod.with_tags new i));
    subst i; lod_layout; auto.
  chain.
Qed.

Lemma mlod_p3d_parse_fails r e r' out' :
  mlod_p3d.parse r mlod_p3d.default = (Some e, r', out') ->
  mlod_p3d_fails r (mlod_error.error e) r'.
Proof.
  unfold mlod_p3d.parse. intros H.
  fails_split H.
  { apply parse_field_inv in H. destruct H as (h & H & _).
    apply mlod_p3d_fails_header. exact (p3d_header_parse_fails _ _ _ _ _ H). }
  apply parse_field_inv in S. destruct S as (h & S & ->).
  assert (Hc : is_u32 (p3d_header.lod_count h)).
  { unfold p3d_header.parse in S. parse_inv_reads S. u32_reads.
    assumption. }
  apply codec_ok_p3d_header in S.
  rewrite stmt_step in H.
  apply parse_field_inv in H. destruct H as (lods & H & _).
  cbn [mlod_p3d.lods mlod_p3d.header mlod_p3d.with_lods mlod_p3d.with_header
       mlod_p3d.default] in H.
  rewrite resize_nil in H.
  apply (for_each_err_inv _ _ _ _ mlod_lod_parse_ok) in H;
    [|apply Forall_repeat; reflexivity].
  destruct H as (done & r1 & x & x' & Hl & HQ & Cd & _ & H).
  apply mlod_lod_parse_fails in H. rewrite repeat_length in Hl.
  apply (@mlod_p3d_fails_lods r h done r1 _ r'); auto.
  exact (consumed_app S Cd).
Qed.

(** ** The failing reads, from the buffer to the error *)

Lemma consumed_unread r w r' : consumed r w r' -> unread r = w ++ unread r'.
Proof. intros (Hb & _ & Hs). unfold unread. now rewrite Hb. Qed.

Lemma consumed_functional r w r1 r2 :
  consumed r w r1 -> consumed r w r2 -> r1 = r2.
Proof.
  intros (B1 & O1 & _) (B2 & O2 & _). destruct r1, r2. cbn in *. congruence.
Qed.

Lemma consumed_split r w1 w2 r' :
  consumed r (w1 ++ w2) r' ->
  exists r1, consumed r w1 r1 /\ consumed r1 w2 r'.
Proof.
  intros (Hb & Ho & Hs).
  exists (binary_reader.mk (binary_reader.buf r)
            (binary_reader.current_offset r + length w1)).
  assert (E : skipn (binary_reader.current_offset r + length w1)
                    (binary_reader.buf r)
              = w2 ++ skipn (binary_reader.current_offset r')
                            (binary_reader.buf r)).
  { rewrite skipn_add, Hs, <- app_assoc, skipn_app, skipn_all, Nat.sub_diag.
    reflexivity. }
  unfold consumed. cbn [binary_reader.buf binary_reader.current_offset].
  rewrite length_app in Ho.
  repeat split; try assumption; try lia.
  rewrite Hs, E, <- app_assoc. reflexivity.
Qed.

(** A parser that reads back the layout of [x] ends where that layout
    ends. *)
Lemma accepts {T : Type} (p : parser T) (b : T -> list byte) (x out : T)
      r r1 :
  (forall r2, p r out = (None, r2, x) -> consumed r (b x) r2) ->
  yields p b x out ->
  consumed r (b x) r1 ->
  p r out = (None, r1, x).
Proof.
  intros Hc Hy C.
  destruct (Hy r _ (consumed_unread _ _ _ C)) as (r2 & E & _).
  rewrite E. now rewrite (consumed_functional _ _ _ _ (Hc r2 E) C).
Qed.

Lemma read_field_run {T F : Type} `{HF : pod F} {HF_ok : pod_ok F}
      (get : T -> F) (set : F -> T -> T) msg r (out : T) (v : F) r1 :
  consumed r (store v) r1 ->
  0 < sizeof F ->
  read_field get set msg r out = (None, r1, set (load (store v)) out).
Proof.
  intros C Hpos.
  assert (Hs : store (load (store v)) = store v)
    by (apply store_load, store_length).
  destruct (read_yields r (get out) (load (store v)) (unread r1) Hpos)
    as (r2 & E & _ & _).
  - rewrite Hs. now apply consumed_unread.
  - now rewrite Hs.
  - unfold read_field. rewrite E.
    apply read_consumed in E. rewrite Hs in E.
    now rewrite (consumed_functional _ _ _ _ E C).
Qed.

Lemma seq_fail {T : Type} (p q : parser T) r out e r' out' :
  p r out = (Some e, r', out') -> (p ;; q) r out = (Some e, r', out').
Proof. unfold seq. now intros ->. Qed.

Lemma read_field_fails {T F : Type} `{HF : pod F}
      (get : T -> F) (set : F -> T -> T) msg r (out : T) :
  lacks r (sizeof F) ->
  read_field get set msg r out = (Some (mlod_error.mk msg), r, out).
Proof.
  intros L. unfold read_field.
  now rewrite (@read_fails _ _ r (get out) L).
Qed.

Lemma parse_field_fails {T F : Type} (get : T -> F) (set : F -> T -> T)
      (p : parser F) r out e r' :
  (exists v, p r (get out) = (Some e, r', v)) ->
  exists out', parse_field get set p r out = (Some e, r', out').
Proof. intros (v & E). unfold parse_field. rewrite E. eauto. Qed.

(** One successful read of the chain, the bytes [C] says are there. *)
Ltac run_read C :=
  lazymatch goal with
  | |- context [@seq _ (@read_field _ _ _ ?g ?s ?m) ?q ?r ?o] =>
    rewrite (seq_step _ _ _ _ _ _
               (read_field_run g s m r o _ _ C ltac:(cbn; lia)))
  end.

Ltac run_field E :=
  lazymatch goal with
  | |- context [@seq _ (@parse_field _ _ ?g ?s ?p) ?q ?r ?o] =>
    rewrite (seq_step _ _ _ _ _ _ (parse_field_step g s p r o _ _ E))
  end.

(** The read the chain stops at. *)
Ltac stop_read L :=
  eexists; first [apply seq_fail|idtac]; apply read_field_fails; exact L.

Ltac unchain C :=
  repeat (let r1 := fresh "r" in
          let C1 := fresh "C" in
          apply consumed_split in C; destruct C as (r1 & C1 & C)).

(** One segment only. *)
Ltac split_off C :=
  let r1 := fresh "r" in
  let C1 := fresh "C" in
  apply consumed_split in C; destruct C as (r1 & C1 & C).

Lemma vector3_fails_parse r msg r' :
  vector3_fails r msg r' ->
  forall out,
    exists out', vector3.parse r out = (Some (mlod_error.mk msg), r', out').
Proof.
  intros F out. unfold vector3.parse.
  destruct F as [L|x r1 C L|x y r1 C L].
  - stop_read L.
  - run_read C. stop_read L.
  - unchain C. run_read C0. run_read C. stop_read L.
Qed.

Lemma arma_string_fails_parse r msg r' :
  arma_string_fails r msg r' ->
  forall out,
    exists out',
      arma_string.parse r out = (Some (mlod_error.mk msg), r', out').
Proof.
  intros [s r1 Hs C L] out.
  pose proof (consumed_unread _ _ _ C) as U.
  destruct C as (Hb & Ho & _).
  assert (E : unread r1 = []).
  { unfold unread. apply skipn_all2. unfold lacks, binary_reader.size in L.
    lia. }
  rewrite E, app_nil_r in U.
  rewrite arma_string_parse_no_nul by (fold (unread r); now rewrite U).
  fold (unread r). rewrite U. eexists. do 2 f_equal.
  destruct r1. cbn in *. congruence.
Qed.

Lemma p3d_header_fails_parse r msg r' :
  p3d_header_fails r msg r' ->
  forall out,
    exists out',
      p3d_header.parse r out = (Some (mlod_error.mk msg), r', out').
Proof.
  intros F out. unfold p3d_header.parse.
  destruct F as [L|i r1 C L|i r1 C L].
  - stop_read L.
  - run_read C. stop_read L.
  - unchain C. run_read C0. run_read C. stop_read L.
Qed.

Lemma for_each_run {A : Type} (P Q : A -> Prop) (p : parser A)
      (b : A -> list byte) :
  (forall x o r r1,
      Q x -> P o -> consumed r (b x) r1 -> p r o = (None, r1, x)) ->
  forall xs l r r1,
    Forall Q xs -> Forall P l -> length l = length xs ->
    consumed r (flat_map b xs) r1 ->
    for_each p r l = (None, r1, xs).
Proof.
  intros Hp. induction xs as [|x xs IH]; intros [|o l] r r1 HQ HP Hl C;
    try discriminate.
  - now rewrite (consumed_functional _ _ _ _ C (consumed_refl r)).
  - change (flat_map b (x :: xs)) with (b x ++ flat_map b xs) in C.
    apply consumed_split in C. destruct C as (r2 & C1 & C2).
    inversion HQ; inversion HP; subst. cbn [for_each].
    rewrite (Hp x o r r2) by assumption.
    rewrite (IH l r2 r1) by (auto; cbn in Hl; lia).
    reflexivity.
Qed.

Lemma for_each_fails {A : Type} (P Q : A -> Prop) (p : parser A)
      (b : A -> list byte) e r' :
  (forall x o r r1,
      Q x -> P o -> consumed r (b x) r1 -> p r o = (None, r1, x)) ->
  forall done l r r1,
    Forall Q done -> Forall P l -> length done < length l ->
    consumed r (flat_map b done) r1 ->
    (forall o, P o -> exists o', p r1 o = (Some e, r', o')) ->
    exists l', for_each p r l = (Some e, r', l').
Proof.
  intros Hp. induction done as [|x done IH]; intros [|o l] r r1 HQ HP Hl C F;
    try (cbn in Hl; lia); inversion HP; subst; cbn [for_each].
  - rewrite (consumed_functional _ _ _ _ C (consumed_refl r)) in F.
    destruct (F o) as (o' & E); [assumption|]. rewrite E. eauto.
  - change (flat_map b (x :: done)) with (b x ++ flat_map b done) in C.
    apply consumed_split in C. destruct C as (r2 & C1 & C2).
    inversion HQ; subst.
    rewrite (Hp x o r r2) by assumption.
    destruct (IH l r2 r1) as (l' & E); auto; [cbn in Hl; lia|].
    rewrite E. eauto.
Qed.

Lemma vector3_run x o r r1 :
  wf_vector3 x -> True -> consumed r (vector3_bytes x) r1 ->
  vector3.parse r o = (None, r1, x).
Proof.
  intros W _. apply accepts; [|now apply vector3_yields].
  intros r2. apply codec_ok_vector3.
Qed.

Lemma arma_string_run x o r r1 :
  wf_arma_string x -> consumed r (arma_string_bytes x) r1 ->
  arma_string.parse r o = (None, r1, x).
Proof.
  intros W. apply accepts; [|now apply arma_string_yields].
  intros r2. apply codec_ok_arma_string.
Qed.

Lemma mlod_point_run x o r r1 :
  wf_mlod_point x -> True -> consumed r (mlod_point_bytes x) r1 ->
  mlod_point.parse r o = (None, r1, x).
Proof.
  intros W _. apply accepts; [|now apply mlod_point_yields].
  intros r2. apply codec_ok_mlod_point.
Qed.

Lemma mlod_face_run x o r r1 :
  wf_mlod_face x -> True -> consumed r (mlod_face_bytes x) r1 ->
  mlod_face.parse r o = (None, r1, x).
Proof.
  intros W _. apply accepts; [|now apply mlod_face_yields].
  intros r2. apply codec_ok_mlod_face.
Qed.

Lemma mlod_tag_run x o r r1 :
  wf_mlod_tag x -> consumed r (mlod_tag_bytes x) r1 ->
  mlod_tag.parse r o = (None, r1, x).
Proof.
  intros W. apply accepts; [|now apply mlod_tag_yields].
  intros r2. apply codec_ok_mlod_tag.
Qed.

Lemma mlod_lod_run x o r r1 :
  wf_mlod_lod x -> o = mlod_lod.default ->
  consumed r (mlod_lod_bytes x) r1 ->
  mlod_lod.parse r o = (None, r1, x).
Proof.
  intros W ->. apply accepts; [|now apply mlod_lod_yields].
  intros r2. now apply mlod_lod_parse_consumed.
Qed.

Lemma vert_descriptor_run msg (x o : vert_descriptor.t) r r1 :
  wf_vert_descriptor x -> True -> consumed r (store x) r1 ->
  read_value msg r o = (None, r1, x).
Proof.
  intros W _ C. unfold read_value.
  rewrite (read_field_run _ _ msg r o x r1 C) by (cbn; lia).
  now rewrite load_store_vert_descriptor.
Qed.

Lemma byte_run msg (x o : byte) r r1 :
  True -> True -> consumed r (store x) r1 ->
  read_value msg r o = (None, r1, x).
Proof.
  intros _ _ C. unfold read_value.
  rewrite (read_field_run _ _ msg r o x r1 C) by (cbn; lia).
  now rewrite load_store_byte.
Qed.

(** The nested parser the chain stops at, [E] being its error. *)
Ltac stop_field E :=
  eexists; first [apply seq_fail|idtac]; unfold parse_field; rewrite E;
  reflexivity.

Lemma mlod_point_fails_parse r msg r' :
  mlod_point_fails r msg r' ->
  forall out,
    exists out',
      mlod_point.parse r out = (Some (mlod_error.mk msg), r', out').
Proof.
  intros F out. unfold mlod_point.parse.
  destruct F as [msg r1 F|pos r1 W C L].
  - destruct (vector3_fails_parse _ _ _ F (mlod_point.pos out)) as (v & E).
    stop_field E.
  - run_field (vector3_run pos (mlod_point.pos out) r r1 W I C).
    stop_read L.
Qed.

Lemma mlod_face_fails_parse r msg r' :
  mlod_face_fails r msg r' ->
  forall out,
    exists out',
      mlod_face.parse r out = (Some (mlod_error.mk msg), r', out').
Proof.
  intros F out. unfold mlod_face.parse.
  destruct F as [L|ft done r1 Hl W C L|i r1 Hl W C L|i r1 msg r2 Hl W C F
                 |i r1 msg r2 Hl W Wt C F].
  - stop_read L.
  - unchain C. run_read C0. rewrite stmt_step.
    match goal with
    | |- context [seq (parse_field ?g _ (for_each ?p)) _ ?ra ?o] =>
      destruct (for_each_fails (fun _ => True) wf_vert_descriptor p store
                  (mlod_error.mk "failed to read mlod_face.vertices[n]") r1
                  (vert_descriptor_run _) done (g o) ra r1 W (Forall_True _))
        as (l' & E); [face_fields; now rewrite resize_length|exact C| |]
    end.
    + intros o _. eexists. unfold read_value.
      apply read_field_fails. exact L.
    + stop_field E.
  - unchain C. run_read C0. rewrite stmt_step.
    match goal with
    | |- context [seq (parse_field ?g _ (for_each ?p)) _ ?ra ?o] =>
      run_field (for_each_run (fun _ => True) wf_vert_descriptor p store
                   (vert_descriptor_run _) (mlod_face.vertices i) (g o) ra r1
                   W (Forall_True _)
                   ltac:(face_fields; now rewrite resize_length) C)
    end.
    stop_read L.
  - unchain C. run_read C0. rewrite stmt_step.
    match goal with
    | |- context [seq (parse_field ?g _ (for_each ?p)) _ ?ra ?o] =>
      run_field (for_each_run (fun _ => True) wf_vert_descriptor p store
                   (vert_descriptor_run _) (mlod_face.vertices i) (g o) ra _
                   W (Forall_True _)
                   ltac:(face_fields; now rewrite resize_length) C1)
    end.
    run_read C.
    match goal with
    | |- context [seq (parse_field ?g _ arma_string.parse) _ _ ?o] =>
      destruct (arma_string_fails_parse _ _ _ F (g o)) as (s & E)
    end.
    stop_field E.
  - do 3 split_off C. run_read C0. rewrite stmt_step.
    match goal with
    | |- context [seq (parse_field ?g _ (for_each ?p)) _ ?ra ?o] =>
      run_field (for_each_run (fun _ => True) wf_vert_descriptor p store
                   (vert_descriptor_run _) (mlod_face.vertices i) (g o) ra _
                   W (Forall_True _)
                   ltac:(face_fields; now rewrite resize_length) C1)
    end.
    run_read C2.
    match goal with
    | |- context [seq (parse_field ?g _ arma_string.parse) _ ?ra ?o] =>
      run_field (arma_string_run (mlod_face.texture_name i) (g o) ra r1 Wt C)
    end.
    match goal with
    | |- context [parse_field ?g _ arma_string.parse _ ?o] =>
      destruct (arma_string_fails_parse _ _ _ F (g o)) as (s & E)
    end.
    stop_field E.
Qed.

Lemma mlod_tag_fails_parse r msg r' :
  mlod_tag_fails r msg r' ->
  forall out,
    exists out',
      mlod_tag.parse r out = (Some (mlod_error.mk msg), r', out').
Proof.
  intros F out. unfold mlod_tag.parse.
  destruct F as [L|a r1 msg r2 C F|i r1 W C L|i done r1 W Hu Hl C L].
  - stop_read L.
  - run_read C.
    match goal with
    | |- context [seq (parse_field ?g _ arma_string.parse) _ _ ?o] =>
      destruct (arma_string_fails_parse _ _ _ F (g o)) as (s & E)
    end.
    stop_field E.
  - split_off C. run_read C0.
    match goal with
    | |- context [seq (parse_field ?g _ arma_string.parse) _ ?ra ?o] =>
      run_field (arma_string_run (mlod_tag.tag_name i) (g o) ra r1 W C)
    end.
    stop_read L.
  - do 3 split_off C. run_read C0.
    match goal with
    | |- context [seq (parse_field ?g _ arma_string.parse) _ ?ra ?o] =>
      run_field (arma_string_run (mlod_tag.tag_name i) (g o) ra _ W C1)
    end.
    run_read C2. rewrite (load_store_u32 _ Hu), stmt_step.
    match goal with
    | |- context [parse_field ?g _ (for_each ?p) ?ra ?o] =>
      destruct (for_each_fails (fun _ => True) (fun _ => True) p store
                  (mlod_error.mk "failed to read mlod_tag.data[m]") r1
                  (byte_run _) done (g o) ra r1 (Forall_True _)
                  (Forall_True _))
        as (l' & E); [tag_fields; now rewrite resize_length|exact C| |]
    end.
    + intros o _. eexists. unfold read_value.
      apply read_field_fails. exact L.
    + stop_field E.
Qed.

(** The loop over the tags, up to the tag whose decode fails. *)
Lemma tag_loop_fails (done : list mlod_tag.t) e r' :
  forall fuel r r1 out,
    Forall wf_mlod_tag done ->
    Forall (fun t => mlod_tag.named "#EndOfFile#" t = false) done ->
    length done < fuel ->
    consumed r (flat_map mlod_tag_bytes done) r1 ->
    (forall o, exists o', mlod_tag.parse r1 o = (Some e, r', o')) ->
    exists out', mlod_lod.tag_loop fuel r out = Some (Some e, r', out').
Proof.
  induction done as [|t done IH]; intros [|fuel] r r1 out W NE Hf C F;
    try (cbn in Hf; lia); cbn [mlod_lod.tag_loop].
  - rewrite (consumed_functional _ _ _ _ C (consumed_refl r)) in F.
    destruct (F mlod_tag.default) as (o' & E). rewrite E. eauto.
  - change (flat_map mlod_tag_bytes (t :: done))
      with (mlod_tag_bytes t ++ flat_map mlod_tag_bytes done) in C.
    apply consumed_split in C. destruct C as (r2 & C1 & C2).
    inversion W; inversion NE; subst.
    rewrite (mlod_tag_run t mlod_tag.default r r2) by assumption.
    match goal with N : mlod_tag.named _ t = false |- _ => rewrite N end.
    apply (IH fuel r2 r1); auto. cbn in Hf. lia.
Qed.

Lemma parse_tags_fails (done : list mlod_tag.t) msg r r1 r' out :
  Forall wf_mlod_tag done ->
  Forall (fun t => mlod_tag.named "#EndOfFile#" t = false) done ->
  consumed r (flat_map mlod_tag_bytes done) r1 ->
  mlod_tag_fails r1 msg r' ->
  exists out',
    mlod_lod.parse_tags r out = (Some (mlod_error.mk msg), r', out').
Proof.
  intros W NE C F. unfold mlod_lod.parse_tags.
  destruct (tag_loop_fails done (mlod_error.mk msg) r'
              (S (binary_reader.remaining r)) r r1 out W NE)
    as (out' & E); [|exact C| |].
  - rewrite (consumed_remaining C).
    pose proof (flat_map_length_ge mlod_tag_bytes done mlod_tag_bytes_length).
    lia.
  - intros o. exact (mlod_tag_fails_parse _ _ _ F o).
  - rewrite E. eauto.
Qed.

Lemma parse_tags_run (tags : list mlod_tag.t) r r1 out :
  Forall wf_mlod_tag tags -> eof_terminated tags ->
  consumed r (flat_map mlod_tag_bytes tags) r1 ->
  mlod_lod.parse_tags r out = (None, r1, keep_tags tags out).
Proof.
  intros W Et C.
  destruct (parse_tags_yields tags out Et W r _ (consumed_unread _ _ _ C))
    as (r2 & E & _).
  rewrite E. f_equal. f_equal.
  apply parse_tags_ok_read in E. destruct E as (new & Ek & _ & _ & C2).
  pose proof (f_equal mlod_lod.tags Ek) as Et2.
  rewrite !keep_tags_tags in Et2. apply app_inv_head in Et2. subst new.
  exact (consumed_functional _ _ _ _ C2 C).
Qed.

Ltac lod_segments C :=
  unfold mlod_lod_head_bytes, mlod_lod_vectors_bytes in C;
  rewrite <- ?app_assoc in C.

(** The seven reads of the head of a LOD. *)
Ltac run_head C0 C1 C2 C3 C4 C5 C6 :=
  run_read C0; run_read C1; run_read C2; run_read C3; run_read C4;
  run_read C5; run_read C6.

(** A vector of a LOD read in full: [Q], [p], [b] and [run] for its
    elements, [xs] the vector, [W] and [Hlen] what is known of it. *)
Ltac run_vector Q p b run xs W Hlen C :=
  rewrite stmt_step;
  lazymatch goal with
  | |- context [@seq _ (@parse_field _ _ ?g _ (for_each p)) _ ?ra ?o] =>
    run_field (for_each_run (fun _ => True) Q p b run xs (g o) ra _ W
                 (Forall_True _)
                 ltac:(lod_fields; rewrite resize_length; symmetry;
                       exact Hlen) C)
  end.

(** A vector of a LOD whose element after [done] fails with [F]. *)
Ltac stop_vector Q p b run fails done W Hl C F :=
  rewrite stmt_step;
  lazymatch goal with
  | |- context [@seq _ (@parse_field _ _ ?g _ (for_each p)) _ ?ra ?o] =>
    let l' := fresh "l" in
    let E := fresh "E" in
    destruct (for_each_fails (fun _ => True) Q p b _ _ run done (g o) ra _
                W (Forall_True _)
                ltac:(lod_fields; rewrite resize_length; exact Hl) C
                (fun elt _ => fails _ _ _ F elt))
      as (l' & E);
    stop_field E
  end.

Lemma mlod_lod_fails_parse r msg r' :
  mlod_lod_fails r msg r' ->
  forall out,
    exists out',
      mlod_lod.parse r out = (Some (mlod_error.mk msg), r', out').
Proof.
  intros F out. unfold mlod_lod.parse.
  destruct F as [L|i r1 C L|i r1 C L|i r1 C L|i r1 C L|i r1 C L|i r1 C L
                 |i done r1 msg r2 Hu Hl W C F
                 |i done r1 msg r2 (Up & Lp & Wp) Hu Hl W C F
                 |i done r1 msg r2 (Up & Lp & Wp) (Un & Ln & Wn) Hu Hl W C F
                 |i r1 (Up & Lp & Wp) (Un & Ln & Wn) (Uf & Lf & Wf) C L
                 |i done r1 msg r2 (Up & Lp & Wp) (Un & Ln & Wn)
                    (Uf & Lf & Wf) W NE C F
                 |i r1 (Up & Lp & Wp) (Un & Ln & Wn) (Uf & Lf & Wf) Wt Et
                    C L].
  - stop_read L.
  - run_read C. stop_read L.
  - split_off C. run_read C0. run_read C. stop_read L.
  - do 2 split_off C. run_read C0. run_read C1. run_read C. stop_read L.
  - do 3 split_off C. run_read C0. run_read C1. run_read C2. run_read C.
    stop_read L.
  - do 4 split_off C. run_read C0. run_read C1. run_read C2. run_read C3.
    run_read C. stop_read L.
  - do 5 split_off C. run_read C0. run_read C1. run_read C2. run_read C3.
    run_read C4. run_read C. stop_read L.
  - lod_segments C. do 7 split_off C. run_head C0 C1 C2 C3 C4 C5 C6.
    rewrite !(load_store_u32 _ Hu).
    stop_vector wf_mlod_point mlod_point.parse mlod_point_bytes
                mlod_point_run mlod_point_fails_parse done W Hl C F.
  - lod_segments C. do 8 split_off C. run_head C0 C1 C2 C3 C4 C5 C6.
    rewrite !(load_store_u32 _ Up), !(load_store_u32 _ Hu).
    run_vector wf_mlod_point mlod_point.parse mlod_point_bytes
               mlod_point_run (mlod_lod.points i) Wp Lp C7.
    stop_vector wf_vector3 vector3.parse vector3_bytes
                vector3_run vector3_fails_parse done W Hl C F.
  - lod_segments C. do 9 split_off C. run_head C0 C1 C2 C3 C4 C5 C6.
    rewrite !(load_store_u32 _ Up), !(load_store_u32 _ Un),
      !(load_store_u32 _ Hu).
    run_vector wf_mlod_point mlod_point.parse mlod_point_bytes
               mlod_point_run (mlod_lod.points i) Wp Lp C7.
    run_vector wf_vector3 vector3.parse vector3_bytes
               vector3_run (mlod_lod.normals i) Wn Ln C8.
    stop_vector wf_mlod_face mlod_face.parse mlod_face_bytes
                mlod_face_run mlod_face_fails_parse done W Hl C F.
  - lod_segments C. do 9 split_off C. run_head C0 C1 C2 C3 C4 C5 C6.
    rewrite !(load_store_u32 _ Up), !(load_store_u32 _ Un),
      !(load_store_u32 _ Uf).
    run_vector wf_mlod_point mlod_point.parse mlod_point_bytes
               mlod_point_run (mlod_lod.points i) Wp Lp C7.
    run_vector wf_vector3 vector3.parse vector3_bytes
               vector3_run (mlod_lod.normals i) Wn Ln C8.
    run_vector wf_mlod_face mlod_face.parse mlod_face_bytes
               mlod_face_run (mlod_lod.faces i) Wf Lf C.
    stop_read L.
  - lod_segments C. do 11 split_off C. run_head C0 C1 C2 C3 C4 C5 C6.
    rewrite !(load_store_u32 _ Up), !(load_store_u32 _ Un),
      !(load_store_u32 _ Uf).
    run_vector wf_mlod_point mlod_point.parse mlod_point_bytes
               mlod_point_run (mlod_lod.points i) Wp Lp C7.
    run_vector wf_vector3 vector3.parse vector3_bytes
               vector3_run (mlod_lod.normals i) Wn Ln C8.
    run_vector wf_mlod_face mlod_face.parse mlod_face_bytes
               mlod_face_run (mlod_lod.faces i) Wf Lf C9.
    run_read C10.
    lazymatch goal with
    | |- context [seq mlod_lod.parse_tags _ ?ra ?o] =>
      destruct (parse_tags_fails done msg ra r1 r2 o W NE C F) as (o' & E)
    end.
    eexists. apply seq_fail. exact E.
  - lod_segments C. do 11 split_off C. run_head C0 C1 C2 C3 C4 C5 C6.
    rewrite !(load_store_u32 _ Up), !(load_store_u32 _ Un),
      !(load_store_u32 _ Uf).
    run_vector wf_mlod_point mlod_point.parse mlod_point_bytes
               mlod_point_run (mlod_lod.points i) Wp Lp C7.
    run_vector wf_vector3 vector3.parse vector3_bytes
               vector3_run (mlod_lod.normals i) Wn Ln C8.
    run_vector wf_mlod_face mlod_face.parse mlod_face_bytes
               mlod_face_run (mlod_lod.faces i) Wf Lf C9.
    run_read C10.
    lazymatch goal with
    | |- context [seq mlod_lod.parse_tags _ ?ra ?o] =>
      rewrite (seq_step _ _ _ _ _ _
                 (parse_tags_run (mlod_lod.tags i) ra r1 o Wt Et C))
    end.
    stop_read L.
Qed.

Lemma p3d_header_run (h out : p3d_header.t) r r1 :
  consumed r (p3d_header_bytes h) r1 ->
  exists h',
    p3d_header.parse r out = (None, r1, h')
    /\ p3d_header.lod_count h' = load (store (p3d_header.lod_count h)).
Proof.
  intros C. unfold p3d_header_bytes in C. do 2 split_off C.
  unfold p3d_header.parse. run_read C0. run_read C1.
  rewrite (read_field_run _ _ _ _ _ _ _ C) by (cbn; lia).
  eexists. split; reflexivity.
Qed.

Lemma mlod_p3d_fails_parse r msg r' :
  mlod_p3d_fails r msg r' ->
  exists out',
    mlod_p3d.parse r mlod_p3d.default
    = (Some (mlod_error.mk msg), r', out').
Proof.
  intros F. unfold mlod_p3d.parse.
  destruct F as [msg r1 F|h done r1 msg r2 Hu Hl W C F].
  - destruct (p3d_header_fails_parse _ _ _ F
                (mlod_p3d.header mlod_p3d.default)) as (v & E).
    stop_field E.
  - split_off C.
    destruct (p3d_header_run h (mlod_p3d.header mlod_p3d.default) _ _ C0)
      as (h' & E & Hc).
    rewrite (load_store_u32 _ Hu) in Hc.
    run_field E. rewrite stmt_step.
    lazymatch goal with
    | |- context [parse_field ?g _ (for_each ?p) ?ra ?o] =>
      destruct (for_each_fails (fun elt => elt = mlod_lod.default) wf_mlod_lod
                  p mlod_lod_bytes (mlod_error.mk msg) r2 mlod_lod_run
                  done (g o) ra r1 W)
        as (l' & E2); [| |exact C| |]
    end.
    + cbn [mlod_p3d.lods mlod_p3d.header mlod_p3d.with_lods
           mlod_p3d.with_header mlod_p3d.default].
      rewrite resize_nil. now apply Forall_repeat.
    + cbn [mlod_p3d.lods mlod_p3d.header mlod_p3d.with_lods
           mlod_p3d.with_header mlod_p3d.default].
      rewrite resize_length, Hc. exact Hl.
    + intros o _. exact (mlod_lod_fails_parse _ _ _ F o).
    + stop_field E2.
Qed.

(** ** The error of a failed decode *)

(** C8, as the code has it.  The error of a failed decode is one of the
    fixed messages of [read_failures], and it names the struct and the
    member of the read that ran out of data: [mlod_p3d_fails] holds of the
    message and of the reader the decode leaves, that is, everything before
    the member was read in full and the read of the member passes the end
    of the buffer; and it holds of no other message or reader.  The message
    of a nested [parse] reaches the caller unchanged, so it depends on the
    struct and member of that read only. *)
Theorem decode_error_is_fixed_message (bytes : list byte) e r' doc :
  decode bytes = (Some e, r', doc) ->
  In (mlod_error.error e) (map fst read_failures)
  /\ out_of_data e r'
  /\ forall msg r1,
      mlod_p3d_fails (binary_reader.new bytes) msg r1
      <-> msg = mlod_error.error e /\ r1 = r'.
Proof.
  intros H. pose proof (decode_sound _ _ _ _ H) as O.
  split; [|split; [exact O|]].
  - destruct O as (n & Hin & _).
    change (mlod_error.error e) with (fst (mlod_error.error e, n)).
    now apply in_map.
  - unfold decode in H. intros msg r1. split.
    + intros F. apply mlod_p3d_fails_parse in F. destruct F as (doc' & E).
      rewrite H in E. injection E as -> -> _. split; reflexivity.
    + intros [-> ->]. exact (mlod_p3d_parse_fails _ _ _ _ H).
Qed.

Lemma decode_error_is_fixed_message_witness :
  In "failed to read vector3.x" (map fst read_failures)
  /\ out_of_data (mlod_error.mk "failed to read vector3.x")
                 (binary_reader.mk cut_at_point_0 40)
  /\ forall msg r1,
      mlod_p3d_fails (binary_reader.new cut_at_point_0) msg r1
      <-> msg = "failed to read vector3.x"
          /\ r1 = binary_reader.mk cut_at_point_0 40.
Proof.
  apply (decode_error_is_fixed_message cut_at_point_0
           (mlod_error.mk "failed to read vector3.x")
           (binary_reader.mk cut_at_point_0 40)
           (snd (decode cut_at_point_0))).
  vm_compute. reflexivity.
Defined.

(** C8 as stated fails: decodes that fail at the first point, at the second
    point and at the first normal of a LOD return the same error, and a
    decode that fails at the second vertex of a face returns a message with
    a literal [n] for the index; no message has a path or an index. *)
Lemma error_message_has_no_path :
  (exists d, decode cut_at_point_0
             = (Some (mlod_error.mk "failed to read vector3.x"),
                binary_reader.mk cut_at_point_0 40, d))
  /\ (exists d, decode cut_at_point_1
                = (Some (mlod_error.mk "failed to read vector3.x"),
                   binary_reader.mk cut_at_point_1 56, d))
  /\ (exists d, decode cut_at_normal_0
                = (Some (mlod_error.mk "failed to read vector3.x"),
                   binary_reader.mk cut_at_normal_0 40, d))
  /\ (exists d, decode cut_at_vertex_1
                = (Some (mlod_error.mk "failed to read mlod_face.vertices[n]"),
                   binary_reader.mk cut_at_vertex_1 60, d)).
Proof.
  repeat conj_split.
  - exists (snd (decode cut_at_point_0)). evaluate.
  - exists (snd (decode cut_at_point_1)). evaluate.
  - exists (snd (decode cut_at_normal_0)). evaluate.
  - exists (snd (decode cut_at_vertex_1)). evaluate.
Qed.
